(** * SSV node: message broker, registry synchroniser, peer wait loop and
      validator shares

    A shallow embedding of the Go sources
      - [msgqueue] (the map based draft and the cache based draft),
      - [eth1/sync.go],
      - [commons.WaitForMinPeers],
      - [validator/storage/share.go] and [validator/storage/storage.go],
      - [eventqueue],
    together with the properties the specification states about them and
    further properties of the same code. *)

From Stdlib Require Import ZArith Lia Ascii String.
From Stdlib.Strings Require Import Byte.
From Stdlib Require Import Floats.SpecFloat.
From stdpp Require Import gmap strings list fin_maps pretty.

Local Open Scope Z_scope.

#[local] Set Warnings "-clear-no-such-hyp".

(** ** The message broker, map based draft *)

Module MsgQueue.

Section Queue.

(** [network.Message] is declared outside the sources at hand; the broker
    only stores it and hands it to the index functions. *)
Context {Message : Type}.

(** [IndexFunc]: [func(msg *network.Message) []string]. *)
Definition IndexFunc : Type := Message → list string.

Record messageContainer : Type := mkContainer {
  id : string;
  msg : Message;
  indexes : list string
}.

Record MessageQueue : Type := mkQueue {
  indexFuncs : list IndexFunc;
  queue : gmap string (list messageContainer);
  allMessages : gmap string messageContainer
}.

(** [q.queue[idx]]: reading a missing key of a Go map yields the nil slice. *)
Definition bucket (qu : gmap string (list messageContainer)) (idx : string)
  : list messageContainer :=
  default [] (qu !! idx).

(** [New]; the five standard index functions live in another file of the
    package and are passed in. *)
Definition New (standard : list IndexFunc) : MessageQueue :=
  {| indexFuncs := standard; queue := ∅; allMessages := ∅ |}.

Definition AddIndexFunc (f : IndexFunc) (q : MessageQueue) : MessageQueue :=
  {| indexFuncs := indexFuncs q ++ [f];
     queue := queue q;
     allMessages := allMessages q |}.

(** The index list computed by the first loop of [AddMessage]. *)
Definition computeIndexes (fs : list IndexFunc) (m : Message) : list string :=
  foldl (λ acc f, acc ++ f m) [] fs.

(** The second loop of [AddMessage]: append the container to each bucket. *)
Definition appendToIndexes (c : messageContainer) (ixs : list string)
    (qu : gmap string (list messageContainer))
  : gmap string (list messageContainer) :=
  foldl (λ acc idx, <[idx := bucket acc idx ++ [c]]> acc) qu ixs.

(** [AddMessage]; [uuid] is the value returned by [uuid.New()]. *)
Definition AddMessage (uuid : string) (m : Message) (q : MessageQueue)
  : MessageQueue :=
  let ixs := computeIndexes (indexFuncs q) m in
  let msgContainer := {| id := uuid; msg := m; indexes := ixs |} in
  {| indexFuncs := indexFuncs q;
     queue := appendToIndexes msgContainer ixs (queue q);
     allMessages := <[id msgContainer := msgContainer]> (allMessages q) |}.

Definition MessagesForIndex (index : string) (q : MessageQueue)
  : gmap string Message :=
  foldl (λ ret cont, <[id cont := msg cont]> ret) ∅ (bucket (queue q) index).

Definition removeId (i : string) (l : list messageContainer)
  : list messageContainer :=
  filter (λ c, id c ≠ i) l.

Definition deleteMessageFromAllIndexes (ixs : list string) (i : string)
    (q : MessageQueue) : MessageQueue :=
  {| indexFuncs := indexFuncs q;
     queue := foldl (λ acc indx, <[indx := removeId i (bucket acc indx)]> acc)
                    (queue q) ixs;
     allMessages := delete i (allMessages q) |}.

(** [PopMessage]: the returned pointer is [None] for Go's [nil]. *)
Definition PopMessage (index : string) (q : MessageQueue)
  : option Message * MessageQueue :=
  match bucket (queue q) index with
  | c :: _ => (Some (msg c), deleteMessageFromAllIndexes (indexes c) (id c) q)
  | [] => (None, q)
  end.

Definition MsgCount (index : string) (q : MessageQueue) : nat :=
  length (bucket (queue q) index).

Definition Len (q : MessageQueue) : nat := size (queue q).

Definition DeleteMessagesWithIds (ids : list string) (q : MessageQueue)
  : MessageQueue :=
  foldl (λ acc i,
           match allMessages acc !! i with
           | Some m => deleteMessageFromAllIndexes (indexes m) i acc
           | None => acc
           end) q ids.

Definition PurgeIndexedMessages (index : string) (q : MessageQueue)
  : MessageQueue :=
  {| indexFuncs := indexFuncs q;
     queue := <[index := []]> (queue q);
     allMessages := allMessages q |}.

(** *** Operations as data, and the states a broker can reach *)

Inductive op : Type :=
| OpAddIndexFunc (f : IndexFunc)
| OpAdd (uuid : string) (m : Message)
| OpPop (index : string)
| OpDelete (ids : list string)
| OpPurge (index : string).

Definition run_op (o : op) (q : MessageQueue) : MessageQueue :=
  match o with
  | OpAddIndexFunc f => AddIndexFunc f q
  | OpAdd uuid m => AddMessage uuid m q
  | OpPop index => snd (PopMessage index q)
  | OpDelete ids => DeleteMessagesWithIds ids q
  | OpPurge index => PurgeIndexedMessages index q
  end.

Definition is_purge (o : op) : bool :=
  match o with OpPurge _ => true | _ => false end.

(** [uuid.New()] hands out an identifier no stored container carries. *)
Definition fresh (uuid : string) (q : MessageQueue) : Prop :=
  allMessages q !! uuid = None ∧
  ∀ idx c, c ∈ bucket (queue q) idx → id c ≠ uuid.

Definition op_ok (o : op) (q : MessageQueue) : Prop :=
  match o with
  | OpAdd uuid _ => fresh uuid q
  | _ => True
  end.

(** [reachable allow_purge q]: [q] results from [New] by a sequence of
    operations; purges are admitted only when [allow_purge] is set. *)
Inductive reachable (allow_purge : bool) : MessageQueue → Prop :=
| reach_new standard : reachable allow_purge (New standard)
| reach_step q o :
    reachable allow_purge q →
    op_ok o q →
    (is_purge o = true → allow_purge = true) →
    reachable allow_purge (run_op o q).

(** Popping [index] [n] times in a row. *)
Fixpoint pops (n : nat) (index : string) (q : MessageQueue) : MessageQueue :=
  match n with
  | O => q
  | S n' => pops n' index (snd (PopMessage index q))
  end.

(** *** Buckets after each operation *)

Lemma bucket_insert idx idx' l (qu : gmap string (list messageContainer)) :
  bucket (<[idx := l]> qu) idx' = if decide (idx = idx') then l else bucket qu idx'.
Proof.
  unfold bucket. rewrite lookup_insert. by case_decide.
Qed.

Lemma bucket_empty idx : bucket ∅ idx = [].
Proof. unfold bucket. by rewrite lookup_empty. Qed.

Lemma bucket_appendToIndexes c ixs qu idx :
  bucket (appendToIndexes c ixs qu) idx
  = bucket qu idx ++ replicate (length (filter (λ k, k = idx) ixs)) c.
Proof.
  unfold appendToIndexes. revert qu.
  induction ixs as [|k ixs IH]; intros qu; simpl.
  - by rewrite app_nil_r.
  - rewrite IH, bucket_insert, filter_cons.
    repeat case_decide; subst; simpl; try done.
    by rewrite <- app_assoc.
Qed.

Lemma elem_of_bucket_appendToIndexes c c' ixs qu idx :
  c' ∈ bucket (appendToIndexes c ixs qu) idx
  ↔ c' ∈ bucket qu idx ∨ (c' = c ∧ idx ∈ ixs).
Proof.
  rewrite bucket_appendToIndexes, elem_of_app, elem_of_replicate.
  split; (intros [H|[-> H]]; [by left | right; split; [done|]]).
  - destruct (filter (λ k, k = idx) ixs) as [|k l] eqn:E; [done|].
    assert (Hk : k ∈ filter (λ k, k = idx) ixs) by (rewrite E; left).
    apply list_elem_of_filter in Hk as [-> Hk]. done.
  - intros E. apply length_zero_iff_nil in E.
    assert (Hk : idx ∈ filter (λ k, k = idx) ixs)
      by (apply list_elem_of_filter; done).
    rewrite E in Hk. by apply elem_of_nil in Hk.
Qed.

Lemma removeId_idemp i l : removeId i (removeId i l) = removeId i l.
Proof.
  unfold removeId. induction l as [|c l IH]; [done|].
  rewrite filter_cons. case_decide.
  - rewrite filter_cons. case_decide; [by rewrite IH | done].
  - done.
Qed.

Lemma bucket_delete ixs i q idx :
  bucket (queue (deleteMessageFromAllIndexes ixs i q)) idx
  = if decide (idx ∈ ixs) then removeId i (bucket (queue q) idx)
    else bucket (queue q) idx.
Proof.
  unfold deleteMessageFromAllIndexes; cbn [queue].
  generalize (queue q) as qu.
  induction ixs as [|k ixs IH]; intros qu; cbn [foldl].
  - rewrite decide_False; [done | apply not_elem_of_nil].
  - rewrite IH, bucket_insert.
    destruct (decide (idx ∈ ixs)) as [Hin|Hnin];
      destruct (decide (k = idx)) as [->|Hne].
    + rewrite removeId_idemp. rewrite decide_True by (by left). done.
    + rewrite decide_True by (by right). done.
    + rewrite decide_True by (by left). done.
    + rewrite decide_False; [done|].
      intros H. apply elem_of_cons in H as [H|H]; [congruence | done].
Qed.

Lemma allMessages_delete ixs i q :
  allMessages (deleteMessageFromAllIndexes ixs i q) = delete i (allMessages q).
Proof. done. Qed.

Lemma elem_of_removeId i c l : c ∈ removeId i l ↔ id c ≠ i ∧ c ∈ l.
Proof. unfold removeId. by rewrite list_elem_of_filter. Qed.

Lemma elem_of_bucket_delete ixs i q idx c :
  c ∈ bucket (queue (deleteMessageFromAllIndexes ixs i q)) idx
  ↔ c ∈ bucket (queue q) idx ∧ (idx ∈ ixs → id c ≠ i).
Proof.
  rewrite bucket_delete. case_decide as Hin.
  - rewrite elem_of_removeId. tauto.
  - tauto.
Qed.

Lemma removeId_sublist i l : removeId i l `sublist_of` l.
Proof. unfold removeId. apply sublist_filter. Qed.

Lemma bucket_delete_sublist ixs i q idx :
  bucket (queue (deleteMessageFromAllIndexes ixs i q)) idx
    `sublist_of` bucket (queue q) idx.
Proof.
  rewrite bucket_delete. case_decide; [apply removeId_sublist | done].
Qed.

Lemma bucket_pop_sublist index q idx :
  bucket (queue (snd (PopMessage index q))) idx `sublist_of` bucket (queue q) idx.
Proof.
  unfold PopMessage. destruct (bucket (queue q) index); simpl; [done|].
  apply bucket_delete_sublist.
Qed.

Lemma bucket_deleteIds_sublist ids q idx :
  bucket (queue (DeleteMessagesWithIds ids q)) idx
    `sublist_of` bucket (queue q) idx.
Proof.
  unfold DeleteMessagesWithIds. revert q.
  induction ids as [|i ids IH]; intros q; simpl; [done|].
  etrans; [apply IH|].
  destruct (allMessages q !! i); [apply bucket_delete_sublist | done].
Qed.

Lemma bucket_purge index q idx :
  bucket (queue (PurgeIndexedMessages index q)) idx
  = if decide (index = idx) then [] else bucket (queue q) idx.
Proof. apply bucket_insert. Qed.

Lemma bucket_add uuid m q idx :
  let c := mkContainer uuid m (computeIndexes (indexFuncs q) m) in
  bucket (queue (AddMessage uuid m q)) idx
  = bucket (queue q) idx
    ++ replicate (length (filter (λ k, k = idx) (indexes c))) c.
Proof. apply bucket_appendToIndexes. Qed.

(** *** Invariants of reachable brokers *)

(** A container sits only in buckets named in its index list. *)
Definition indexed_here (q : MessageQueue) : Prop :=
  ∀ idx c, c ∈ bucket (queue q) idx → idx ∈ indexes c.

(** Containers stored under one identifier are one container. *)
Definition ids_unique (q : MessageQueue) : Prop :=
  ∀ idx idx' c c',
    c ∈ bucket (queue q) idx → c' ∈ bucket (queue q) idx' →
    id c = id c' → c = c'.

(** Every bucket entry is the entry of the id lookup. *)
Definition buckets_in_lookup (q : MessageQueue) : Prop :=
  ∀ idx c, c ∈ bucket (queue q) idx → allMessages q !! id c = Some c.

(** Every entry of the id lookup sits in each bucket of its index list. *)
Definition lookup_in_buckets (q : MessageQueue) : Prop :=
  ∀ i c, allMessages q !! i = Some c →
         id c = i ∧ ∀ idx, idx ∈ indexes c → c ∈ bucket (queue q) idx.

Definition wf (q : MessageQueue) : Prop := indexed_here q ∧ ids_unique q.

Definition synced (q : MessageQueue) : Prop :=
  indexed_here q ∧ buckets_in_lookup q ∧ lookup_in_buckets q.

Lemma wf_New standard : wf (New standard).
Proof.
  split; intros idx; intros; simpl in *; rewrite bucket_empty in *;
    by match goal with H : _ ∈ [] |- _ => apply elem_of_nil in H end.
Qed.

Lemma wf_delete ixs i q : wf q → wf (deleteMessageFromAllIndexes ixs i q).
Proof.
  intros [Ha Hd]. split.
  - intros idx c Hc. apply elem_of_bucket_delete in Hc as [Hc _]. eauto.
  - intros idx idx' c c' Hc Hc'.
    apply elem_of_bucket_delete in Hc as [Hc _].
    apply elem_of_bucket_delete in Hc' as [Hc' _]. eauto.
Qed.

Lemma wf_pop index q : wf q → wf (snd (PopMessage index q)).
Proof.
  intros H. unfold PopMessage.
  destruct (bucket (queue q) index); simpl; [done | by apply wf_delete].
Qed.

Lemma wf_deleteIds ids q : wf q → wf (DeleteMessagesWithIds ids q).
Proof.
  unfold DeleteMessagesWithIds. revert q.
  induction ids as [|i ids IH]; intros q H; simpl; [done|].
  apply IH. destruct (allMessages q !! i); [by apply wf_delete | done].
Qed.

Lemma wf_purge index q : wf q → wf (PurgeIndexedMessages index q).
Proof.
  intros [Ha Hd]. split.
  - intros idx c. rewrite bucket_purge. intros Hc.
    case_decide; [by apply elem_of_nil in Hc | eauto].
  - intros idx idx' c c'. rewrite !bucket_purge. intros Hc Hc'.
    repeat case_decide;
      try (by apply elem_of_nil in Hc); try (by apply elem_of_nil in Hc').
    eauto.
Qed.

Lemma wf_add uuid m q : fresh uuid q → wf q → wf (AddMessage uuid m q).
Proof.
  intros [_ Hf] [Ha Hd]. split.
  - intros idx c Hc. simpl in Hc.
    apply elem_of_bucket_appendToIndexes in Hc as [Hc|[-> Hc]]; [eauto | done].
  - intros idx idx' c c' Hc Hc' Hid. simpl in Hc, Hc'.
    apply elem_of_bucket_appendToIndexes in Hc as [Hc|[-> Hc]];
      apply elem_of_bucket_appendToIndexes in Hc' as [Hc'|[-> Hc']].
    + eauto.
    + exfalso. by apply (Hf _ _ Hc).
    + exfalso. by apply (Hf _ _ Hc').
    + done.
Qed.

Lemma reachable_wf b q : reachable b q → wf q.
Proof.
  induction 1 as [standard | q o _ IH Hok _].
  - apply wf_New.
  - destruct o; simpl in *.
    + done.
    + by apply wf_add.
    + by apply wf_pop.
    + by apply wf_deleteIds.
    + by apply wf_purge.
Qed.

Lemma synced_New standard : synced (New standard).
Proof.
  split; [|split].
  - intros idx c H. simpl in H. rewrite bucket_empty in H.
    by apply elem_of_nil in H.
  - intros idx c H. simpl in H. rewrite bucket_empty in H.
    by apply elem_of_nil in H.
  - intros i c H. simpl in H. by rewrite lookup_empty in H.
Qed.

Lemma synced_delete c0 q :
  synced q → allMessages q !! id c0 = Some c0 →
  synced (deleteMessageFromAllIndexes (indexes c0) (id c0) q).
Proof.
  intros (Ha & Hb & Hc) H0. split; [|split].
  - intros idx c Hin. apply elem_of_bucket_delete in Hin as [Hin _]. eauto.
  - intros idx c Hin. apply elem_of_bucket_delete in Hin as [Hin Hne].
    rewrite allMessages_delete, lookup_delete_ne; [eauto|].
    intros E. apply Hne; [|done].
    pose proof (Hb _ _ Hin) as Hl. rewrite <- E, H0 in Hl.
    injection Hl as ->. eauto.
  - intros i c H. rewrite allMessages_delete in H.
    apply lookup_delete_Some in H as [Hne H].
    apply Hc in H as [<- H]. split; [done|].
    intros idx Hidx. apply elem_of_bucket_delete. split; eauto.
Qed.

Lemma synced_pop index q : synced q → synced (snd (PopMessage index q)).
Proof.
  intros H. unfold PopMessage.
  destruct (bucket (queue q) index) as [|c l] eqn:E; simpl; [done|].
  apply synced_delete; [done|].
  destruct H as (_ & Hb & _). apply (Hb index). rewrite E. left.
Qed.

Lemma synced_deleteIds ids q : synced q → synced (DeleteMessagesWithIds ids q).
Proof.
  unfold DeleteMessagesWithIds. revert q.
  induction ids as [|i ids IH]; intros q H; simpl; [done|].
  apply IH. destruct (allMessages q !! i) as [m|] eqn:E; [|done].
  assert (id m = i) as <- by (destruct H as (_ & _ & Hc); by apply Hc in E as [? _]).
  by apply synced_delete.
Qed.

Lemma synced_add uuid m q : fresh uuid q → synced q → synced (AddMessage uuid m q).
Proof.
  intros [Hf _] (Ha & Hb & Hc). split; [|split].
  - intros idx c Hin. simpl in Hin.
    apply elem_of_bucket_appendToIndexes in Hin as [Hin|[-> Hin]]; [eauto | done].
  - intros idx c Hin. simpl in Hin |- *.
    apply elem_of_bucket_appendToIndexes in Hin as [Hin|[-> Hin]].
    + rewrite lookup_insert_ne; [eauto|].
      intros E. apply Hb in Hin. rewrite <- E in Hin. congruence.
    + by rewrite lookup_insert_eq.
  - intros i c H. simpl in H.
    apply lookup_insert_Some in H as [[<- <-]|[_ H]].
    + split; [done|]. intros idx Hidx. simpl.
      apply elem_of_bucket_appendToIndexes. by right.
    + apply Hc in H as [Hi H]. split; [done|].
      intros idx Hidx. simpl. apply elem_of_bucket_appendToIndexes.
      left. eauto.
Qed.

Lemma reachable_synced q : reachable false q → synced q.
Proof.
  induction 1 as [standard | q o _ IH Hok Hp].
  - apply synced_New.
  - destruct o; simpl in *.
    + done.
    + by apply synced_add.
    + by apply synced_pop.
    + by apply synced_deleteIds.
    + by specialize (Hp eq_refl).
Qed.

(** *** Reading a bucket *)

Lemma MessagesForIndex_fold (c : messageContainer) l (acc : gmap string Message) :
  (∀ c', c' ∈ l → id c' = id c → c' = c) →
  c ∈ l ∨ acc !! id c = Some (msg c) →
  foldl (λ ret cont, <[id cont := msg cont]> ret) acc l !! id c = Some (msg c).
Proof.
  revert acc. induction l as [|a l IH]; intros acc Hu Hc; simpl.
  - destruct Hc as [Hc|Hc]; [by apply elem_of_nil in Hc | done].
  - apply IH; [intros c' Hc'; apply Hu; by right|].
    destruct (decide (id a = id c)) as [E|NE].
    + right. rewrite E, lookup_insert_eq.
      by rewrite (Hu a (list_elem_of_here _ _) E).
    + rewrite lookup_insert_ne by done.
      destruct Hc as [Hc|Hc]; [|by right].
      apply elem_of_cons in Hc as [->|Hc]; [done | by left].
Qed.

Lemma MessagesForIndex_lookup q index c :
  ids_unique q → c ∈ bucket (queue q) index →
  MessagesForIndex index q !! id c = Some (msg c).
Proof.
  intros Hd Hc. unfold MessagesForIndex.
  apply MessagesForIndex_fold; [|by left].
  intros c' Hc' E. by apply (Hd index index).
Qed.

(** Repeated pops of one index reach every container of its bucket. *)
Lemma pops_reach (n : nat) : ∀ q index c,
  wf q → c ∈ bucket (queue q) index →
  (length (bucket (queue q) index) ≤ n)%nat →
  ∃ k, (k < n)%nat ∧
       head (bucket (queue (pops k index q)) index) = Some c ∧
       fst (PopMessage index (pops k index q)) = Some (msg c).
Proof.
  induction n as [|n IH]; intros q index c Hwf Hc Hlen.
  - destruct (bucket (queue q) index); [by apply elem_of_nil in Hc | simpl in Hlen; lia].
  - destruct (bucket (queue q) index) as [|h t] eqn:E;
      [by apply elem_of_nil in Hc|].
    assert (Hh : h ∈ bucket (queue q) index) by (rewrite E; left).
    rewrite <- E in Hc.
    destruct (decide (id h = id c)) as [Heq|Hid].
    + assert (h = c) as -> by (destruct Hwf as [_ Hd]; by apply (Hd index index)).
      exists O. split; [lia|]. simpl. unfold PopMessage. by rewrite E.
    + assert (Hidx : index ∈ indexes h) by (destruct Hwf as [Ha _]; eauto).
      destruct (IH (snd (PopMessage index q)) index c) as (k & Hk & Hpop).
      * by apply wf_pop.
      * unfold PopMessage. rewrite E. cbn [snd].
        apply elem_of_bucket_delete. split; [done | intros _; congruence].
      * unfold PopMessage. rewrite E. cbn [snd].
        rewrite bucket_delete, decide_True by done.
        rewrite E. unfold removeId. rewrite filter_cons, decide_False by (by intros ?).
        pose proof (length_filter (λ c0, id c0 ≠ id h) t). simpl in Hlen. lia.
      * exists (S k). split; [lia | done].
Qed.

(** *** Presence of an identifier *)

Definition in_lookup (q : MessageQueue) (i : string) : Prop :=
  is_Some (allMessages q !! i).

Definition in_some_bucket (q : MessageQueue) (i : string) : Prop :=
  ∃ idx c, c ∈ bucket (queue q) idx ∧ id c = i.

(** *** The properties of the broker *)

(** C1. In a broker reached by any operations, let container [c] sit in the
    bucket of [j] and let [i] be another index. After
    [PurgeIndexedMessages i] the bucket of [i] is empty, no other bucket and
    no entry of the id lookup has changed, [MessagesForIndex j] still maps
    the identifier of [c] to its message, and after some number of
    [PopMessage j] calls [c] is at the head of the bucket of [j] and the
    next [PopMessage j] returns its message. *)
Theorem purge_leaves_other_indexes (q : MessageQueue) (c : messageContainer)
    (i j : string) :
  reachable true q → i ≠ j → c ∈ bucket (queue q) j →
  bucket (queue (PurgeIndexedMessages i q)) i = [] ∧
  (∀ k, k ≠ i → queue (PurgeIndexedMessages i q) !! k = queue q !! k) ∧
  allMessages (PurgeIndexedMessages i q) = allMessages q ∧
  MessagesForIndex j (PurgeIndexedMessages i q) !! id c = Some (msg c) ∧
  ∃ n,
    head (bucket (queue (pops n j (PurgeIndexedMessages i q))) j) = Some c ∧
    fst (PopMessage j (pops n j (PurgeIndexedMessages i q))) = Some (msg c).
Proof.
  intros Hr Hij Hc.
  assert (Hwf : wf (PurgeIndexedMessages i q))
    by (apply wf_purge; eapply reachable_wf; eauto).
  assert (Hc' : c ∈ bucket (queue (PurgeIndexedMessages i q)) j)
    by (rewrite bucket_purge, decide_False; done).
  split; [by rewrite bucket_purge, decide_True|].
  split; [intros k Hk; simpl; by rewrite lookup_insert_ne|].
  split; [done|].
  split; [apply MessagesForIndex_lookup; [apply Hwf | done]|].
  destruct (pops_reach _ _ _ _ Hwf Hc' (Nat.le_refl _)) as (n & _ & Hn).
  by exists n.
Qed.

(** C2. [PopMessage index] returns nothing, and changes nothing, when the
    bucket of [index] is empty; otherwise it returns the message at the head
    of the bucket, after which no bucket named in that container's index
    list holds its identifier, the id lookup has no entry for it, and every
    bucket keeps its remaining containers in their order. The head is the
    oldest: whatever operation runs, the containers that stay in a bucket
    keep their order and added ones are placed behind them. In a broker
    reached without purges the bucket of [index] holds exactly the
    containers of the id lookup whose index list names [index]. *)
Theorem PopMessage_oldest_first (q : MessageQueue) (index : string) :
  (bucket (queue q) index = [] → PopMessage index q = (None, q)) ∧
  (∀ c rest, bucket (queue q) index = c :: rest →
     fst (PopMessage index q) = Some (msg c) ∧
     (∀ k c', k ∈ indexes c →
              c' ∈ bucket (queue (snd (PopMessage index q))) k → id c' ≠ id c) ∧
     allMessages (snd (PopMessage index q)) !! id c = None ∧
     (∀ k, bucket (queue (snd (PopMessage index q))) k
             `sublist_of` bucket (queue q) k)) ∧
  (∀ o, ∃ kept new,
     bucket (queue (run_op o q)) index = kept ++ new ∧
     kept `sublist_of` bucket (queue q) index ∧
     ∀ c, c ∈ new → o = OpAdd (id c) (msg c)) ∧
  (reachable false q →
   ∀ c, c ∈ bucket (queue q) index
        ↔ allMessages q !! id c = Some c ∧ index ∈ indexes c).
Proof.
  split; [|split; [|split]]; cycle 3.
  { intros Hr c. apply reachable_synced in Hr as (Ha & Hb & Hc). split.
    - intros Hin. split; [by apply (Hb index) | by apply Ha].
    - intros [Hl Hidx]. apply Hc in Hl as [_ Hl]. by apply Hl. }
  - intros E. unfold PopMessage. by rewrite E.
  - intros c rest E. unfold PopMessage. rewrite E. cbn [fst snd].
    split; [done|]. split; [|split].
    + intros k c' Hk Hc'. apply elem_of_bucket_delete in Hc' as [_ Hc']. eauto.
    + rewrite allMessages_delete. apply lookup_delete_eq.
    + intros k. apply bucket_delete_sublist.
  - intros o. destruct o as [f|uuid m|ix|ids|ix]; cbn [run_op].
    + exists (bucket (queue q) index), []. rewrite app_nil_r.
      split; [done|]. split; [done|]. intros c Hc. by apply elem_of_nil in Hc.
    + eexists _, _. split; [apply bucket_add|]. split; [done|].
      intros c Hc. by apply elem_of_replicate_inv in Hc as ->.
    + eexists _, []. rewrite app_nil_r. split; [done|].
      split; [apply bucket_pop_sublist|]. intros c Hc. by apply elem_of_nil in Hc.
    + eexists _, []. rewrite app_nil_r. split; [done|].
      split; [apply bucket_deleteIds_sublist|].
      intros c Hc. by apply elem_of_nil in Hc.
    + eexists _, []. rewrite app_nil_r. split; [done|].
      split; [|intros c Hc; by apply elem_of_nil in Hc].
      rewrite bucket_purge. case_decide; [apply sublist_nil_l | done].
Qed.

(** C3, as amended. In a broker reached without purges an identifier is in
    some bucket exactly when the id lookup holds it with a non-empty index
    list. *)
Theorem lookup_matches_buckets (q : MessageQueue) (i : string) :
  reachable false q →
  (in_some_bucket q i ↔ ∃ c, allMessages q !! i = Some c ∧ indexes c ≠ []).
Proof.
  intros Hr. apply reachable_synced in Hr as (Ha & Hb & Hc). split.
  - intros (idx & c & Hin & <-). exists c. split; [eauto|].
    apply Ha in Hin. intros E. rewrite E in Hin. by apply elem_of_nil in Hin.
  - intros (c & Hl & Hne). apply Hc in Hl as [Hid Hl].
    destruct (indexes c) as [|idx ixs] eqn:E; [done|].
    exists idx, c. split; [apply Hl; left | done].
Qed.

End Queue.

Arguments IndexFunc : clear implicits.
Arguments messageContainer : clear implicits.
Arguments MessageQueue : clear implicits.
Arguments op : clear implicits.

(** *** A broker over numbered messages

    Message [0] stands for a message no index function has a key for; every
    other message is a change-round message of instance [L], sequence [1],
    round [2]. *)

Definition specificIndex : IndexFunc nat :=
  λ m, match m with O => [] | _ => ["ibft/L/1/2/CR"%string] end.

Definition allRoundChangeIndex : IndexFunc nat :=
  λ m, match m with O => [] | _ => ["change-round-all/L/1"%string] end.

Definition broker0 : MessageQueue nat := New [specificIndex; allRoundChangeIndex].

Definition broker1 : MessageQueue nat := AddMessage "id-1" 5%nat broker0.

Definition container1 : messageContainer nat :=
  mkContainer "id-1" 5%nat ["ibft/L/1/2/CR"; "change-round-all/L/1"]%string.

Definition broker_unindexed : MessageQueue nat := AddMessage "id-0" 0%nat broker0.

Lemma fresh_New {Message} (standard : list (IndexFunc Message)) uuid :
  fresh uuid (New standard).
Proof.
  split; [done|]. intros idx c H. simpl in H. rewrite bucket_empty in H.
  by apply elem_of_nil in H.
Qed.

Lemma reachable_broker1 b : reachable b broker1.
Proof.
  apply (reach_step b broker0 (OpAdd "id-1" 5%nat));
    [apply reach_new | apply fresh_New | done].
Qed.

Lemma reachable_broker_unindexed b : reachable b broker_unindexed.
Proof.
  apply (reach_step b broker0 (OpAdd "id-0" 0%nat));
    [apply reach_new | apply fresh_New | done].
Qed.

Lemma container1_in_specific :
  container1 ∈ bucket (queue broker1) "ibft/L/1/2/CR".
Proof. vm_compute. left. Qed.

Lemma purge_leaves_other_indexes_witness :
  bucket (queue (PurgeIndexedMessages "change-round-all/L/1" broker1))
         "change-round-all/L/1" = [] ∧
  (∀ k, k ≠ "change-round-all/L/1"%string →
        queue (PurgeIndexedMessages "change-round-all/L/1" broker1) !! k
        = queue broker1 !! k) ∧
  allMessages (PurgeIndexedMessages "change-round-all/L/1" broker1)
  = allMessages broker1 ∧
  MessagesForIndex "ibft/L/1/2/CR"
    (PurgeIndexedMessages "change-round-all/L/1" broker1) !! "id-1"
  = Some 5%nat ∧
  ∃ n,
    head (bucket (queue (pops n "ibft/L/1/2/CR"
                           (PurgeIndexedMessages "change-round-all/L/1" broker1)))
                 "ibft/L/1/2/CR") = Some container1 ∧
    fst (PopMessage "ibft/L/1/2/CR"
           (pops n "ibft/L/1/2/CR"
              (PurgeIndexedMessages "change-round-all/L/1" broker1)))
    = Some 5%nat.
Proof.
  apply (purge_leaves_other_indexes broker1 container1
           "change-round-all/L/1" "ibft/L/1/2/CR").
  - apply reachable_broker1.
  - done.
  - apply container1_in_specific.
Defined.

Example pop_after_purge :
  fst (PopMessage "ibft/L/1/2/CR"
         (PurgeIndexedMessages "change-round-all/L/1" broker1)) = Some 5%nat.
Proof. reflexivity. Qed.

Lemma PopMessage_oldest_first_witness :
  fst (PopMessage "ibft/L/1/2/CR" broker1) = Some 5%nat ∧
  allMessages (snd (PopMessage "ibft/L/1/2/CR" broker1)) !! "id-1" = None.
Proof.
  destruct (PopMessage_oldest_first broker1 "ibft/L/1/2/CR") as (_ & H & _).
  destruct (H container1 [] eq_refl) as (Hm & _ & Hl & _).
  exact (conj Hm Hl).
Defined.

(** C3, as stated, fails: a message for which the index functions give no key
    is put in the id lookup and in no bucket. *)
Lemma unindexed_message_only_in_lookup :
  reachable false broker_unindexed ∧
  in_lookup broker_unindexed "id-0" ∧
  ¬ in_some_bucket broker_unindexed "id-0".
Proof.
  split; [apply reachable_broker_unindexed|]. split.
  - by exists (mkContainer "id-0" 0%nat []).
  - intros (idx & c & Hin & _). simpl in Hin. rewrite bucket_empty in Hin.
    by apply elem_of_nil in Hin.
Qed.

Lemma lookup_matches_buckets_witness :
  in_some_bucket broker1 "id-1"
  ↔ ∃ c, allMessages broker1 !! "id-1" = Some c ∧ indexes c ≠ [].
Proof. apply (lookup_matches_buckets broker1 "id-1"), reachable_broker1. Defined.

(** *** Further properties of the broker *)

Section Broker.

Context {Message : Type}.

Implicit Types (q : MessageQueue Message) (c : messageContainer Message).

(** What every reachable broker satisfies, purged or not: a container sits
    only in buckets of its index list, and is the entry of the id lookup
    under its identifier. *)
Definition sound q : Prop := indexed_here q ∧ buckets_in_lookup q.

Lemma sound_ids_unique q : sound q → ids_unique q.
Proof.
  intros [_ Hb] idx idx' c c' Hc Hc' E.
  apply Hb in Hc, Hc'. rewrite E in Hc. congruence.
Qed.

Lemma sound_wf q : sound q → wf q.
Proof. intros Hs. split; [apply Hs | by apply sound_ids_unique]. Qed.

Lemma sound_New (standard : list (IndexFunc Message)) : sound (New standard).
Proof.
  split; intros idx c Hc; simpl in Hc; rewrite bucket_empty in Hc;
    by apply elem_of_nil in Hc.
Qed.

Lemma sound_delete q i m :
  sound q → allMessages q !! i = Some m →
  sound (deleteMessageFromAllIndexes (indexes m) i q).
Proof.
  intros [Ha Hb] Hm. split.
  - intros idx c Hc. apply elem_of_bucket_delete in Hc as [Hc _]. eauto.
  - intros idx c Hc. apply elem_of_bucket_delete in Hc as [Hc Hne].
    rewrite allMessages_delete, lookup_delete_ne; [eauto|].
    intros E. apply Hne; [|done].
    pose proof (Hb _ _ Hc) as Hl. rewrite <- E, Hm in Hl.
    injection Hl as ->. eauto.
Qed.

Lemma sound_pop index q : sound q → sound (snd (PopMessage index q)).
Proof.
  intros Hs. unfold PopMessage.
  destruct (bucket (queue q) index) as [|c l] eqn:E; simpl; [done|].
  apply sound_delete; [done|].
  destruct Hs as [_ Hb]. apply (Hb index). rewrite E. left.
Qed.

Lemma sound_delete_step q i :
  sound q →
  sound (match allMessages q !! i with
         | Some m => deleteMessageFromAllIndexes (indexes m) i q
         | None => q
         end).
Proof.
  intros Hs. destruct (allMessages q !! i) as [m|] eqn:E; [|done].
  by apply sound_delete.
Qed.

Lemma sound_deleteIds ids q : sound q → sound (DeleteMessagesWithIds ids q).
Proof.
  unfold DeleteMessagesWithIds. revert q.
  induction ids as [|i ids IH]; intros q Hs; simpl; [done|].
  by apply IH, sound_delete_step.
Qed.

Lemma sound_purge index q : sound q → sound (PurgeIndexedMessages index q).
Proof.
  intros [Ha Hb]. split; intros idx c; rewrite bucket_purge; intros Hc;
    (case_decide; [by apply elem_of_nil in Hc|]); [eauto | by apply Hb in Hc].
Qed.

Lemma sound_add uuid m q : fresh uuid q → sound q → sound (AddMessage uuid m q).
Proof.
  intros [_ Hf] [Ha Hb]. split.
  - intros idx c Hc. simpl in Hc.
    apply elem_of_bucket_appendToIndexes in Hc as [Hc|[-> Hc]]; [eauto | done].
  - intros idx c Hc. simpl in Hc |- *.
    apply elem_of_bucket_appendToIndexes in Hc as [Hc|[-> Hc]].
    + rewrite lookup_insert_ne; [eauto|]. intros E. by apply (Hf _ _ Hc).
    + by rewrite lookup_insert_eq.
Qed.

Lemma reachable_sound b q : reachable b q → sound q.
Proof.
  induction 1 as [standard | q o _ IH Hok _].
  - apply sound_New.
  - destruct o; simpl in *.
    + done.
    + by apply sound_add.
    + by apply sound_pop.
    + by apply sound_deleteIds.
    + by apply sound_purge.
Qed.

Lemma filter_keeps_all {A} (P : A → Prop) `{∀ x, Decision (P x)} (l : list A) :
  (∀ x, x ∈ l → P x) → filter P l = l.
Proof.
  induction l as [|a l IH]; intros Hl; [done|].
  rewrite filter_cons, decide_True by (apply Hl; left).
  f_equal. apply IH. intros x Hx. apply Hl. by right.
Qed.

Lemma filter_drops_all {A} (P : A → Prop) `{∀ x, Decision (P x)} (l : list A) :
  (∀ x, x ∈ l → ¬ P x) → filter P l = [].
Proof.
  induction l as [|a l IH]; intros Hl; [done|].
  rewrite filter_cons, decide_False by (apply Hl; left).
  apply IH. intros x Hx. apply Hl. by right.
Qed.

Lemma removeId_absent i (l : list (messageContainer Message)) :
  (∀ c, c ∈ l → id c ≠ i) → removeId i l = l.
Proof.
  unfold removeId. induction l as [|a l IH]; intros Hl; [done|].
  rewrite filter_cons, decide_True by (apply Hl; left).
  f_equal. apply IH. intros c Hc. apply Hl. by right.
Qed.

(** In a sound broker one step of [DeleteMessagesWithIds] clears the
    identifier from every bucket, also from those the index list of the
    looked-up container does not name. *)
Lemma bucket_delete_step q i idx :
  sound q →
  bucket (queue (match allMessages q !! i with
                 | Some m => deleteMessageFromAllIndexes (indexes m) i q
                 | None => q
                 end)) idx
  = removeId i (bucket (queue q) idx).
Proof.
  intros [Ha Hb]. destruct (allMessages q !! i) as [m|] eqn:E.
  - rewrite bucket_delete. case_decide as Hin; [done|].
    symmetry. apply removeId_absent. intros c Hc Hid.
    pose proof (Hb _ _ Hc) as Hl. rewrite Hid, E in Hl. injection Hl as ->.
    apply Hin. eauto.
  - symmetry. apply removeId_absent. intros c Hc Hid.
    apply Hb in Hc. rewrite Hid in Hc. congruence.
Qed.

Lemma allMessages_delete_step q i :
  allMessages (match allMessages q !! i with
               | Some m => deleteMessageFromAllIndexes (indexes m) i q
               | None => q
               end)
  = delete i (allMessages q).
Proof.
  destruct (allMessages q !! i) as [m|] eqn:E; [done|].
  symmetry. by apply delete_id.
Qed.

Lemma MessagesForIndex_fold_inv (l : list (messageContainer Message))
    (acc : gmap string Message) i m :
  foldl (λ ret cont, <[id cont := msg cont]> ret) acc l !! i = Some m →
  (∃ c, c ∈ l ∧ id c = i ∧ msg c = m) ∨ acc !! i = Some m.
Proof.
  revert acc. induction l as [|a l IH]; intros acc Hl; simpl in Hl; [by right|].
  apply IH in Hl as [(c & Hc & Hid & Hm)|Hl].
  - left. exists c. split; [by right | done].
  - apply lookup_insert_Some in Hl as [[Hid Hm]|[_ Hl]]; [|by right].
    left. exists a. split; [left | done].
Qed.

Lemma key_kept_foldl (f : gmap string (list (messageContainer Message)) →
                          string → list (messageContainer Message))
    ixs qu k :
  is_Some (qu !! k) →
  is_Some (foldl (λ acc idx, <[idx := f acc idx]> acc) qu ixs !! k).
Proof.
  revert qu. induction ixs as [|idx ixs IH]; intros qu Hk; simpl; [done|].
  apply IH. rewrite lookup_insert_is_Some.
  destruct (decide (idx = k)); [by left | by right].
Qed.

Lemma key_kept_delete ixs i q k :
  is_Some (queue q !! k) →
  is_Some (queue (deleteMessageFromAllIndexes ixs i q) !! k).
Proof.
  apply (key_kept_foldl (λ acc indx, removeId i (bucket acc indx))).
Qed.

Lemma key_kept o q k :
  is_Some (queue q !! k) → is_Some (queue (run_op o q) !! k).
Proof.
  intros Hk. destruct o as [f|uuid m|index|ids|index]; cbn [run_op].
  - done.
  - by apply (key_kept_foldl (λ acc idx, bucket acc idx ++ [_])).
  - unfold PopMessage. destruct (bucket (queue q) index); cbn [snd]; [done|].
    by apply key_kept_delete.
  - unfold DeleteMessagesWithIds. revert q Hk.
    induction ids as [|i ids IH]; intros q Hk; simpl; [done|].
    apply IH. destruct (allMessages q !! i); [by apply key_kept_delete | done].
  - simpl. rewrite lookup_insert_is_Some.
    destruct (decide (index = k)); [by left | by right].
Qed.

Lemma pop_shrinks_bucket b q index :
  reachable b q → bucket (queue q) index ≠ [] →
  (MsgCount index (snd (PopMessage index q)) < MsgCount index q)%nat.
Proof.
  intros Hr Hne. apply reachable_sound in Hr as [Ha _].
  unfold MsgCount, PopMessage.
  destruct (bucket (queue q) index) as [|c rest] eqn:E; [done|]. cbn [snd].
  assert (Hidx : index ∈ indexes c) by (apply Ha; rewrite E; left).
  rewrite bucket_delete, decide_True, E by done.
  unfold removeId. rewrite filter_cons, decide_False by (by intros ?).
  pose proof (length_filter (λ c0, id c0 ≠ id c) rest). simpl. lia.
Qed.

Lemma pops_drain b index (n : nat) : ∀ q,
  reachable b q → (MsgCount index q ≤ n)%nat →
  bucket (queue (pops n index q)) index = [].
Proof.
  induction n as [|n IH]; intros q Hr Hn; simpl.
  - unfold MsgCount in Hn. destruct (bucket (queue q) index); [done|].
    simpl in Hn. lia.
  - apply IH.
    + by apply (reach_step b q (OpPop index)).
    + destruct (bucket (queue q) index) as [|c rest] eqn:E.
      * unfold PopMessage. rewrite E. cbn [snd]. unfold MsgCount. rewrite E.
        simpl. lia.
      * pose proof (pop_shrinks_bucket b q index Hr) as Hs.
        rewrite E in Hs. specialize (Hs ltac:(done)). lia.
Qed.

(** X1. In a broker reached by any operations, purges included, the
    message [PopMessage] returns is delivered once: its container is gone
    from every bucket, whether its index list names the bucket or not, and
    from the id lookup. *)
Theorem popped_is_gone (b : bool) q (index : string) c rest :
  reachable b q → bucket (queue q) index = c :: rest →
  fst (PopMessage index q) = Some (msg c) ∧
  (∀ k c', c' ∈ bucket (queue (snd (PopMessage index q))) k → id c' ≠ id c) ∧
  allMessages (snd (PopMessage index q)) !! id c = None.
Proof.
  intros Hr E. pose proof (reachable_sound _ _ Hr) as Hs.
  pose proof (sound_ids_unique _ Hs) as Hu. destruct Hs as [Ha Hb].
  assert (Hc : c ∈ bucket (queue q) index) by (rewrite E; left).
  unfold PopMessage. rewrite E. cbn [fst snd]. split; [done|]. split.
  - intros k c' Hc' Hid. apply elem_of_bucket_delete in Hc' as [Hc' Hne].
    assert (c' = c) as -> by (by apply (Hu k index)).
    apply Hne; [eauto | done].
  - rewrite allMessages_delete. apply lookup_delete_eq.
Qed.

(** X2. In a broker reached by any operations every [PopMessage] on a
    non-empty bucket makes that bucket shorter, and popping an index as
    many times as [MsgCount] says leaves its bucket empty. *)
Theorem pop_drains_bucket (b : bool) q (index : string) :
  reachable b q →
  (bucket (queue q) index ≠ [] →
   (MsgCount index (snd (PopMessage index q)) < MsgCount index q)%nat) ∧
  MsgCount index (pops (MsgCount index q) index q) = 0%nat ∧
  fst (PopMessage index (pops (MsgCount index q) index q)) = None.
Proof.
  intros Hr. split; [by apply (pop_shrinks_bucket b)|].
  pose proof (pops_drain b index _ q Hr (Nat.le_refl _)) as E.
  unfold MsgCount at 1. unfold PopMessage. by rewrite E.
Qed.

(** X3. In a broker reached by any operations [DeleteMessagesWithIds]
    removes exactly the containers whose identifier is listed, from every
    bucket and from the id lookup; the other containers keep their places
    and identifiers the broker does not hold are passed over. *)
Theorem DeleteMessagesWithIds_removes (b : bool) q (ids : list string) :
  reachable b q →
  (∀ idx, bucket (queue (DeleteMessagesWithIds ids q)) idx
          = filter (λ c, id c ∉ ids) (bucket (queue q) idx)) ∧
  (∀ i, allMessages (DeleteMessagesWithIds ids q) !! i
        = if decide (i ∈ ids) then None else allMessages q !! i).
Proof.
  intros Hr. apply reachable_sound in Hr. revert q Hr.
  unfold DeleteMessagesWithIds.
  induction ids as [|i ids IH]; intros q Hs; cbn [foldl].
  - split.
    + intros idx. symmetry. apply filter_keeps_all.
      intros c _. apply not_elem_of_nil.
    + intros i. rewrite decide_False; [done | apply not_elem_of_nil].
  - destruct (IH _ (sound_delete_step q i Hs)) as [IHb IHl]. split.
    + intros idx. rewrite IHb, bucket_delete_step by done.
      unfold removeId. rewrite list_filter_filter.
      apply list_filter_iff. intros c. rewrite not_elem_of_cons. tauto.
    + intros i'. rewrite IHl, allMessages_delete_step.
      destruct (decide (i' = i)) as [->|Hne].
      * rewrite (decide_True (P := i ∈ i :: ids)) by left.
        rewrite lookup_delete_eq. by case_decide.
      * rewrite lookup_delete_ne by done.
        destruct (decide (i' ∈ ids)) as [Hin|Hnin].
        -- by rewrite decide_True by (by right).
        -- rewrite decide_False; [done|].
           intros H. apply elem_of_cons in H as [H|H]; done.
Qed.

(** X4. No operation removes a key of the bucket map: a bucket that was
    emptied stays as an empty bucket, and [Len], the number of keys, never
    decreases. *)
Theorem Len_never_decreases (o : op Message) q :
  (∀ k, is_Some (queue q !! k) → is_Some (queue (run_op o q) !! k)) ∧
  (Len q ≤ Len (run_op o q))%nat.
Proof.
  split; [intros k; apply key_kept|].
  unfold Len. rewrite <- !size_dom. apply subseteq_size.
  intros k. rewrite !elem_of_dom. apply key_kept.
Qed.

(** X5. In a broker reached by any operations [MessagesForIndex] returns
    the messages of the bucket and nothing else: it maps an identifier to
    a message exactly when the bucket holds a container with that
    identifier and that message. *)
Theorem MessagesForIndex_exact (b : bool) q (index i : string) (m : Message) :
  reachable b q →
  (MessagesForIndex index q !! i = Some m
   ↔ ∃ c, c ∈ bucket (queue q) index ∧ id c = i ∧ msg c = m).
Proof.
  intros Hr. apply reachable_sound, sound_ids_unique in Hr. split.
  - intros Hl. apply MessagesForIndex_fold_inv in Hl as [Hl|Hl]; [done|].
    by rewrite lookup_empty in Hl.
  - intros (c & Hc & <- & <-). by apply MessagesForIndex_lookup.
Qed.

(** X6. Adding a message under a fresh identifier to a broker whose
    bucket of [index] is empty, [index] being one of the message's keys,
    and popping [index] right away returns that message and leaves every
    bucket and the id lookup as they were before the message was added. *)
Theorem add_then_pop_restores q (uuid index : string) (m : Message) :
  fresh uuid q → bucket (queue q) index = [] →
  index ∈ computeIndexes (indexFuncs q) m →
  fst (PopMessage index (AddMessage uuid m q)) = Some m ∧
  (∀ idx, bucket (queue (snd (PopMessage index (AddMessage uuid m q)))) idx
          = bucket (queue q) idx) ∧
  allMessages (snd (PopMessage index (AddMessage uuid m q))) = allMessages q.
Proof.
  intros [Hl Hf] He Hidx.
  set (c := mkContainer uuid m (computeIndexes (indexFuncs q) m)).
  assert (Hhead : ∃ rest, bucket (queue (AddMessage uuid m q)) index = c :: rest).
  { rewrite bucket_add, He. cbn [indexes app].
    destruct (filter (λ k, k = index) (computeIndexes (indexFuncs q) m))
      as [|k l] eqn:E; [|by eexists].
    assert (Hk : index ∈ filter (λ k, k = index) (computeIndexes (indexFuncs q) m))
      by (by apply list_elem_of_filter).
    rewrite E in Hk. by apply elem_of_nil in Hk. }
  destruct Hhead as [rest Hhead]. unfold PopMessage. rewrite Hhead.
  cbn [fst snd msg id indexes c]. split; [done|]. split.
  - intros idx. rewrite bucket_delete, bucket_add. cbn [indexes].
    fold c. case_decide as Hin.
    + unfold removeId. rewrite filter_app.
      fold (removeId uuid (bucket (queue q) idx)).
      rewrite removeId_absent by (intros c' Hc'; by apply (Hf idx)).
      rewrite (filter_drops_all (λ c0, id c0 ≠ uuid)); [by rewrite app_nil_r|].
      intros c' Hc' Hne. by apply elem_of_replicate_inv in Hc' as ->.
    + assert (filter (λ k, k = idx) (computeIndexes (indexFuncs q) m) = []) as ->.
      { apply filter_drops_all. by intros k Hk ->. }
      by rewrite app_nil_r.
  - rewrite allMessages_delete. cbn [AddMessage allMessages id].
    by rewrite delete_insert_eq, delete_id.
Qed.

End Broker.

Lemma popped_is_gone_witness :
  fst (PopMessage "ibft/L/1/2/CR" broker1) = Some 5%nat ∧
  (∀ k c', c' ∈ bucket (queue (snd (PopMessage "ibft/L/1/2/CR" broker1))) k →
           id c' ≠ "id-1"%string) ∧
  allMessages (snd (PopMessage "ibft/L/1/2/CR" broker1)) !! "id-1" = None.
Proof.
  apply (popped_is_gone true broker1 "ibft/L/1/2/CR" container1 []).
  - apply reachable_broker1.
  - reflexivity.
Defined.

Lemma pop_drains_bucket_witness :
  MsgCount "ibft/L/1/2/CR" (pops (MsgCount "ibft/L/1/2/CR" broker1)
                              "ibft/L/1/2/CR" broker1) = 0%nat.
Proof.
  apply (pop_drains_bucket true broker1 "ibft/L/1/2/CR"), reachable_broker1.
Defined.

Lemma DeleteMessagesWithIds_removes_witness :
  bucket (queue (DeleteMessagesWithIds ["id-9"; "id-1"] broker1))
         "change-round-all/L/1"
  = filter (λ c, id c ∉ ["id-9"; "id-1"]%string)
           (bucket (queue broker1) "change-round-all/L/1").
Proof.
  apply (DeleteMessagesWithIds_removes true broker1 ["id-9"; "id-1"]%string),
    reachable_broker1.
Defined.

Lemma MessagesForIndex_exact_witness :
  MessagesForIndex "ibft/L/1/2/CR" broker1 !! "id-1" = Some 5%nat
  ↔ ∃ c, c ∈ bucket (queue broker1) "ibft/L/1/2/CR" ∧
         id c = "id-1"%string ∧ msg c = 5%nat.
Proof.
  apply (MessagesForIndex_exact true broker1 "ibft/L/1/2/CR" "id-1" 5%nat),
    reachable_broker1.
Defined.

Lemma add_then_pop_restores_witness :
  fst (PopMessage "ibft/L/1/2/CR" (AddMessage "id-1" 5%nat broker0)) = Some 5%nat ∧
  (∀ idx,
     bucket (queue (snd (PopMessage "ibft/L/1/2/CR"
                           (AddMessage "id-1" 5%nat broker0)))) idx
     = bucket (queue broker0) idx) ∧
  allMessages (snd (PopMessage "ibft/L/1/2/CR" (AddMessage "id-1" 5%nat broker0)))
  = allMessages broker0.
Proof.
  apply (add_then_pop_restores broker0 "id-1" "ibft/L/1/2/CR" 5%nat).
  - apply fresh_New.
  - reflexivity.
  - vm_compute. left.
Defined.

End MsgQueue.

(** ** The message broker, cache based draft

    The second draft keeps the buckets and the id lookup in two [go-cache]
    stores instead of two maps. An entry of such a store expires ten minutes
    after it was last set; the model covers a stretch of time in which no
    entry expires, so that a store is a finite map. Only values of one type
    are stored under each store, so the type assertions succeed. *)

Module MsgQueueCache.

Section Queue.

Context {Message : Type}.

#[local] Abbreviation messageContainer := (MsgQueue.messageContainer Message).
#[local] Abbreviation bucket := MsgQueue.bucket.

(** [queue] and [allMessages] are allocated by [New] and never written. *)
Record MessageQueue : Type := mkQueue {
  indexFuncs : list (MsgQueue.IndexFunc Message);
  queue : gmap string (list messageContainer);
  q : gmap string (list messageContainer);
  msgs : gmap string messageContainer;
  allMessages : gmap string messageContainer
}.

Definition New (standard : list (MsgQueue.IndexFunc Message)) : MessageQueue :=
  {| indexFuncs := standard; queue := ∅; q := ∅; msgs := ∅; allMessages := ∅ |}.

Definition AddIndexFunc (f : MsgQueue.IndexFunc Message) (mq : MessageQueue)
  : MessageQueue :=
  {| indexFuncs := indexFuncs mq ++ [f]; queue := queue mq; q := q mq;
     msgs := msgs mq; allMessages := allMessages mq |}.

(** The second loop of [AddMessage]: [q.q.Get], [append], [q.q.SetDefault]. *)
Definition appendToIndexes (c : messageContainer) (ixs : list string)
    (cache : gmap string (list messageContainer))
  : gmap string (list messageContainer) :=
  foldl (λ acc idx,
           let held := match acc !! idx with Some raw => raw | None => [] end in
           <[idx := held ++ [c]]> acc) cache ixs.

Definition AddMessage (uuid : string) (m : Message) (mq : MessageQueue)
  : MessageQueue :=
  let ixs := MsgQueue.computeIndexes (indexFuncs mq) m in
  let msgContainer := MsgQueue.mkContainer uuid m ixs in
  {| indexFuncs := indexFuncs mq; queue := queue mq;
     q := appendToIndexes msgContainer ixs (q mq);
     msgs := <[MsgQueue.id msgContainer := msgContainer]> (msgs mq);
     allMessages := allMessages mq |}.

Definition MessagesForIndex (index : string) (mq : MessageQueue)
  : gmap string Message :=
  match q mq !! index with
  | Some msgContainers =>
      foldl (λ ret cont, <[MsgQueue.id cont := MsgQueue.msg cont]> ret) ∅ msgContainers
  | None => ∅
  end.

(** A bucket is rewritten only if the store holds its key. *)
Definition deleteMessageFromAllIndexes (ixs : list string) (i : string)
    (mq : MessageQueue) : MessageQueue :=
  {| indexFuncs := indexFuncs mq; queue := queue mq;
     q := foldl (λ acc indx,
                   match acc !! indx with
                   | Some msgContainers =>
                       <[indx := MsgQueue.removeId i msgContainers]> acc
                   | None => acc
                   end) (q mq) ixs;
     msgs := delete i (msgs mq);
     allMessages := allMessages mq |}.

Definition PopMessage (index : string) (mq : MessageQueue)
  : option Message * MessageQueue :=
  match q mq !! index with
  | Some (c :: _) =>
      (Some (MsgQueue.msg c),
       deleteMessageFromAllIndexes (MsgQueue.indexes c) (MsgQueue.id c) mq)
  | _ => (None, mq)
  end.

Definition MsgCount (index : string) (mq : MessageQueue) : nat :=
  match q mq !! index with
  | Some msgContainers => length msgContainers
  | None => 0
  end.

Definition Len (mq : MessageQueue) : nat := size (q mq).

Definition DeleteMessagesWithIds (ids : list string) (mq : MessageQueue)
  : MessageQueue :=
  foldl (λ acc i,
           match msgs acc !! i with
           | Some m => deleteMessageFromAllIndexes (MsgQueue.indexes m) i acc
           | None => acc
           end) mq ids.

Definition PurgeIndexedMessages (index : string) (mq : MessageQueue)
  : MessageQueue :=
  {| indexFuncs := indexFuncs mq; queue := queue mq;
     q := <[index := []]> (q mq);
     msgs := msgs mq; allMessages := allMessages mq |}.

Definition run_op (o : MsgQueue.op Message) (mq : MessageQueue) : MessageQueue :=
  match o with
  | MsgQueue.OpAddIndexFunc f => AddIndexFunc f mq
  | MsgQueue.OpAdd uuid m => AddMessage uuid m mq
  | MsgQueue.OpPop index => snd (PopMessage index mq)
  | MsgQueue.OpDelete ids => DeleteMessagesWithIds ids mq
  | MsgQueue.OpPurge index => PurgeIndexedMessages index mq
  end.

(** *** The two drafts show the same buckets *)

(** The cache based broker read as a map based one. *)
Definition view (mq : MessageQueue) : MsgQueue.MessageQueue Message :=
  MsgQueue.mkQueue (indexFuncs mq) (q mq) (msgs mq).

(** Same index functions, same bucket under every index, same id lookup;
    the sets of keys that hold an empty bucket may differ. *)
Definition same_buckets (a b : MsgQueue.MessageQueue Message) : Prop :=
  MsgQueue.indexFuncs a = MsgQueue.indexFuncs b ∧
  (∀ idx, bucket (MsgQueue.queue a) idx = bucket (MsgQueue.queue b) idx) ∧
  MsgQueue.allMessages a = MsgQueue.allMessages b.

Lemma same_buckets_refl a : same_buckets a a.
Proof. done. Qed.

Lemma same_buckets_trans a b c :
  same_buckets a b → same_buckets b c → same_buckets a c.
Proof.
  intros (Hf & Hb & Hl) (Hf' & Hb' & Hl'). split; [congruence|].
  split; [|congruence]. intros idx. by rewrite Hb.
Qed.

Lemma appendToIndexes_view c ixs cache :
  appendToIndexes c ixs cache = MsgQueue.appendToIndexes c ixs cache.
Proof.
  unfold appendToIndexes, MsgQueue.appendToIndexes. revert cache.
  induction ixs as [|idx ixs IH]; intros cache; [done|].
  cbn [foldl]. rewrite IH. unfold bucket. by destruct (cache !! idx).
Qed.

Lemma view_AddMessage uuid m mq :
  view (AddMessage uuid m mq) = MsgQueue.AddMessage uuid m (view mq).
Proof.
  unfold view, AddMessage, MsgQueue.AddMessage. cbn.
  by rewrite appendToIndexes_view.
Qed.

Lemma bucket_cache_delete ixs i mq idx :
  bucket (q (deleteMessageFromAllIndexes ixs i mq)) idx
  = if decide (idx ∈ ixs) then MsgQueue.removeId i (bucket (q mq) idx)
    else bucket (q mq) idx.
Proof.
  unfold deleteMessageFromAllIndexes; cbn [q].
  generalize (q mq) as cache.
  induction ixs as [|k ixs IH]; intros cache; cbn [foldl].
  - rewrite decide_False; [done | apply not_elem_of_nil].
  - rewrite IH.
    assert (Hk : ∀ idx', bucket (match cache !! k with
                                 | Some l => <[k := MsgQueue.removeId i l]> cache
                                 | None => cache
                                 end) idx'
                 = if decide (k = idx') then MsgQueue.removeId i (bucket cache idx')
                   else bucket cache idx').
    { intros idx'. destruct (cache !! k) as [l|] eqn:E.
      - rewrite MsgQueue.bucket_insert.
        destruct (decide (k = idx')) as [<-|Hne]; [|done].
        unfold MsgQueue.bucket. by rewrite E.
      - destruct (decide (k = idx')) as [<-|Hne]; [|done].
        unfold MsgQueue.bucket. by rewrite E. }
    rewrite Hk.
    destruct (decide (idx ∈ ixs)) as [Hin|Hnin];
      destruct (decide (k = idx)) as [->|Hne].
    + rewrite MsgQueue.removeId_idemp. rewrite decide_True by (by left). done.
    + rewrite decide_True by (by right). done.
    + rewrite decide_True by (by left). done.
    + rewrite decide_False; [done|].
      intros Hin. apply elem_of_cons in Hin as [Hin|Hin]; [congruence | done].
Qed.

Lemma view_delete ixs i mq :
  same_buckets (view (deleteMessageFromAllIndexes ixs i mq))
               (MsgQueue.deleteMessageFromAllIndexes ixs i (view mq)).
Proof.
  split; [done|]. split; [|done]. intros idx.
  rewrite MsgQueue.bucket_delete. apply bucket_cache_delete.
Qed.

Lemma view_PopMessage index mq :
  fst (PopMessage index mq) = fst (MsgQueue.PopMessage index (view mq)) ∧
  same_buckets (view (snd (PopMessage index mq)))
               (snd (MsgQueue.PopMessage index (view mq))).
Proof.
  unfold PopMessage, MsgQueue.PopMessage, bucket. cbn [view MsgQueue.queue].
  destruct (q mq !! index) as [[|c l]|]; cbn [default fst snd]; try done.
  split; [done | apply view_delete].
Qed.

Lemma view_MessagesForIndex index mq :
  MessagesForIndex index mq = MsgQueue.MessagesForIndex index (view mq).
Proof.
  unfold MessagesForIndex, MsgQueue.MessagesForIndex, bucket.
  cbn [view MsgQueue.queue]. by destruct (q mq !! index).
Qed.

Lemma view_PurgeIndexedMessages index mq :
  view (PurgeIndexedMessages index mq)
  = MsgQueue.PurgeIndexedMessages index (view mq).
Proof. done. Qed.

(** The map based operations respect [same_buckets]. *)
Lemma same_buckets_delete ixs i a b :
  same_buckets a b →
  same_buckets (MsgQueue.deleteMessageFromAllIndexes ixs i a)
               (MsgQueue.deleteMessageFromAllIndexes ixs i b).
Proof.
  intros (Hf & Hb & Hl). split; [done|]. split.
  - intros idx. rewrite !MsgQueue.bucket_delete. by rewrite Hb.
  - cbn. by rewrite Hl.
Qed.

Lemma same_buckets_run_op o a b :
  same_buckets a b →
  same_buckets (MsgQueue.run_op o a) (MsgQueue.run_op o b).
Proof.
  intros Hab. pose proof Hab as (Hf & Hb & Hl).
  destruct o as [f|uuid m|index|ids|index]; cbn [MsgQueue.run_op].
  - split; [cbn; by rewrite Hf|]. by split.
  - split; [done|]. split.
    + intros idx. cbn. rewrite !MsgQueue.bucket_appendToIndexes, Hb, Hf. done.
    + cbn. by rewrite Hl, Hf.
  - unfold MsgQueue.PopMessage. rewrite Hb.
    destruct (bucket (MsgQueue.queue b) index); [done|].
    by apply same_buckets_delete.
  - unfold MsgQueue.DeleteMessagesWithIds. revert a b Hab Hf Hb Hl.
    induction ids as [|i ids IH]; intros a b Hab Hf Hb Hl; [done|].
    cbn [foldl]. rewrite Hl.
    destruct (MsgQueue.allMessages b !! i) as [m|].
    + pose proof (same_buckets_delete (MsgQueue.indexes m) i a b Hab) as H'.
      apply IH; [done | apply H' | apply H' | apply H'].
    + by apply IH.
  - split; [done|]. split; [|done]. intros idx.
    rewrite !MsgQueue.bucket_purge. by rewrite Hb.
Qed.

(** One operation of the cache based broker is the operation of the map
    based one on its view. *)
Lemma view_run_op o mq :
  same_buckets (view (run_op o mq)) (MsgQueue.run_op o (view mq)).
Proof.
  destruct o as [f|uuid m|index|ids|index]; cbn [run_op MsgQueue.run_op].
  - done.
  - rewrite view_AddMessage. apply same_buckets_refl.
  - apply view_PopMessage.
  - unfold DeleteMessagesWithIds, MsgQueue.DeleteMessagesWithIds.
    assert (Hgen : ∀ a, same_buckets (view mq) a →
              same_buckets
                (view (foldl (λ acc i,
                         match msgs acc !! i with
                         | Some m => deleteMessageFromAllIndexes (MsgQueue.indexes m) i acc
                         | None => acc
                         end) mq ids))
                (foldl (λ acc i,
                         match MsgQueue.allMessages acc !! i with
                         | Some m =>
                             MsgQueue.deleteMessageFromAllIndexes (MsgQueue.indexes m) i acc
                         | None => acc
                         end) a ids)).
    { revert mq. induction ids as [|i ids IH]; intros mq a Ha; [done|].
      cbn [foldl]. pose proof Ha as (_ & _ & Hl). cbn in Hl. rewrite <- Hl.
      destruct (msgs mq !! i) as [m|]; [|by apply IH].
      apply IH. eapply same_buckets_trans; [apply view_delete|].
      by apply same_buckets_delete. }
    apply Hgen, same_buckets_refl.
  - rewrite view_PurgeIndexedMessages. apply same_buckets_refl.
Qed.

(** X7. Any sequence of operations leaves the two drafts with the same
    buckets and the same id lookup. *)
Theorem drafts_agree (ops : list (MsgQueue.op Message))
    (standard : list (MsgQueue.IndexFunc Message)) :
  same_buckets (view (foldl (λ mq o, run_op o mq) (New standard) ops))
               (foldl (λ mq o, MsgQueue.run_op o mq) (MsgQueue.New standard) ops).
Proof.
  assert (Hgen : ∀ mq a, same_buckets (view mq) a →
            same_buckets (view (foldl (λ mq o, run_op o mq) mq ops))
                         (foldl (λ mq o, MsgQueue.run_op o mq) a ops)).
  { induction ops as [|o ops IH]; intros mq a Ha; [done|].
    cbn [foldl]. apply IH.
    eapply same_buckets_trans; [apply view_run_op|].
    by apply same_buckets_run_op. }
  apply Hgen. done.
Qed.

End Queue.

End MsgQueueCache.

(** ** The event queue, [eventqueue]

    A queue of functions behind a mutex; every method runs under the lock,
    so a method is one step on the state. *)

Module EventQueue.

Section Queue.

(** [Event] is [func()]; [nilEvent] is the nil function. *)
Context {Event : Type} (nilEvent : Event).

Record Queue : Type := mkQueue {
  stop : bool;
  queue : list Event
}.

Definition New : Queue := {| stop := false; queue := [] |}.

Definition Add (e : Event) (q : Queue) : bool * Queue :=
  if stop q then (false, q)
  else (true, {| stop := stop q; queue := queue q ++ [e] |}).

Definition Pop (q : Queue) : Event * Queue :=
  if stop q then (nilEvent, q)
  else
    match queue q with
    | ret :: rest => (ret, {| stop := stop q; queue := rest |})
    | [] => (nilEvent, q)
    end.

Definition ClearAndStop (q : Queue) : Queue := {| stop := true; queue := [] |}.

(** Calls of the interface as data, with what each answers. *)
Inductive op : Type :=
| OpAdd (e : Event)
| OpPop
| OpClearAndStop.

Inductive answer : Type :=
| Added (ok : bool)
| Popped (e : Event)
| Stopped.

Definition run_op (o : op) (q : Queue) : answer * Queue :=
  match o with
  | OpAdd e => (Added (Add e q).1, (Add e q).2)
  | OpPop => (Popped (Pop q).1, (Pop q).2)
  | OpClearAndStop => (Stopped, ClearAndStop q)
  end.

Fixpoint run (ops : list op) (q : Queue) : list answer * Queue :=
  match ops with
  | [] => ([], q)
  | o :: rest =>
      let '(a, q) := run_op o q in
      let '(answers, q) := run rest q in
      (a :: answers, q)
  end.

(** What a stopped queue answers. *)
Definition refusal (o : op) : answer :=
  match o with
  | OpAdd _ => Added false
  | OpPop => Popped nilEvent
  | OpClearAndStop => Stopped
  end.

Lemma run_app (ops1 ops2 : list op) (q : Queue) :
  run (ops1 ++ ops2) q
  = ((run ops1 q).1 ++ (run ops2 (run ops1 q).2).1, (run ops2 (run ops1 q).2).2).
Proof.
  revert q. induction ops1 as [|o ops1 IH]; intros q; cbn [app run].
  - cbn. by destruct (run ops2 q).
  - destruct (run_op o q) as [a q1]. rewrite IH.
    by destruct (run ops1 q1).
Qed.

Lemma run_adds (es : list Event) (q : Queue) :
  stop q = false →
  run (OpAdd <$> es) q
  = (replicate (length es) (Added true),
     {| stop := false; queue := queue q ++ es |}).
Proof.
  revert q. induction es as [|e es IH]; intros [s l] Hs; cbn in Hs; subst s.
  - cbn. by rewrite app_nil_r.
  - cbn [fmap list_fmap run run_op Add stop queue fst snd].
    rewrite IH by done. cbn. by rewrite <- app_assoc.
Qed.

Lemma run_pops (l : list Event) :
  run (replicate (length l) OpPop) {| stop := false; queue := l |}
  = (Popped <$> l, New).
Proof.
  induction l as [|e l IH]; [done|].
  cbn [length replicate run run_op Pop stop queue fst snd]. by rewrite IH.
Qed.

Lemma run_stopped (ops : list op) (q : Queue) :
  run ops (ClearAndStop q) = (refusal <$> ops, ClearAndStop q).
Proof.
  unfold ClearAndStop. induction ops as [|o ops IH]; [done|].
  cbn [run]. destruct o; cbn [run_op Add Pop stop fst snd];
    unfold ClearAndStop; by rewrite IH.
Qed.




(** X18. Events leave the queue in the order they entered it: adding
    events to a queue that is not stopped and popping as often as the
    queue is long answers [true] to every [Add] and returns the events
    that were queued followed by the added ones, in that order, and
    leaves the queue empty. *)
Theorem events_leave_in_order (es : list Event) (q : Queue) :
  stop q = false →
  run ((OpAdd <$> es) ++ replicate (length (queue q ++ es)) OpPop) q
  = (replicate (length es) (Added true) ++ (Popped <$> queue q ++ es), New).
Proof.
  intros Hs. rewrite run_app, run_adds by done. cbn [fst snd].
  by rewrite run_pops.
Qed.


(** X20. [ClearAndStop] is final: whatever is called afterwards, every
    [Add] answers [false], every [Pop] answers nil, and the queue stays
    stopped and empty. *)
Theorem stopped_queue_stays_stopped (ops : list op) (q : Queue) :
  run ops (ClearAndStop q) = (refusal <$> ops, ClearAndStop q) ∧
  stop (run ops (ClearAndStop q)).2 = true ∧
  queue (run ops (ClearAndStop q)).2 = [].
Proof. by rewrite run_stopped. Qed.

End Queue.

Lemma events_leave_in_order_witness :
  run 0%nat ((OpAdd <$> [1; 2; 3]%nat) ++ replicate 3 OpPop) New
  = ([Added true; Added true; Added true;
      Popped 1%nat; Popped 2%nat; Popped 3%nat], New).
Proof. apply (events_leave_in_order 0%nat [1; 2; 3]%nat New). reflexivity. Defined.


End EventQueue.

(** ** The registry synchroniser, [eth1/sync.go] *)

Module Eth1.

(** [SyncOffset = big.Int]; a [*SyncOffset] is an [option], [None] for [nil]. *)
Definition SyncOffset : Type := Z.

(** [big.Int.Uint64]: the low 64 bits of the absolute value. *)
Definition Uint64 (x : SyncOffset) : Z := Z.abs x mod 2 ^ 64.

(** [big.Int.SetUint64]. *)
Definition SetUint64 (x : Z) : SyncOffset := x.

(** Modelled from the spec: the event types of package [eth1], declared in a
    file that is not at hand. An event carries the log it came from and one of
    three payloads; the synchroniser reads the block number of a log and the
    two fields of [SyncEndedEvent] only. *)
Record Log : Type := mkLog { BlockNumber : Z }.

Record SyncEndedEvent : Type := mkSyncEnded {
  Logs : list Log;
  Success : bool
}.

Inductive EventData : Type :=
| OperatorAddedEvent
| ValidatorAddedEvent
| SyncEnded (e : SyncEndedEvent).

Record Event : Type := mkEvent { EvLog : Log; Data : EventData }.

(** The zero value of [SyncEndedEvent]. *)
Definition noSyncEnded : SyncEndedEvent := {| Logs := []; Success := false |}.

Definition defaultSyncOffset : string := "4e706f".

Definition hexDigit (a : ascii) : option Z :=
  let n := Z.of_N (N_of_ascii a) in
  if (48 <=? n) && (n <=? 57) then Some (n - 48)
  else if (97 <=? n) && (n <=? 102) then Some (n - 87)
  else if (65 <=? n) && (n <=? 70) then Some (n - 55)
  else None.

Fixpoint hexDigits (acc : Z) (s : string) : option Z :=
  match s with
  | EmptyString => Some acc
  | String a s' =>
      match hexDigit a with
      | Some d => hexDigits (16 * acc + d) s'
      | None => None
      end
  end.

(** [big.Int.SetString(s, 16)]: an optional sign and at least one digit. *)
Definition SetString16 (s : string) : option Z :=
  match s with
  | EmptyString => None
  | String "-" EmptyString | String "+" EmptyString => None
  | String "-" s' => Z.opp <$> hexDigits 0 s'
  | String "+" s' => hexDigits 0 s'
  | _ => hexDigits 0 s
  end.

(** [HexStringToSyncOffset]. The result of [SetString] is dropped by the
    source; after a failed parse Go leaves the number unspecified, which is
    rendered as [0] here. *)
Definition HexStringToSyncOffset (shex : string) : option SyncOffset :=
  if decide (String.length shex = 0%nat) then None
  else Some (default 0 (SetString16 shex)).

Definition DefaultSyncOffset : option SyncOffset :=
  HexStringToSyncOffset defaultSyncOffset.

(** What the synchroniser does to its collaborators, in order. *)
Inductive call : Type :=
| CallRegister
| CallDeregister
| CallGetSyncOffset
| CallSync (offset : option SyncOffset)
| CallHandler (e : Event)
| CallCurrentBlock
| CallSaveSyncOffset (offset : SyncOffset)
| LogWarn (text : string)
| LogError (text : string).

(** How a call of [SyncEth1Events] ends: it returns an error or [nil]; it
    panics on a nil offset; it blocks in [syncWg.Wait] when the replay never
    publishes [SyncEndedEvent]; or the fuel of the model ran out. Deferred
    calls run when the function returns and when it panics. *)
Inductive outcome : Type :=
| Returned (err : option string)
| Panicked
| Blocked
| OutOfFuel.

(** [SyncOffsetStorage]. *)
Class SyncOffsetStorage (St : Type) : Type := {
  SaveSyncOffset : SyncOffset → St → option string * St;
  GetSyncOffset : St → option SyncOffset * bool * option string
}.

(** The part of [Client] the synchroniser uses. [Register] and [Deregister]
    are those of [client.EventsSubject()] under the name ["SyncEth1"]; [Sync]
    yields the events published on the subject while it runs. *)
Class Client (Cl : Type) : Type := {
  Register : Cl → option string * Cl;
  Deregister : Cl → Cl;
  Sync : option SyncOffset → Cl → list Event * option string * Cl;
  CurrentBlock : Cl → (Z + string) * Cl
}.

(** [SyncEventHandler], [None] for a nil handler. *)
Definition SyncEventHandler : Type := option (Event → option string).

Section Sync.

Context {St Cl : Type} `{SyncOffsetStorage St} `{Client Cl}.

(** [determineSyncOffset], with what it calls and logs. *)
Definition determineSyncOffset (storage : St) (syncOffset : option SyncOffset)
  : option SyncOffset * list call :=
  let '(syncOffsetFromStorage, found, err) := GetSyncOffset storage in
  let warn :=
    match err with
    | Some _ => [LogWarn "failed to get sync offset"]
    | None => []
    end in
  match found, syncOffsetFromStorage with
  | true, Some stored => (Some stored, CallGetSyncOffset :: warn)
  | _, _ =>
      match syncOffset with
      | Some provided => (Some provided, CallGetSyncOffset :: warn)
      | None => (DefaultSyncOffset, CallGetSyncOffset :: warn)
      end
  end.

(** [upgradeSyncOffset]. *)
Definition upgradeSyncOffset (storage : St) (syncOffset : option SyncOffset)
    (syncEndedEvent : SyncEndedEvent) : outcome * St * list call :=
  match last (Logs syncEndedEvent) with
  | Some lastLog =>
      if negb (Success syncEndedEvent) then
        (Returned None, storage, [LogWarn "could not parse all events from eth1"])
      else
        match syncOffset with
        | None => (Panicked, storage, [])
        | Some offset =>
            let rawOffset := BlockNumber lastLog in
            if Uint64 offset <? rawOffset then
              match SaveSyncOffset (SetUint64 rawOffset) storage with
              | (Some err, storage') =>
                  (Returned (Some ("could not upgrade sync offset: " +:+ err)),
                   storage', [CallSaveSyncOffset (SetUint64 rawOffset)])
              | (None, storage') =>
                  (Returned None, storage', [CallSaveSyncOffset (SetUint64 rawOffset)])
              end
            else (Returned None, storage, [])
        end
  | None => (Returned None, storage, [])
  end.

(** The goroutine reading the subject's channel: events are queued for the
    handler until [SyncEndedEvent] arrives; [None] when it never does. *)
Fixpoint consume (published : list Event) (queued : list Event)
  : option (list Event * SyncEndedEvent) :=
  match published with
  | [] => None
  | event :: rest =>
      match Data event with
      | SyncEnded e => Some (queued, e)
      | _ => consume rest (queued ++ [event])
      end
  end.

(** The execution queue: every queued task runs, errors are collected. *)
Definition runQueue (handler : SyncEventHandler) (queued : list Event)
  : list string * list call :=
  match handler with
  | Some h => (omap h queued, CallHandler <$> queued)
  | None => ([], [])
  end.

(** Leaving [SyncEth1Events] after a successful [Register]. *)
Definition leave (out : outcome) (client : Cl) (storage : St) (calls : list call)
  : outcome * Cl * St * list call :=
  match out with
  | Returned _ | Panicked => (out, Deregister client, storage, calls ++ [CallDeregister])
  | Blocked | OutOfFuel => (out, client, storage, calls)
  end.

(** [SyncEth1Events]. [fuel] bounds the depth of the recursion. *)
Fixpoint SyncEth1Events (fuel : nat) (client : Cl) (storage : St)
    (syncOffset : option SyncOffset) (handler : SyncEventHandler)
  : outcome * Cl * St * list call :=
  match fuel with
  | O => (OutOfFuel, client, storage, [])
  | Datatypes.S fuel' =>
      match Register client with
      | (Some err, client) =>
          (Returned (Some ("failed to register on contract events subject: " +:+ err)),
           client, storage, [CallRegister])
      | (None, client) =>
          let '(syncOffset, t_offset) := determineSyncOffset storage syncOffset in
          let '(published, err, client) := Sync syncOffset client in
          let t_sync := CallRegister :: t_offset ++ [CallSync syncOffset] in
          match err with
          | Some err =>
              leave (Returned (Some ("failed to sync contract events: " +:+ err)))
                    client storage t_sync
          | None =>
              match consume published [] with
              | None => leave Blocked client storage t_sync
              | Some (queued, syncEndedEvent) =>
                  let '(errs, t_queue) := runQueue handler queued in
                  match errs with
                  | _ :: _ =>
                      leave (Returned (Some "failed to handle all events from sync"))
                            client storage
                            (t_sync ++ t_queue
                             ++ [LogError "failed to handle all events from sync"])
                  | [] =>
                      let '(currentBlock, client) := CurrentBlock client in
                      let t_head := t_sync ++ t_queue ++ [CallCurrentBlock] in
                      let upgrade (warn : list call) :=
                        let '(out, storage, t_up) :=
                          upgradeSyncOffset storage syncOffset syncEndedEvent in
                        leave out client storage (t_head ++ warn ++ t_up) in
                      match currentBlock with
                      | inr _ =>
                          upgrade [LogWarn "could not get current block to fetch events that were fired during sync"]
                      | inl currentBlock =>
                          match syncOffset with
                          | None => leave Panicked client storage t_head
                          | Some offset =>
                              if Uint64 offset <? currentBlock then
                                let '(out, client, storage, t_nested) :=
                                  SyncEth1Events fuel' client storage syncOffset handler in
                                leave out client storage (t_head ++ t_nested)
                              else upgrade []
                          end
                      end
                  end
              end
          end
      end
  end.

Definition saves (calls : list call) : Prop :=
  ∃ offset, CallSaveSyncOffset offset ∈ calls.

#[local] Arguments leave : simpl never.
#[local] Arguments upgradeSyncOffset : simpl never.

(** *** Which calls can store an offset *)

Lemma determineSyncOffset_calls storage syncOffset offset :
  CallSaveSyncOffset offset ∉ snd (determineSyncOffset storage syncOffset).
Proof.
  unfold determineSyncOffset.
  destruct (GetSyncOffset storage) as [[fromStorage found] err].
  assert (Hw : ∀ w, w = match err with
                        | Some _ => [LogWarn "failed to get sync offset"]
                        | None => []
                        end → CallSaveSyncOffset offset ∉ CallGetSyncOffset :: w).
  { intros w ->. destruct err; set_solver. }
  destruct found, fromStorage, syncOffset; simpl; by apply Hw.
Qed.

Lemma runQueue_calls handler queued offset :
  CallSaveSyncOffset offset ∉ snd (runQueue handler queued).
Proof.
  destruct handler as [h|]; simpl; [|set_solver].
  intros Hin. apply list_elem_of_fmap in Hin as (e & He & _). discriminate.
Qed.

Lemma upgradeSyncOffset_saves storage syncOffset ended :
  saves (snd (upgradeSyncOffset storage syncOffset ended))
  ↔ ∃ lastLog offset,
      last (Logs ended) = Some lastLog ∧ Success ended = true ∧
      syncOffset = Some offset ∧ Uint64 offset < BlockNumber lastLog.
Proof.
  unfold upgradeSyncOffset, saves.
  destruct (last (Logs ended)) as [lastLog|]; [|simpl; split].
  - destruct (Success ended); simpl.
    + destruct syncOffset as [offset|]; simpl.
      * destruct (Z.ltb_spec (Uint64 offset) (BlockNumber lastLog)).
        -- destruct (SaveSyncOffset _ storage) as [[err|] storage']; simpl;
             (split; [intros _; eauto 6 | intros _; eexists; left]).
        -- simpl. split; [intros [o Ho]; by apply elem_of_nil in Ho|].
           intros (l & o & [= <-] & _ & [= <-] & Hlt). lia.
      * split; [intros [o Ho]; by apply elem_of_nil in Ho|].
        by intros (l & o & _ & _ & [=] & _).
    + split; [intros [o Ho]; set_solver|]. by intros (l & o & _ & [=] & _).
  - intros [o Ho]. by apply elem_of_nil in Ho.
  - by intros (l & o & [=] & _).
Qed.

Lemma upgradeSyncOffset_not_saved storage syncOffset ended :
  ¬ saves (snd (upgradeSyncOffset storage syncOffset ended)) →
  snd (fst (upgradeSyncOffset storage syncOffset ended)) = storage.
Proof.
  unfold upgradeSyncOffset, saves.
  destruct (last (Logs ended)) as [lastLog|]; [|done].
  destruct (Success ended); simpl; [|done].
  destruct syncOffset as [offset|]; simpl; [|done].
  destruct (Uint64 offset <? BlockNumber lastLog); [|done].
  destruct (SaveSyncOffset _ storage) as [[err|] storage']; simpl;
    intros Hn; exfalso; apply Hn; eexists; left.
Qed.

Lemma saves_app (l1 l2 : list call) : saves (l1 ++ l2) ↔ saves l1 ∨ saves l2.
Proof.
  unfold saves. setoid_rewrite elem_of_app. naive_solver.
Qed.

Lemma saves_cons (c : call) (l : list call) :
  saves (c :: l) ↔ (∃ offset, c = CallSaveSyncOffset offset) ∨ saves l.
Proof.
  unfold saves. setoid_rewrite elem_of_cons. naive_solver.
Qed.

Lemma saves_nil : saves [] ↔ False.
Proof. unfold saves. split; [intros [o Ho]; by apply elem_of_nil in Ho | done]. Qed.

Ltac saves_cases :=
  repeat first [rewrite saves_cons | rewrite saves_app | rewrite saves_nil].

Lemma leave_calls out client storage calls :
  saves (snd (leave out client storage calls)) ↔ saves calls.
Proof.
  destruct out; simpl; [|  |done|done];
    rewrite saves_app; unfold saves; set_solver.
Qed.

Lemma leave_storage out client storage calls :
  snd (fst (leave out client storage calls)) = storage.
Proof. by destruct out. Qed.

Lemma leave_outcome out client storage calls :
  fst (fst (fst (leave out client storage calls))) = out.
Proof. by destruct out. Qed.

(** *** The properties of the synchroniser *)

(** C10. [determineSyncOffset] returns the offset held by the storage
    whenever [GetSyncOffset] reports one that is found and not nil, whatever
    offset was passed; otherwise the offset passed, when there is one;
    otherwise the genesis block [0x4e706f]. *)
Theorem determineSyncOffset_priority (storage : St) (provided : option SyncOffset) :
  (∀ stored err,
      GetSyncOffset storage = (Some stored, true, err) →
      fst (determineSyncOffset storage provided) = Some stored) ∧
  (∀ fromStorage found err,
      GetSyncOffset storage = (fromStorage, found, err) →
      found = false ∨ fromStorage = None →
      fst (determineSyncOffset storage provided)
      = match provided with
        | Some offset => Some offset
        | None => Some 0x4e706f
        end).
Proof.
  unfold determineSyncOffset. split.
  - intros stored err ->. done.
  - intros fromStorage found err -> Hnone.
    destruct Hnone as [-> | ->]; [destruct fromStorage | destruct found];
      by destruct provided.
Qed.

(** C4, as amended. Take a call of [SyncEth1Events] whose registration and
    replay succeed and whose replay ends with [SyncEndedEvent]. If a handler
    returned an error, the call returns the one failure
    ["failed to handle all events from sync"], stores no offset and leaves
    the storage as it was. If no handler did and the call does not re-enter
    (the current head is unavailable or not above the offset), then it calls
    [SaveSyncOffset] exactly when the logs of [SyncEndedEvent] are not
    empty, [Success] is set and the block number of the last log is above
    the offset. *)
Theorem SyncEth1Events_saves_offset (fuel : nat) (client c1 c2 : Cl)
    (storage : St) (syncOffset : option SyncOffset) (handler : SyncEventHandler)
    (offset : SyncOffset) (published queued : list Event)
    (ended : SyncEndedEvent) :
  Register client = (None, c1) →
  fst (determineSyncOffset storage syncOffset) = Some offset →
  Sync (Some offset) c1 = (published, None, c2) →
  consume published [] = Some (queued, ended) →
  let result :=
    SyncEth1Events (Datatypes.S fuel) client storage syncOffset handler in
  (fst (runQueue handler queued) ≠ [] →
     fst (fst (fst result))
     = Returned (Some "failed to handle all events from sync") ∧
     snd (fst result) = storage ∧
     ¬ saves (snd result)) ∧
  (fst (runQueue handler queued) = [] →
     ∀ head c3,
       CurrentBlock c2 = (head, c3) →
       (∀ h, head = inl h → ¬ Uint64 offset < h) →
       (saves (snd result)
        ↔ ∃ lastLog, last (Logs ended) = Some lastLog ∧ Success ended = true ∧
                     Uint64 offset < BlockNumber lastLog)).
Proof.
  intros Hreg Hoff Hsync Hcons result. subst result. cbn [SyncEth1Events].
  rewrite Hreg.
  pose proof (determineSyncOffset_calls storage syncOffset) as Hdc.
  destruct (determineSyncOffset storage syncOffset) as [so t_offset].
  simpl in Hoff, Hdc. subst so. rewrite Hsync, Hcons.
  pose proof (runQueue_calls handler queued) as Hqc.
  destruct (runQueue handler queued) as [errs t_queue]. simpl in Hqc |- *.
  assert (HA : ¬ saves t_offset) by (intros [o Ho]; by apply Hdc in Ho).
  assert (HB : ¬ saves t_queue) by (intros [o Ho]; by apply Hqc in Ho).
  split.
  - intros Herr. destruct errs as [|e errs]; [done|].
    rewrite leave_outcome, leave_storage, leave_calls.
    split; [done|]. split; [done|].
    saves_cases. naive_solver.
  - intros -> head c3 Hhead Hno. rewrite Hhead.
    pose proof (upgradeSyncOffset_saves storage (Some offset) ended) as Hus.
    destruct head as [h|e];
      [destruct (Z.ltb_spec (Uint64 offset) h) as [Hlt|Hge];
         [by apply Hno in Hlt|]|];
      destruct (upgradeSyncOffset storage (Some offset) ended) as [[out st'] t_up];
      cbn [snd] in Hus; simpl; rewrite leave_calls; saves_cases; rewrite Hus;
      naive_solver.
Qed.

End Sync.

(** *** Concrete collaborators *)

(** A storage that holds at most one offset and never fails. *)
#[export] Instance memStorage : SyncOffsetStorage (option SyncOffset) := {
  SaveSyncOffset offset _ := (None, Some offset);
  GetSyncOffset st :=
    (st, match st with Some _ => true | None => false end, None)
}.

(** A client that answers from a script, one entry for each call of
    [SyncEth1Events]; reading the head moves to the next entry. *)
Record Round : Type := mkRound {
  reply_register : option string;
  reply_sync : list Event * option string;
  reply_head : Z + string
}.

#[export] Instance scriptedClient : Client (list Round) := {
  Register c :=
    match c with
    | r :: _ => (reply_register r, c)
    | [] => (Some "script exhausted", c)
    end;
  Deregister c := c;
  Sync _ c :=
    match c with
    | r :: _ => (fst (reply_sync r), snd (reply_sync r), c)
    | [] => ([], Some "script exhausted", c)
    end;
  CurrentBlock c :=
    match c with
    | r :: rest => (reply_head r, rest)
    | [] => (inr "script exhausted", [])
    end
}.

(** A client in front of a chain that stands still at block 110: every
    replay yields the one log of block 110, every query of the head 110. *)
Definition logsTo110 : SyncEndedEvent :=
  {| Logs := [mkLog 110]; Success := true |}.

#[export] Instance steadyClient : Client unit := {
  Register _ := (None, tt);
  Deregister _ := tt;
  Sync _ _ := ([mkEvent (mkLog 0) (SyncEnded logsTo110)], None, tt);
  CurrentBlock _ := (inl 110, tt)
}.

Definition validatorAt105 : Event := mkEvent (mkLog 105) ValidatorAddedEvent.

Definition replayTo110 : list Event :=
  [validatorAt105; mkEvent (mkLog 0) (SyncEnded logsTo110)].

Definition acceptAll : SyncEventHandler := Some (λ _, None).

(** The head is unavailable after the replay. *)
Definition headUnavailable : list Round :=
  [mkRound None (replayTo110, None) (inr "connection refused")].

(** The head is at block 110 after the replay; the subject refuses a second
    registration under the same name. *)
Definition headAt110 : list Round :=
  [mkRound None (replayTo110, None) (inl 110);
   mkRound (Some "observer already exists") ([], None) (inl 110)].

Example DefaultSyncOffset_value : DefaultSyncOffset = Some 5140591.
Proof. reflexivity. Qed.

Example determineSyncOffset_stored :
  fst (determineSyncOffset (Some 7) (Some 9)) = Some 7.
Proof. reflexivity. Qed.

Example determineSyncOffset_provided :
  fst (determineSyncOffset (None : option SyncOffset) (Some 9)) = Some 9.
Proof. reflexivity. Qed.

Example determineSyncOffset_default :
  fst (determineSyncOffset (None : option SyncOffset) None) = Some 0x4e706f.
Proof. reflexivity. Qed.

Example upgrade_when_head_unavailable :
  SyncEth1Events 1 headUnavailable (Some 100) None acceptAll
  = (Returned None, [], Some 110,
     [CallRegister; CallGetSyncOffset; CallSync (Some 100);
      CallHandler validatorAt105; CallCurrentBlock;
      LogWarn "could not get current block to fetch events that were fired during sync";
      CallSaveSyncOffset 110; CallDeregister]).
Proof. reflexivity. Qed.

Lemma SyncEth1Events_saves_offset_witness :
  (fst (runQueue acceptAll [validatorAt105]) ≠ [] →
     fst (fst (fst (SyncEth1Events 1 headUnavailable (Some 100) None acceptAll)))
     = Returned (Some "failed to handle all events from sync") ∧
     snd (fst (SyncEth1Events 1 headUnavailable (Some 100) None acceptAll))
     = Some 100 ∧
     ¬ saves (snd (SyncEth1Events 1 headUnavailable (Some 100) None acceptAll))) ∧
  (fst (runQueue acceptAll [validatorAt105]) = [] →
     ∀ head c3,
       CurrentBlock headUnavailable = (head, c3) →
       (∀ h, head = inl h → ¬ Uint64 100 < h) →
       (saves (snd (SyncEth1Events 1 headUnavailable (Some 100) None acceptAll))
        ↔ ∃ lastLog, last (Logs logsTo110) = Some lastLog ∧
                     Success logsTo110 = true ∧
                     Uint64 100 < BlockNumber lastLog)).
Proof.
  apply (SyncEth1Events_saves_offset 0 headUnavailable headUnavailable
           headUnavailable (Some 100) None acceptAll 100 replayTo110
           [validatorAt105] logsTo110); reflexivity.
Defined.

(** C4, as stated, fails: no handler returns an error, the logs of
    [SyncEndedEvent] are not empty, [Success] is set and the last log, of block
    110, is above the offset 100; the head, 110, is above the offset too, so
    the call re-enters, and no offset is stored. *)
Lemma reentry_skips_upgrade :
  fst (runQueue acceptAll [validatorAt105]) = [] ∧
  consume replayTo110 [] = Some ([validatorAt105], logsTo110) ∧
  last (Logs logsTo110) = Some (mkLog 110) ∧
  Success logsTo110 = true ∧
  Uint64 100 < 110 ∧
  fst (fst (fst (SyncEth1Events 5 headAt110 (Some 100) None acceptAll)))
  = Returned (Some "failed to register on contract events subject: observer already exists") ∧
  snd (fst (SyncEth1Events 5 headAt110 (Some 100) None acceptAll)) = Some 100 ∧
  ¬ saves (snd (SyncEth1Events 5 headAt110 (Some 100) None acceptAll)).
Proof.
  repeat split; try reflexivity.
  intros [o Ho]. vm_compute in Ho.
  repeat (apply elem_of_cons in Ho as [Ho|Ho]; [discriminate|]).
  by apply elem_of_nil in Ho.
Qed.

(** The calls of one pass of [SyncEth1Events] in front of the steady chain. *)
Definition steadyPass : list call :=
  [CallRegister; CallGetSyncOffset; CallSync (Some 100); CallCurrentBlock].

(** C5 on the code. The stored offset is 100 and the chain stands at block
    110. Each call replays from offset 100, finds the head above the offset
    and calls itself with the same offset 100: whatever the depth allowed,
    the recursion has not ended, every replay started at 100 and no offset
    was stored. *)
Theorem reentry_repeats_same_offset (depth : nat) :
  SyncEth1Events depth tt (Some 100) (Some 100) acceptAll
  = (OutOfFuel, tt, Some 100, mjoin (replicate depth steadyPass)) ∧
  ¬ saves (mjoin (replicate depth steadyPass)).
Proof.
  split.
  - induction depth as [|depth IH]; [done|].
    change (SyncEth1Events (Datatypes.S depth) tt (Some 100) (Some 100) acceptAll)
      with (let '(out, client, storage, nested) :=
              SyncEth1Events depth tt (Some 100) (Some 100) acceptAll in
            leave out client storage (steadyPass ++ nested)).
    by rewrite IH.
  - intros [o Ho]. apply list_elem_of_join in Ho as (pass & Ho & Hpass).
    apply elem_of_replicate_inv in Hpass as ->. unfold steadyPass in Ho.
    repeat (apply elem_of_cons in Ho as [Ho|Ho]; [discriminate|]).
    by apply elem_of_nil in Ho.
Qed.

(** *** Further properties of the synchroniser *)

(** The offsets handed to [SaveSyncOffset], the offsets handed to [Sync],
    and registrations less deregistrations, read off a list of calls. *)
Definition savedOffsets (calls : list call) : list SyncOffset :=
  omap (λ c, match c with CallSaveSyncOffset o => Some o | _ => None end) calls.

Definition replayOffsets (calls : list call) : list (option SyncOffset) :=
  omap (λ c, match c with CallSync o => Some o | _ => None end) calls.

Definition openRegistrations (calls : list call) : Z :=
  foldr (λ c n, match c with
                | CallRegister => n + 1
                | CallDeregister => n - 1
                | _ => n
                end) 0 calls.

Lemma openRegistrations_app (l1 l2 : list call) :
  openRegistrations (l1 ++ l2) = openRegistrations l1 + openRegistrations l2.
Proof.
  induction l1 as [|c l1 IH]; simpl; [lia|]. destruct c; lia.
Qed.

Lemma savedOffsets_app l1 l2 :
  savedOffsets (l1 ++ l2) = savedOffsets l1 ++ savedOffsets l2.
Proof. apply omap_app. Qed.

Lemma replayOffsets_app l1 l2 :
  replayOffsets (l1 ++ l2) = replayOffsets l1 ++ replayOffsets l2.
Proof. apply omap_app. Qed.

Lemma savedOffsets_cons c l :
  savedOffsets (c :: l)
  = match c with
    | CallSaveSyncOffset o => o :: savedOffsets l
    | _ => savedOffsets l
    end.
Proof. by destruct c. Qed.

Lemma replayOffsets_cons c l :
  replayOffsets (c :: l)
  = match c with
    | CallSync o => o :: replayOffsets l
    | _ => replayOffsets l
    end.
Proof. by destruct c. Qed.

Lemma openRegistrations_cons c l :
  openRegistrations (c :: l)
  = match c with
    | CallRegister => openRegistrations l + 1
    | CallDeregister => openRegistrations l - 1
    | _ => openRegistrations l
    end.
Proof. by destruct c. Qed.

Ltac trace_simpl :=
  repeat first
    [ rewrite savedOffsets_app | rewrite replayOffsets_app
    | rewrite openRegistrations_app | rewrite savedOffsets_cons
    | rewrite replayOffsets_cons | rewrite openRegistrations_cons ];
  change (savedOffsets []) with (@nil SyncOffset);
  change (replayOffsets []) with (@nil (option SyncOffset));
  change (openRegistrations []) with 0;
  lazy beta iota.

Lemma elem_of_savedOffsets o calls :
  o ∈ savedOffsets calls ↔ CallSaveSyncOffset o ∈ calls.
Proof.
  unfold savedOffsets. rewrite list_elem_of_omap. split.
  - intros (c & Hc & E). destruct c; try done. by injection E as ->.
  - intros Hc. by exists (CallSaveSyncOffset o).
Qed.

Lemma elem_of_replayOffsets o calls :
  o ∈ replayOffsets calls ↔ CallSync o ∈ calls.
Proof.
  unfold replayOffsets. rewrite list_elem_of_omap. split.
  - intros (c & Hc & E). destruct c; try done. by injection E as ->.
  - intros Hc. by exists (CallSync o).
Qed.

(** The events the goroutine queues are those published before the first
    [SyncEndedEvent]. *)
Definition isSyncEnded (e : Event) : bool :=
  match Data e with SyncEnded _ => true | _ => false end.

Lemma consume_app (published queued : list Event) :
  consume published queued
  = match consume published [] with
    | Some (queued', e) => Some (queued ++ queued', e)
    | None => None
    end.
Proof.
  revert queued. induction published as [|ev rest IH]; intros queued; [done|].
  simpl. destruct (Data ev) eqn:E.
  - rewrite (IH (queued ++ [ev])), (IH [ev]).
    destruct (consume rest []) as [[q e]|]; [|done]. by rewrite <- app_assoc.
  - rewrite (IH (queued ++ [ev])), (IH [ev]).
    destruct (consume rest []) as [[q e]|]; [|done]. by rewrite <- app_assoc.
  - by rewrite app_nil_r.
Qed.

Section SyncMore.

Context {St Cl : Type} `{SyncOffsetStorage St} `{Client Cl}.

#[local] Arguments leave : simpl never.
#[local] Arguments upgradeSyncOffset : simpl never.

(** One pass of [SyncEth1Events]: either the call is over, or it calls
    itself with the client, the offset and the calls made so far. *)
Inductive pass : Type :=
| PassOver (result : outcome * Cl * St * list call)
| PassAgain (client : Cl) (syncOffset : option SyncOffset) (t_head : list call).

Definition onePass (client : Cl) (storage : St) (syncOffset : option SyncOffset)
    (handler : SyncEventHandler) : pass :=
  match Register client with
  | (Some err, client) =>
      PassOver
        (Returned (Some ("failed to register on contract events subject: " +:+ err)),
         client, storage, [CallRegister])
  | (None, client) =>
      let '(syncOffset, t_offset) := determineSyncOffset storage syncOffset in
      let '(published, err, client) := Sync syncOffset client in
      let t_sync := CallRegister :: t_offset ++ [CallSync syncOffset] in
      match err with
      | Some err =>
          PassOver (leave (Returned (Some ("failed to sync contract events: " +:+ err)))
                          client storage t_sync)
      | None =>
          match consume published [] with
          | None => PassOver (leave Blocked client storage t_sync)
          | Some (queued, syncEndedEvent) =>
              let '(errs, t_queue) := runQueue handler queued in
              match errs with
              | _ :: _ =>
                  PassOver
                    (leave (Returned (Some "failed to handle all events from sync"))
                           client storage
                           (t_sync ++ t_queue
                            ++ [LogError "failed to handle all events from sync"]))
              | [] =>
                  let '(currentBlock, client) := CurrentBlock client in
                  let t_head := t_sync ++ t_queue ++ [CallCurrentBlock] in
                  let upgrade (warn : list call) :=
                    let '(out, storage, t_up) :=
                      upgradeSyncOffset storage syncOffset syncEndedEvent in
                    leave out client storage (t_head ++ warn ++ t_up) in
                  match currentBlock with
                  | inr _ =>
                      PassOver (upgrade [LogWarn "could not get current block to fetch events that were fired during sync"])
                  | inl currentBlock =>
                      match syncOffset with
                      | None => PassOver (leave Panicked client storage t_head)
                      | Some offset =>
                          if Uint64 offset <? currentBlock
                          then PassAgain client syncOffset t_head
                          else PassOver (upgrade [])
                      end
                  end
              end
          end
      end
  end.

Lemma SyncEth1Events_onePass (fuel : nat) (client : Cl) (storage : St)
    syncOffset handler :
  SyncEth1Events (Datatypes.S fuel) client storage syncOffset handler
  = match onePass client storage syncOffset handler with
    | PassOver result => result
    | PassAgain client syncOffset t_head =>
        let '(out, client, storage, t_nested) :=
          SyncEth1Events fuel client storage syncOffset handler in
        leave out client storage (t_head ++ t_nested)
    end.
Proof.
  unfold onePass. cbn [SyncEth1Events].
  destruct (Register client) as [[err|] c1]; [done|].
  destruct (determineSyncOffset storage syncOffset) as [d t_offset].
  destruct (Sync d c1) as [[published err] c2].
  destruct err as [err|]; [done|].
  destruct (consume published []) as [[queued ended]|]; [|done].
  destruct (runQueue handler queued) as [[|e errs] t_queue]; [|done].
  destruct (CurrentBlock c2) as [[head|e] c3]; [|done].
  destruct d as [offset|]; [|done].
  by destruct (Uint64 offset <? head).
Qed.

(** What a call has done when it is over, or when the fuel ran out, [d]
    being the offset [determineSyncOffset] chose. *)
Record run_ok (storage : St) (d : option SyncOffset)
    (result : outcome * Cl * St * list call) : Prop := {
  run_outcome : result.1.1.1 ≠ Panicked;
  run_saved :
    savedOffsets result.2 = [] ∧ result.1.2 = storage ∨
    ∃ o off, savedOffsets result.2 = [o] ∧ d = Some off ∧ Uint64 off < o ∧
             result.1.2 = (SaveSyncOffset o storage).2;
  run_replays : Forall (λ o, o = d) (replayOffsets result.2);
  run_registrations :
    match result.1.1.1 with
    | Returned e =>
        openRegistrations result.2 = 0 ∨
        openRegistrations result.2 = 1 ∧
        ∃ cause,
          e = Some ("failed to register on contract events subject: " +:+ cause)
    | Blocked => 1 ≤ openRegistrations result.2
    | _ => 0 ≤ openRegistrations result.2
    end
}.

Lemma determineSyncOffset_Some (storage : St) syncOffset :
  is_Some (determineSyncOffset storage syncOffset).1.
Proof.
  unfold determineSyncOffset.
  destruct (GetSyncOffset storage) as [[fromStorage found] err].
  destruct found, fromStorage, syncOffset; simpl; eauto.
Qed.

Lemma determineSyncOffset_again (storage : St) syncOffset :
  (determineSyncOffset storage (determineSyncOffset storage syncOffset).1).1
  = (determineSyncOffset storage syncOffset).1.
Proof.
  unfold determineSyncOffset.
  destruct (GetSyncOffset storage) as [[fromStorage found] err].
  destruct found, fromStorage, syncOffset; simpl; done.
Qed.

Lemma determineSyncOffset_trace (storage : St) syncOffset :
  savedOffsets (determineSyncOffset storage syncOffset).2 = [] ∧
  replayOffsets (determineSyncOffset storage syncOffset).2 = [] ∧
  openRegistrations (determineSyncOffset storage syncOffset).2 = 0.
Proof.
  unfold determineSyncOffset.
  destruct (GetSyncOffset storage) as [[fromStorage found] err].
  destruct found, fromStorage, syncOffset, err; simpl; done.
Qed.

Lemma runQueue_trace handler queued :
  savedOffsets (runQueue handler queued).2 = [] ∧
  replayOffsets (runQueue handler queued).2 = [] ∧
  openRegistrations (runQueue handler queued).2 = 0.
Proof.
  destruct handler as [h|]; simpl; [|done].
  induction queued as [|e queued IH]; simpl; [done|]. apply IH.
Qed.

Lemma upgradeSyncOffset_trace (storage : St) offset ended :
  let r := upgradeSyncOffset storage (Some offset) ended in
  (∃ e, r.1.1 = Returned e) ∧
  replayOffsets r.2 = [] ∧ openRegistrations r.2 = 0 ∧
  (savedOffsets r.2 = [] ∧ r.1.2 = storage ∨
   ∃ o, savedOffsets r.2 = [o] ∧ Uint64 offset < o ∧
        r.1.2 = (SaveSyncOffset o storage).2).
Proof.
  unfold upgradeSyncOffset.
  destruct (last (Logs ended)) as [lastLog|]; [|simpl; eauto 10].
  destruct (Success ended); simpl; [|eauto 10].
  destruct (Z.ltb_spec (Uint64 offset) (BlockNumber lastLog)); [|simpl; eauto 10].
  destruct (SaveSyncOffset (SetUint64 (BlockNumber lastLog)) storage)
    as [[err|] storage'] eqn:E; simpl;
    (split; [eauto|]); (split; [done|]); (split; [done|]); right;
    exists (BlockNumber lastLog); unfold SetUint64 in E; by rewrite E.
Qed.

Lemma leave_trace out (client : Cl) (storage : St) calls :
  (leave out client storage calls).1.1.1 = out ∧
  (leave out client storage calls).1.2 = storage ∧
  savedOffsets (leave out client storage calls).2 = savedOffsets calls ∧
  replayOffsets (leave out client storage calls).2 = replayOffsets calls ∧
  openRegistrations (leave out client storage calls).2
  = match out with
    | Returned _ | Panicked => openRegistrations calls - 1
    | _ => openRegistrations calls
    end.
Proof.
  destruct out; unfold leave; cbn [fst snd]; trace_simpl;
    rewrite ?app_nil_r; repeat split; lia.
Qed.

Lemma onePass_again (client c : Cl) (storage : St) syncOffset handler d t_head :
  onePass client storage syncOffset handler = PassAgain c d t_head →
  d = (determineSyncOffset storage syncOffset).1 ∧
  savedOffsets t_head = [] ∧ replayOffsets t_head = [d] ∧
  openRegistrations t_head = 1.
Proof.
  unfold onePass.
  destruct (Register client) as [[err|] c1]; [done|].
  pose proof (determineSyncOffset_trace storage syncOffset) as (Hs & Hr & Ho).
  destruct (determineSyncOffset storage syncOffset) as [d' t_offset].
  destruct (Sync d' c1) as [[published err] c2].
  destruct err as [err|]; [done|].
  destruct (consume published []) as [[queued ended]|]; [|done].
  pose proof (runQueue_trace handler queued) as (Hs' & Hr' & Ho').
  destruct (runQueue handler queued) as [[|e errs] t_queue]; [|done].
  destruct (CurrentBlock c2) as [[head|e] c3];
    [|by destruct (upgradeSyncOffset storage d' ended) as [[? ?] ?]].
  destruct d' as [offset|]; [|done].
  destruct (Uint64 offset <? head);
    [|by destruct (upgradeSyncOffset storage (Some offset) ended) as [[? ?] ?]].
  intros [= <- <- <-]. cbn [fst snd] in *.
  trace_simpl. rewrite Hs, Hr, Ho, Hs', Hr', Ho'. repeat split; simpl; lia.
Qed.

Lemma run_ok_leave out (client : Cl) (st storage : St) calls d :
  out ≠ Panicked →
  (savedOffsets calls = [] ∧ st = storage ∨
   ∃ o off, savedOffsets calls = [o] ∧ d = Some off ∧ Uint64 off < o ∧
            st = (SaveSyncOffset o storage).2) →
  Forall (λ o, o = d) (replayOffsets calls) →
  match out with
  | Returned e =>
      openRegistrations calls = 1 ∨
      openRegistrations calls = 2 ∧
      ∃ cause,
        e = Some ("failed to register on contract events subject: " +:+ cause)
  | Blocked => 1 ≤ openRegistrations calls
  | _ => 0 ≤ openRegistrations calls
  end →
  run_ok storage d (leave out client st calls).
Proof.
  intros Hout Hsaved Hreplays Hreg.
  destruct (leave_trace out client st calls) as (Eo & Es & Ev & Er & Eb).
  split; rewrite ?Eo, ?Es, ?Ev, ?Er, ?Eb; try done.
  destruct out; try done. destruct Hreg as [Hreg|[Hreg Hc]]; [left|right]; [lia|].
  split; [lia | done].
Qed.

Lemma onePass_over (client : Cl) (storage : St) syncOffset handler result :
  onePass client storage syncOffset handler = PassOver result →
  run_ok storage (determineSyncOffset storage syncOffset).1 result.
Proof.
  unfold onePass.
  destruct (Register client) as [[err|] c1].
  { intros [= <-]. split; cbn [fst snd]; trace_simpl; try done.
    - by left.
    - right. split; [done | by eexists]. }
  pose proof (determineSyncOffset_trace storage syncOffset) as (Hs & Hr & Ho).
  pose proof (determineSyncOffset_Some storage syncOffset) as [offset Hd].
  destruct (determineSyncOffset storage syncOffset) as [d t_offset].
  cbn [fst snd] in *. subst d.
  destruct (Sync (Some offset) c1) as [[published err] c2].
  destruct err as [err|].
  { intros [= <-].
    apply run_ok_leave; trace_simpl; rewrite ?Hs, ?Hr, ?Ho; cbn [app];
      [done | by left | by repeat constructor | left; lia]. }
  destruct (consume published []) as [[queued ended]|].
  2:{ intros [= <-].
      apply run_ok_leave; trace_simpl; rewrite ?Hs, ?Hr, ?Ho; cbn [app];
        [done | by left | by repeat constructor | lia]. }
  pose proof (runQueue_trace handler queued) as (Hs' & Hr' & Ho').
  destruct (runQueue handler queued) as [[|e errs] t_queue]; cbn [fst snd] in *.
  2:{ intros [= <-].
      apply run_ok_leave; trace_simpl; rewrite ?Hs, ?Hr, ?Ho, ?Hs', ?Hr', ?Ho';
        cbn [app]; [done | by left | by repeat constructor | left; lia]. }
  destruct (upgradeSyncOffset_trace storage offset ended)
    as ([e He] & Hur & Huo & Hus).
  destruct (CurrentBlock c2) as [[head|e'] c3];
    [destruct (Uint64 offset <? head); [done|]|];
    destruct (upgradeSyncOffset storage (Some offset) ended) as [[out st] t_up];
    cbn [fst snd] in *; subst out; intros [= <-];
    (apply run_ok_leave; trace_simpl;
     rewrite ?Hs, ?Hr, ?Ho, ?Hs', ?Hr', ?Ho', ?Hur, ?Huo; cbn [app];
     [ done
     | destruct Hus as [[Hus ->]|(o & Hus & Hlt & ->)]; rewrite Hus;
       [by left | right; by exists o, offset]
     | by repeat constructor
     | left; lia ]).
Qed.

Lemma SyncEth1Events_run_ok (fuel : nat) (storage : St) handler :
  ∀ (client : Cl) syncOffset,
    run_ok storage (determineSyncOffset storage syncOffset).1
           (SyncEth1Events fuel client storage syncOffset handler).
Proof.
  induction fuel as [|fuel IH]; intros client syncOffset.
  { split; cbn; try done. by left. }
  rewrite SyncEth1Events_onePass.
  destruct (onePass client storage syncOffset handler) as [result|c d t_head] eqn:E.
  - by apply (onePass_over client storage syncOffset handler).
  - apply onePass_again in E as (-> & Hs & Hr & Ho).
    specialize (IH c (determineSyncOffset storage syncOffset).1).
    rewrite determineSyncOffset_again in IH.
    destruct (SyncEth1Events fuel c storage _ handler) as [[[out c'] st] t_nested].
    destruct IH as [Hout Hsaved Hreplays Hreg]. cbn [fst snd] in *.
    apply run_ok_leave.
    + done.
    + by rewrite savedOffsets_app, Hs.
    + rewrite replayOffsets_app, Hr. by constructor.
    + rewrite openRegistrations_app, Ho. destruct out; try done; try lia.
      destruct Hreg as [Hreg|[Hreg Hc]]; [left | right]; [lia|].
      split; [lia | done].
Qed.

(** X8. [SyncEth1Events] never dereferences a nil offset:
    [determineSyncOffset] always yields one, so neither
    [syncOffset.Uint64()] panics, whatever storage, client, offset and
    handler it is given and however often it re-enters. *)
Theorem SyncEth1Events_never_panics (fuel : nat) (client : Cl) (storage : St)
    (syncOffset : option SyncOffset) (handler : SyncEventHandler) :
  is_Some (determineSyncOffset storage syncOffset).1 ∧
  (SyncEth1Events fuel client storage syncOffset handler).1.1.1 ≠ Panicked.
Proof.
  split; [apply determineSyncOffset_Some|].
  apply (SyncEth1Events_run_ok fuel storage handler client syncOffset).
Qed.

(** X9. One call of [SyncEth1Events], re-entries included, calls
    [SaveSyncOffset] at most once. When it does not, the storage is left
    as it was; when it does, the storage is what that one call made of the
    storage it was given. *)
Theorem SyncEth1Events_saves_at_most_once (fuel : nat) (client : Cl)
    (storage : St) (syncOffset : option SyncOffset) (handler : SyncEventHandler) :
  let result := SyncEth1Events fuel client storage syncOffset handler in
  (length (savedOffsets result.2) ≤ 1)%nat ∧
  (savedOffsets result.2 = [] → result.1.2 = storage) ∧
  (∀ o, o ∈ savedOffsets result.2 → result.1.2 = (SaveSyncOffset o storage).2).
Proof.
  intros result.
  destruct (SyncEth1Events_run_ok fuel storage handler client syncOffset)
    as [_ Hsaved _ _]. fold result in Hsaved.
  destruct Hsaved as [[Hs Hst]|(o & off & Hs & _ & _ & Hst)]; rewrite Hs.
  - split; [simpl; lia|]. split; [done|]. intros o Ho. by apply elem_of_nil in Ho.
  - split; [simpl; lia|]. split; [done|].
    intros o' Ho'. by apply list_elem_of_singleton in Ho' as ->.
Qed.

(** X10. The offset [SyncEth1Events] stores is above the offset it
    replayed from, the one [determineSyncOffset] chose: the stored offset
    never moves back. In particular, over a storage that holds an offset,
    whatever is stored next is above it. *)
Theorem stored_offset_moves_forward (fuel : nat) (client : Cl) (storage : St)
    (syncOffset : option SyncOffset) (handler : SyncEventHandler)
    (o : SyncOffset) :
  CallSaveSyncOffset o
    ∈ (SyncEth1Events fuel client storage syncOffset handler).2 →
  (∃ offset, (determineSyncOffset storage syncOffset).1 = Some offset ∧
             Uint64 offset < o) ∧
  (∀ stored err, GetSyncOffset storage = (Some stored, true, err) →
                 Uint64 stored < o).
Proof.
  intros Ho. apply elem_of_savedOffsets in Ho.
  destruct (SyncEth1Events_run_ok fuel storage handler client syncOffset)
    as [_ Hsaved _ _].
  destruct Hsaved as [[Hs _]|(o' & off & Hs & Hd & Hlt & _)]; rewrite Hs in Ho.
  { by apply elem_of_nil in Ho. }
  apply list_elem_of_singleton in Ho as ->. split; [by exists off|].
  intros stored err Hget. unfold determineSyncOffset in Hd.
  rewrite Hget in Hd. cbn in Hd. by injection Hd as ->.
Qed.

(** X11. Every replay of one call of [SyncEth1Events] starts from the
    same offset, the one [determineSyncOffset] chose at the first pass:
    a re-entry never replays from a later block. *)
Theorem every_replay_same_offset (fuel : nat) (client : Cl) (storage : St)
    (syncOffset : option SyncOffset) (handler : SyncEventHandler) :
  Forall (λ o, o = (determineSyncOffset storage syncOffset).1)
         (replayOffsets (SyncEth1Events fuel client storage syncOffset handler).2).
Proof.
  apply (SyncEth1Events_run_ok fuel storage handler client syncOffset).
Qed.

(** X12. When [SyncEth1Events] returns, every registration on the events
    subject has been matched by a deregistration; the one exception is a
    registration that failed, which is the error returned. *)
Theorem SyncEth1Events_deregisters (fuel : nat) (client : Cl) (storage : St)
    (syncOffset : option SyncOffset) (handler : SyncEventHandler)
    (e : option string) :
  (SyncEth1Events fuel client storage syncOffset handler).1.1.1 = Returned e →
  openRegistrations (SyncEth1Events fuel client storage syncOffset handler).2 = 0 ∨
  openRegistrations (SyncEth1Events fuel client storage syncOffset handler).2 = 1 ∧
  ∃ cause, e = Some ("failed to register on contract events subject: " +:+ cause).
Proof.
  intros Hout.
  destruct (SyncEth1Events_run_ok fuel storage handler client syncOffset)
    as [_ _ _ Hreg].
  by rewrite Hout in Hreg.
Qed.

End SyncMore.

(** X13. The goroutine of [SyncEth1Events] hands to the handler the
    events published before the first [SyncEndedEvent], in the order they
    were published, and none that follows it; without a
    [SyncEndedEvent] it never finishes. *)
Theorem consume_until_SyncEnded (published queued : list Event)
    (ended : SyncEndedEvent) :
  consume published [] = Some (queued, ended)
  ↔ ∃ event rest,
      published = queued ++ event :: rest ∧
      Data event = SyncEnded ended ∧
      Forall (λ e, isSyncEnded e = false) queued.
Proof.
  revert queued. induction published as [|ev rest IH]; intros queued.
  - split; [done|]. intros (event & rest & E & _). by destruct queued.
  - cbn [consume]. rewrite consume_app. unfold isSyncEnded in *.
    destruct (Data ev) as [| |e] eqn:Ed.
    + destruct (consume rest []) as [[q e]|] eqn:Ec.
      * split.
        -- intros [= <- <-]. destruct (proj1 (IH q) eq_refl) as (event & r & -> & Hd & Hq).
           exists event, r. cbn. split; [done|]. split; [done|].
           constructor; [by rewrite Ed | done].
        -- intros (event & r & E & Hd & Hq). destruct queued as [|x queued].
           { cbn in E. injection E as <- _. congruence. }
           cbn in E. injection E as <- ->. apply Forall_cons in Hq as [_ Hq].
           assert (Some (q, e) = Some (queued, ended)) as [= -> ->]; [|done].
           apply IH. by exists event, r.
      * split; [done|]. intros (event & r & E & Hd & Hq).
        destruct queued as [|x queued].
        { cbn in E. injection E as <- _. congruence. }
        cbn in E. injection E as <- ->. apply Forall_cons in Hq as [_ Hq].
        assert (None = Some (queued, ended)); [|done].
        apply IH. by exists event, r.
    + destruct (consume rest []) as [[q e]|] eqn:Ec.
      * split.
        -- intros [= <- <-]. destruct (proj1 (IH q) eq_refl) as (event & r & -> & Hd & Hq).
           exists event, r. cbn. split; [done|]. split; [done|].
           constructor; [by rewrite Ed | done].
        -- intros (event & r & E & Hd & Hq). destruct queued as [|x queued].
           { cbn in E. injection E as <- _. congruence. }
           cbn in E. injection E as <- ->. apply Forall_cons in Hq as [_ Hq].
           assert (Some (q, e) = Some (queued, ended)) as [= -> ->]; [|done].
           apply IH. by exists event, r.
      * split; [done|]. intros (event & r & E & Hd & Hq).
        destruct queued as [|x queued].
        { cbn in E. injection E as <- _. congruence. }
        cbn in E. injection E as <- ->. apply Forall_cons in Hq as [_ Hq].
        assert (None = Some (queued, ended)); [|done].
        apply IH. by exists event, r.
    + split.
      * intros [= <- <-]. exists ev, rest. by split.
      * intros (event & r & E & Hd & Hq). destruct queued as [|x queued].
        { cbn in E. injection E as <- _. congruence. }
        cbn in E. injection E as <- ->. apply Forall_cons in Hq as [Hx _].
        by rewrite Ed in Hx.
Qed.

Lemma stored_offset_moves_forward_witness :
  (∃ offset,
     (determineSyncOffset (Some 100 : option SyncOffset) None).1 = Some offset ∧
     Uint64 offset < 110) ∧
  (∀ stored err,
     GetSyncOffset (Some 100 : option SyncOffset) = (Some stored, true, err) →
     Uint64 stored < 110).
Proof.
  apply (stored_offset_moves_forward 1 headUnavailable (Some 100) None
           acceptAll 110).
  apply list_elem_of_lookup. exists 6%nat. reflexivity.
Defined.

Lemma SyncEth1Events_deregisters_witness :
  openRegistrations
    (SyncEth1Events 1 headUnavailable (Some 100) None acceptAll).2 = 0 ∨
  openRegistrations
    (SyncEth1Events 1 headUnavailable (Some 100) None acceptAll).2 = 1 ∧
  ∃ cause,
    None = Some ("failed to register on contract events subject: " +:+ cause).
Proof.
  apply (SyncEth1Events_deregisters 1 headUnavailable (Some 100) None
           acceptAll None).
  reflexivity.
Defined.

End Eth1.

(** ** Waiting for peers, [commons.WaitForMinPeers] *)

Module Commons.

(** [time.Duration] is a signed 64 bit integer; arithmetic wraps around. *)
Definition wrap64 (z : Z) : Z := (z + 2 ^ 63) mod 2 ^ 64 - 2 ^ 63.

(** What one pass of the loop observes: the reply of [net.AllPeers] ([None]
    for an error, else the number of peers) and whether the context is done
    once the sleep is over. *)
Definition observation : Type := option Z * bool.

Inductive wait_result : Type :=
| FoundPeers                (* [return nil] *)
| TimedOut                  (* ["timed out"] *)
| CouldNotFindPeers         (* ["could not find peers"] *)
| DivideByZero              (* the run-time panic of [interval %= 0] *)
| StillWaiting.             (* the observations ran out *)

(** [haveMinPeers]. *)
Definition haveMinPeers (reply : option Z) (count : Z) : bool * Z :=
  match reply with
  | None => (false, 0)
  | Some nPeers => (count <=? nPeers, nPeers)
  end.

(** The interval after an unsuccessful pass: [interval *= 2],
    [interval %= limit], and [start] in place of [0]. *)
Definition nextInterval (start limit interval : Z) : Z :=
  let doubled := wrap64 (interval * 2) in
  if Z.rem doubled limit =? 0 then start else Z.rem doubled limit.

(** The loop of [WaitForMinPeers] from a given [interval] on; the second
    component lists the arguments of [time.Sleep] in order. *)
Fixpoint waitLoop (obs : list observation) (min start limit : Z)
    (stopAtLimit : bool) (interval : Z) : wait_result * list Z :=
  match obs with
  | [] => (StillWaiting, [])
  | (reply, ctxDone) :: rest =>
      if fst (haveMinPeers reply min) then (FoundPeers, [])
      else if ctxDone then (TimedOut, [interval])
      else if stopAtLimit && (wrap64 (interval * 2) =? limit)
      then (CouldNotFindPeers, [interval])
      else if limit =? 0 then (DivideByZero, [interval])
      else
        let '(result, sleeps) :=
          waitLoop rest min start limit stopAtLimit
                   (nextInterval start limit interval) in
        (result, interval :: sleeps)
  end.

(** [WaitForMinPeers]. *)
Definition WaitForMinPeers (obs : list observation) (min start limit : Z)
    (stopAtLimit : bool) : wait_result * list Z :=
  waitLoop obs min start limit stopAtLimit start.

(** No peer shows up and the context stays alive, for [n] passes. *)
Definition nobody (n : nat) : list observation := replicate n (Some 0, false).

Example backoff_1_to_8 :
  WaitForMinPeers (nobody 7) 1 1 8 false = (StillWaiting, [1; 2; 4; 1; 2; 4; 1]).
Proof. reflexivity. Qed.

Example backoff_1_to_8_stop :
  WaitForMinPeers (nobody 7) 1 1 8 true = (CouldNotFindPeers, [1; 2; 4]).
Proof. reflexivity. Qed.

Example backoff_3_to_10_stop :
  WaitForMinPeers (nobody 7) 1 3 10 true = (StillWaiting, [3; 6; 2; 4; 8; 6; 2]).
Proof. reflexivity. Qed.

Lemma wrap64_small z : - 2 ^ 63 ≤ z < 2 ^ 63 → wrap64 z = z.
Proof.
  intros Hz. unfold wrap64. rewrite Z.mod_small by lia. lia.
Qed.

Lemma nextInterval_below start limit interval :
  0 < interval → interval * 2 < limit → interval * 2 < 2 ^ 63 →
  nextInterval start limit interval = interval * 2.
Proof.
  intros Hpos Hlt Hlim. unfold nextInterval.
  rewrite wrap64_small by lia. rewrite Z.rem_small by lia.
  destruct (Z.eqb_spec (interval * 2) 0); [lia | done].
Qed.

Lemma nextInterval_at_limit start limit interval :
  0 < interval → interval * 2 = limit → interval * 2 < 2 ^ 63 →
  nextInterval start limit interval = start.
Proof.
  intros Hpos Heq Hlim. unfold nextInterval.
  rewrite wrap64_small by lia. rewrite Heq, Z.rem_same by lia. done.
Qed.

Lemma nextInterval_above start limit interval :
  0 < limit < interval * 2 → interval * 2 < 2 ^ 63 →
  nextInterval start limit interval
  = if (interval * 2) mod limit =? 0 then start else (interval * 2) mod limit.
Proof.
  intros Hlim Hint. unfold nextInterval.
  rewrite wrap64_small by lia. by rewrite Z.rem_mod_nonneg by lia.
Qed.

Lemma waitLoop_first obs min start limit stop interval a :
  head (snd (waitLoop obs min start limit stop interval)) = Some a → a = interval.
Proof.
  destruct obs as [|[reply ctxDone] rest]; simpl; [done|].
  repeat case_match; simpl; congruence.
Qed.

Lemma waitLoop_steps obs : ∀ min start limit stop interval i a b,
  snd (waitLoop obs min start limit stop interval) !! i = Some a →
  snd (waitLoop obs min start limit stop interval) !! Datatypes.S i = Some b →
  limit ≠ 0 ∧ (stop = true → wrap64 (a * 2) ≠ limit) ∧
  b = nextInterval start limit a.
Proof.
  induction obs as [|[reply ctxDone] rest IH]; intros min start limit stop interval i a b;
    simpl; [done|].
  destruct (fst (haveMinPeers reply min)); [done|].
  destruct ctxDone; [by destruct i|].
  destruct (stop && (wrap64 (interval * 2) =? limit)) eqn:Hstop; [by destruct i|].
  destruct (Z.eqb_spec limit 0) as [|Hlim]; [by destruct i|].
  pose proof (waitLoop_first rest min start limit stop
                (nextInterval start limit interval)) as Hfirst.
  pose proof (IH min start limit stop (nextInterval start limit interval)) as IH'.
  destruct (waitLoop rest min start limit stop (nextInterval start limit interval))
    as [result sleeps]. simpl in *.
  destruct i as [|i]; simpl.
  - intros [= <-] Hb. split; [done|]. split.
    + intros ->. simpl in Hstop. by apply Z.eqb_neq in Hstop.
    + apply Hfirst. by destruct sleeps.
  - apply IH'.
Qed.

Lemma waitLoop_at_limit obs : ∀ min start limit interval i a,
  snd (waitLoop obs min start limit true interval) !! i = Some a →
  wrap64 (a * 2) = limit →
  (fst (waitLoop obs min start limit true interval) = CouldNotFindPeers ∨
   fst (waitLoop obs min start limit true interval) = TimedOut) ∧
  length (snd (waitLoop obs min start limit true interval)) = Datatypes.S i.
Proof.
  induction obs as [|[reply ctxDone] rest IH]; intros min start limit interval i a;
    simpl; [done|].
  destruct (fst (haveMinPeers reply min)); [done|].
  destruct ctxDone; [destruct i; [by auto | done]|].
  destruct (Z.eqb_spec (wrap64 (interval * 2)) limit) as [Heq|Hne]; simpl.
  - destruct i; [by auto | done].
  - destruct (Z.eqb_spec limit 0) as [|Hlim].
    + destruct i; [|done]. intros [= <-] ?. done.
    + pose proof (IH min start limit (nextInterval start limit interval)) as IH'.
      destruct (waitLoop rest min start limit true (nextInterval start limit interval))
        as [result sleeps]. simpl in *.
      destruct i as [|i]; simpl.
      * intros [= <-] ?. done.
      * intros Ha Hw. destruct (IH' i a Ha Hw) as [Hr Hl]. by rewrite Hl.
Qed.

Lemma waitLoop_fails obs : ∀ min start limit stop interval,
  fst (waitLoop obs min start limit stop interval) = CouldNotFindPeers →
  stop = true ∧
  ∃ a, last (snd (waitLoop obs min start limit stop interval)) = Some a ∧
       wrap64 (a * 2) = limit.
Proof.
  induction obs as [|[reply ctxDone] rest IH]; intros min start limit stop interval;
    simpl; [done|].
  destruct (fst (haveMinPeers reply min)); [done|].
  destruct ctxDone; [done|].
  destruct stop; simpl.
  - destruct (Z.eqb_spec (wrap64 (interval * 2)) limit) as [Heq|Hne]; simpl.
    + intros _. split; [done|]. by exists interval.
    + destruct (limit =? 0); [done|].
      pose proof (IH min start limit true (nextInterval start limit interval)) as IH'.
      destruct (waitLoop rest min start limit true (nextInterval start limit interval))
        as [result sleeps]. simpl in *.
      intros Hr. destruct (IH' Hr) as (_ & a & Ha & Hw).
      split; [done|]. exists a. split; [|done].
      destruct sleeps; [done | by rewrite last_cons, Ha].
  - destruct (limit =? 0); [done|].
    pose proof (IH min start limit false (nextInterval start limit interval)) as IH'.
    destruct (waitLoop rest min start limit false (nextInterval start limit interval))
      as [result sleeps]. simpl in *.
    intros Hr. by destruct (IH' Hr).
Qed.

(** C6, as stated, fails: from 3 ns with limit 10 ns the third interval is
    2 ns, not [min (2 * 6) 10], and with [stopAtLimit] set the call goes on
    waiting after the doubled interval has passed the limit. *)
Lemma backoff_is_not_clamped :
  WaitForMinPeers (nobody 7) 1 3 10 true = (StillWaiting, [3; 6; 2; 4; 8; 6; 2]) ∧
  2 ≠ Z.min (2 * 6) 10.
Proof. split; [reflexivity | discriminate]. Qed.

(** C6, as amended. The first wait is [start]. For two successive waits
    [a] then [b], with [0 < a], the doubling within 64 bits and
    [0 < limit]: [b] is [2 * a] while that is below [limit]; when [2 * a]
    equals [limit], [b] is [start] and [stopAtLimit] is not set; when
    [2 * a] is above [limit], [b] is [2 * a] modulo [limit], or [start]
    when that is zero. With [stopAtLimit] set, a wait whose double equals
    [limit] is the last one and the call returns an error; and the error
    ["could not find peers"] is returned only so. *)
Theorem WaitForMinPeers_backoff (obs : list observation) (min start limit : Z)
    (stopAtLimit : bool) :
  (∀ a, head (snd (WaitForMinPeers obs min start limit stopAtLimit)) = Some a →
        a = start) ∧
  (∀ i a b,
     snd (WaitForMinPeers obs min start limit stopAtLimit) !! i = Some a →
     snd (WaitForMinPeers obs min start limit stopAtLimit) !! Datatypes.S i = Some b →
     0 < a → a * 2 < 2 ^ 63 → 0 < limit →
     (a * 2 < limit → b = a * 2) ∧
     (a * 2 = limit → b = start ∧ stopAtLimit = false) ∧
     (limit < a * 2 →
      b = if (a * 2) mod limit =? 0 then start else (a * 2) mod limit)) ∧
  (∀ i a,
     stopAtLimit = true →
     snd (WaitForMinPeers obs min start limit stopAtLimit) !! i = Some a →
     wrap64 (a * 2) = limit →
     (fst (WaitForMinPeers obs min start limit stopAtLimit) = CouldNotFindPeers ∨
      fst (WaitForMinPeers obs min start limit stopAtLimit) = TimedOut) ∧
     length (snd (WaitForMinPeers obs min start limit stopAtLimit)) = Datatypes.S i) ∧
  (fst (WaitForMinPeers obs min start limit stopAtLimit) = CouldNotFindPeers →
   stopAtLimit = true ∧
   ∃ a, last (snd (WaitForMinPeers obs min start limit stopAtLimit)) = Some a ∧
        wrap64 (a * 2) = limit).
Proof.
  unfold WaitForMinPeers. split; [|split; [|split]].
  - apply waitLoop_first.
  - intros i a b Ha Hb Hpos Hdbl Hlim.
    destruct (waitLoop_steps _ _ _ _ _ _ _ _ _ Ha Hb) as (_ & Hstop & ->).
    split; [|split].
    + intros Hlt. apply nextInterval_below; lia.
    + intros Heq. split; [apply nextInterval_at_limit; lia|].
      destruct stopAtLimit; [|done]. exfalso. apply Hstop; [done|].
      rewrite wrap64_small; lia.
    + intros Hgt. apply nextInterval_above; lia.
  - intros i a ->. apply waitLoop_at_limit.
  - apply waitLoop_fails.
Qed.

Lemma WaitForMinPeers_backoff_witness :
  (2 * 2 < 8 → 4 = 2 * 2) ∧
  (2 * 2 = 8 → 4 = 1 ∧ false = false) ∧
  (8 < 2 * 2 → 4 = if (2 * 2) mod 8 =? 0 then 1 else (2 * 2) mod 8).
Proof.
  destruct (WaitForMinPeers_backoff (nobody 7) 1 1 8 false) as (_ & H & _).
  apply (H 1%nat 2 4); [reflexivity | reflexivity | lia | lia | lia].
Defined.

(** *** Further properties of the wait loop *)

(** A pass that goes on waiting: too few peers, or [AllPeers] failed, and
    the context is alive after the sleep. *)
Definition keepsWaiting (min : Z) (o : observation) : Prop :=
  (haveMinPeers o.1 min).1 = false ∧ o.2 = false.

(** [start], [2 start], [4 start], ..., [n] intervals from [start * 2 ^ j]. *)
Definition doubling (start : Z) (j n : nat) : list Z :=
  (λ i : nat, start * 2 ^ Z.of_nat i) <$> seq j n.

Definition total (sleeps : list Z) : Z := foldr Z.add 0 sleeps.

Lemma waitLoop_found obs : ∀ min start limit stop interval,
  (waitLoop obs min start limit stop interval).1 = FoundPeers →
  ∃ (k : nat) (n : Z) (ctxDone : bool),
    obs !! k = Some (Some n, ctxDone) ∧ min ≤ n ∧
    length (waitLoop obs min start limit stop interval).2 = k ∧
    Forall (keepsWaiting min) (take k obs).
Proof.
  induction obs as [|[reply ctxDone] rest IH]; intros min start limit stop interval;
    cbn [waitLoop]; [done|].
  destruct (haveMinPeers reply min).1 eqn:Hhave.
  - intros _. destruct reply as [n|]; [|done]. cbn in Hhave.
    exists 0%nat, n, ctxDone. split; [done|]. split; [lia|]. by split.
  - destruct ctxDone; [done|].
    destruct (stop && (wrap64 (interval * 2) =? limit)); [done|].
    destruct (limit =? 0); [done|].
    specialize (IH min start limit stop (nextInterval start limit interval)).
    destruct (waitLoop rest min start limit stop (nextInterval start limit interval))
      as [result sleeps]. cbn [fst snd] in *.
    intros Hr. destruct (IH Hr) as (k & n & c & Hk & Hn & Hl & Hall).
    exists (Datatypes.S k), n, c. split; [done|]. split; [done|].
    split; [cbn; by rewrite Hl|]. cbn. by constructor.
Qed.

Lemma nextInterval_within start limit interval :
  0 < start < limit → limit ≤ 2 ^ 62 → 0 < interval < limit →
  0 < nextInterval start limit interval < limit.
Proof.
  intros Hs Hl Hi. unfold nextInterval.
  rewrite wrap64_small by lia. rewrite Z.rem_mod_nonneg by lia.
  pose proof (Z.mod_pos_bound (interval * 2) limit ltac:(lia)).
  destruct (Z.eqb_spec ((interval * 2) mod limit) 0); lia.
Qed.

Lemma waitLoop_within obs : ∀ min start limit stop interval,
  0 < start < limit → limit ≤ 2 ^ 62 → 0 < interval < limit →
  Forall (λ a, 0 < a < limit) (waitLoop obs min start limit stop interval).2 ∧
  (waitLoop obs min start limit stop interval).1 ≠ DivideByZero.
Proof.
  induction obs as [|[reply ctxDone] rest IH]; intros min start limit stop interval
    Hs Hl Hi; cbn [waitLoop]; [done|].
  destruct (haveMinPeers reply min).1; [done|].
  destruct ctxDone; [split; [by constructor | done]|].
  destruct (stop && (wrap64 (interval * 2) =? limit));
    [split; [by constructor | done]|].
  destruct (Z.eqb_spec limit 0); [lia|].
  destruct (IH min start limit stop (nextInterval start limit interval) Hs Hl
              (nextInterval_within _ _ _ Hs Hl Hi)) as [Hall Hne].
  destruct (waitLoop rest min start limit stop (nextInterval start limit interval))
    as [result sleeps]. cbn [fst snd] in *. split; [by constructor | done].
Qed.

Lemma pow2_step (j : nat) : 2 ^ Z.of_nat (Datatypes.S j) = 2 * 2 ^ Z.of_nat j.
Proof. rewrite Nat2Z.inj_succ, Z.pow_succ_r by lia. done. Qed.

Lemma pow2_positive (j : nat) : 0 < 2 ^ Z.of_nat j.
Proof. apply Z.pow_pos_nonneg; lia. Qed.

Lemma pow2_lt (j k : nat) : (j < k)%nat → 2 * 2 ^ Z.of_nat j ≤ 2 ^ Z.of_nat k.
Proof.
  intros Hjk. rewrite <- pow2_step. apply Z.pow_le_mono_r; lia.
Qed.

(** With [stopAtLimit] set and the limit [start * 2 ^ K], the loop that
    starts at [start * 2 ^ j] and keeps waiting gives up after the wait of
    [start * 2 ^ (K - 1)]. *)
Lemma waitLoop_gives_up (n : nat) : ∀ (j K : nat) pre rest min start,
  length pre = Datatypes.S n → (j + Datatypes.S n = K)%nat →
  0 < start → start * 2 ^ Z.of_nat K < 2 ^ 63 →
  Forall (keepsWaiting min) pre →
  waitLoop (pre ++ rest) min start (start * 2 ^ Z.of_nat K) true
           (start * 2 ^ Z.of_nat j)
  = (CouldNotFindPeers, doubling start j (Datatypes.S n)).
Proof.
  induction n as [|n IH]; intros j K pre rest min start Hlen HK Hs Hlim Hall;
    destruct pre as [|[reply ctxDone] pre]; try done;
    apply Forall_cons in Hall as [[Hhave Hctx] Hall]; cbn [fst snd] in Hhave, Hctx;
    subst ctxDone; cbn [app waitLoop]; rewrite Hhave;
    pose proof (pow2_positive j) as Hj; pose proof (pow2_step j) as Hj'.
  - assert (K = Datatypes.S j) as -> by lia.
    rewrite wrap64_small by (rewrite Hj' in Hlim; nia).
    rewrite Hj'. replace (start * 2 ^ Z.of_nat j * 2) with (start * (2 * 2 ^ Z.of_nat j)) by lia.
    rewrite Z.eqb_refl. done.
  - pose proof (pow2_lt (Datatypes.S j) K ltac:(lia)) as Hlt. rewrite Hj' in Hlt.
    pose proof (pow2_positive K) as HKpos.
    rewrite wrap64_small by nia.
    destruct (Z.eqb_spec (start * 2 ^ Z.of_nat j * 2) (start * 2 ^ Z.of_nat K));
      [nia|]. cbn [andb].
    destruct (Z.eqb_spec (start * 2 ^ Z.of_nat K) 0); [nia|].
    rewrite nextInterval_below by nia.
    replace (start * 2 ^ Z.of_nat j * 2) with (start * 2 ^ Z.of_nat (Datatypes.S j))
      by (rewrite Hj'; lia).
    rewrite (IH (Datatypes.S j) K pre rest min start) by (simpl in Hlen; (done || lia)).
    done.
Qed.

Lemma total_doubling start (n : nat) : ∀ j : nat,
  total (doubling start j n)
  = start * 2 ^ Z.of_nat (j + n) - start * 2 ^ Z.of_nat j.
Proof.
  unfold total, doubling.
  induction n as [|n IH]; intros j; cbn [seq fmap list_fmap foldr].
  - rewrite Nat.add_0_r. lia.
  - rewrite IH. replace (j + Datatypes.S n)%nat with (Datatypes.S j + n)%nat by lia.
    rewrite (pow2_step j). lia.
Qed.

(** Without [stopAtLimit] the same loop goes round: after the wait of
    [start * 2 ^ (K - 1)] it is back at [start]. *)
Lemma waitLoop_cycles obs : ∀ (j K : nat) min start,
  (j < K)%nat → 0 < start → start * 2 ^ Z.of_nat K < 2 ^ 63 →
  Forall (keepsWaiting min) obs →
  waitLoop obs min start (start * 2 ^ Z.of_nat K) false (start * 2 ^ Z.of_nat j)
  = (StillWaiting,
     (λ i : nat, start * 2 ^ Z.of_nat ((j + i) mod K)) <$> seq 0 (length obs)).
Proof.
  induction obs as [|[reply ctxDone] rest IH]; intros j K min start HjK Hs Hlim Hall;
    [done|].
  apply Forall_cons in Hall as [[Hhave Hctx] Hall]. cbn [fst snd] in Hhave, Hctx.
  subst ctxDone. cbn [waitLoop length seq fmap list_fmap]. rewrite Hhave. cbn [andb].
  pose proof (pow2_positive j) as Hj. pose proof (pow2_step j) as Hj'.
  pose proof (pow2_positive K) as HKpos.
  pose proof (pow2_lt j K HjK) as Hlt.
  destruct (Z.eqb_spec (start * 2 ^ Z.of_nat K) 0); [nia|].
  rewrite Nat.add_0_r, Nat.mod_small by done.
  rewrite <- fmap_S_seq, <- list_fmap_compose.
  destruct (decide (Datatypes.S j = K)) as [<-|Hne].
  - rewrite nextInterval_at_limit by (rewrite ?Hj'; nia).
    replace start with (start * 2 ^ Z.of_nat 0) at 3 by (change (2 ^ Z.of_nat 0) with 1; lia).
    rewrite (IH 0%nat (Datatypes.S j) min start) by (done || lia).
    f_equal. f_equal. apply list_fmap_ext. intros _ i _. cbn [compose].
    do 3 f_equal.
    replace (j + Datatypes.S i)%nat with (i + 1 * Datatypes.S j)%nat by lia.
    by rewrite Nat.Div0.mod_add.
  - pose proof (pow2_lt (Datatypes.S j) K ltac:(lia)) as Hlt'. rewrite Hj' in Hlt'.
    rewrite nextInterval_below by nia.
    replace (start * 2 ^ Z.of_nat j * 2) with (start * 2 ^ Z.of_nat (Datatypes.S j))
      by (rewrite Hj'; lia).
    rewrite (IH (Datatypes.S j) K min start) by (done || lia).
    f_equal. f_equal. apply list_fmap_ext. intros _ i _. cbn [compose].
    do 4 f_equal. lia.
Qed.

(** X14. [WaitForMinPeers] returns nil only when a poll has seen at least
    [min] peers: the polls before it all fell short, with the context
    alive, the call slept once after each of them, and a failure of
    [AllPeers] never counts as enough peers. *)
Theorem WaitForMinPeers_found (obs : list observation) (min start limit : Z)
    (stopAtLimit : bool) :
  (WaitForMinPeers obs min start limit stopAtLimit).1 = FoundPeers →
  ∃ (k : nat) (n : Z) (ctxDone : bool),
    obs !! k = Some (Some n, ctxDone) ∧ min ≤ n ∧
    length (WaitForMinPeers obs min start limit stopAtLimit).2 = k ∧
    Forall (keepsWaiting min) (take k obs).
Proof. apply waitLoop_found. Qed.

(** X15. With [0 < start < limit] and [limit] at most [2 ^ 62]
    nanoseconds, every wait of [WaitForMinPeers] is positive and below
    [limit], and [interval %= limit] never divides by zero. *)
Theorem WaitForMinPeers_waits_within_limit (obs : list observation)
    (min start limit : Z) (stopAtLimit : bool) :
  0 < start < limit → limit ≤ 2 ^ 62 →
  Forall (λ a, 0 < a < limit) (WaitForMinPeers obs min start limit stopAtLimit).2 ∧
  (WaitForMinPeers obs min start limit stopAtLimit).1 ≠ DivideByZero.
Proof. intros Hs Hl. by apply waitLoop_within. Qed.

(** X16. With [stopAtLimit] set and [limit = start * 2 ^ K], [K] at
    least one, a call that sees too few peers at its first [K] polls,
    the context alive, waits [start], [2 start], ..., [start * 2 ^ (K - 1)]
    and returns ["could not find peers"]; it has then waited
    [limit - start] in all. *)
Theorem WaitForMinPeers_gives_up (K : nat) (pre rest : list observation)
    (min start : Z) :
  length pre = Datatypes.S K → 0 < start →
  start * 2 ^ Z.of_nat (Datatypes.S K) < 2 ^ 63 →
  Forall (keepsWaiting min) pre →
  WaitForMinPeers (pre ++ rest) min start (start * 2 ^ Z.of_nat (Datatypes.S K)) true
  = (CouldNotFindPeers, doubling start 0 (Datatypes.S K)) ∧
  total (doubling start 0 (Datatypes.S K))
  = start * 2 ^ Z.of_nat (Datatypes.S K) - start.
Proof.
  intros Hlen Hs Hlim Hall. split.
  - unfold WaitForMinPeers.
    rewrite <- (waitLoop_gives_up K 0 (Datatypes.S K) pre rest min start)
      by (done || lia).
    f_equal. change (2 ^ Z.of_nat 0) with 1. lia.
  - rewrite total_doubling. change (2 ^ Z.of_nat 0) with 1.
    replace (0 + Datatypes.S K)%nat with (Datatypes.S K) by lia. lia.
Qed.

(** X17. Without [stopAtLimit] and with [limit = start * 2 ^ K], [K] at
    least one, the waits of a call that keeps seeing too few peers go
    round: the wait after poll [i] is [start * 2 ^ (i mod K)], so the
    back-off is reset to [start] after every [K] polls. *)
Theorem WaitForMinPeers_backoff_cycles (K : nat) (obs : list observation)
    (min start : Z) :
  (1 ≤ K)%nat → 0 < start → start * 2 ^ Z.of_nat K < 2 ^ 63 →
  Forall (keepsWaiting min) obs →
  WaitForMinPeers obs min start (start * 2 ^ Z.of_nat K) false
  = (StillWaiting,
     (λ i : nat, start * 2 ^ Z.of_nat (i mod K)) <$> seq 0 (length obs)).
Proof.
  intros HK Hs Hlim Hall. unfold WaitForMinPeers.
  replace start with (start * 2 ^ Z.of_nat 0) at 3
    by (change (2 ^ Z.of_nat 0) with 1; lia).
  by rewrite (waitLoop_cycles obs 0 K min start) by (done || lia).
Qed.

Lemma WaitForMinPeers_found_witness :
  ∃ (k : nat) (n : Z) (ctxDone : bool),
    (nobody 2 ++ [(Some 3, false)]) !! k = Some (Some n, ctxDone) ∧ 1 ≤ n ∧
    length (WaitForMinPeers (nobody 2 ++ [(Some 3, false)]) 1 1 8 true).2 = k ∧
    Forall (keepsWaiting 1) (take k (nobody 2 ++ [(Some 3, false)])).
Proof.
  apply (WaitForMinPeers_found (nobody 2 ++ [(Some 3, false)]) 1 1 8 true).
  reflexivity.
Defined.

Lemma WaitForMinPeers_waits_within_limit_witness :
  Forall (λ a, 0 < a < 10) (WaitForMinPeers (nobody 7) 1 3 10 true).2 ∧
  (WaitForMinPeers (nobody 7) 1 3 10 true).1 ≠ DivideByZero.
Proof.
  apply (WaitForMinPeers_waits_within_limit (nobody 7) 1 3 10 true); lia.
Defined.

Lemma WaitForMinPeers_gives_up_witness :
  WaitForMinPeers (nobody 3 ++ nobody 4) 1 1 (1 * 2 ^ Z.of_nat 3) true
  = (CouldNotFindPeers, doubling 1 0 3) ∧
  total (doubling 1 0 3) = 1 * 2 ^ Z.of_nat 3 - 1.
Proof.
  apply (WaitForMinPeers_gives_up 2 (nobody 3) (nobody 4) 1 1).
  - reflexivity.
  - lia.
  - vm_compute. reflexivity.
  - by repeat constructor.
Defined.

Lemma WaitForMinPeers_backoff_cycles_witness :
  WaitForMinPeers (nobody 7) 1 1 (1 * 2 ^ Z.of_nat 3) false
  = (StillWaiting,
     (λ i : nat, 1 * 2 ^ Z.of_nat (i mod 3)) <$> seq 0 (length (nobody 7))).
Proof.
  apply (WaitForMinPeers_backoff_cycles 3 (nobody 7) 1 1).
  - lia.
  - lia.
  - vm_compute. reflexivity.
  - by repeat constructor.
Defined.

End Commons.

(** ** Binary64 arithmetic, as [share.go] uses it

    Go's [float64] is IEEE 754 binary64, rendered by the specification of
    the Standard Library: 53 bits of precision, rounding to nearest even. *)

Module Float64.

Definition prec : Z := 53.
Definition emax : Z := 1024.

Lemma digits2_pos_size p : digits2_pos p = Pos.size p.
Proof. induction p; simpl; congruence. Qed.

Lemma Zdigits2_bounds (p : positive) :
  2 ^ (Zdigits2 (Zpos p) - 1) ≤ Zpos p < 2 ^ Zdigits2 (Zpos p).
Proof.
  change (Zdigits2 (Zpos p)) with (Zpos (digits2_pos p)).
  rewrite digits2_pos_size.
  pose proof (Pos.size_gt p) as Hgt. pose proof (Pos.size_le p) as Hle.
  apply Pos2Z.pos_lt_pos in Hgt. apply Pos2Z.pos_le_pos in Hle.
  rewrite Pos2Z.inj_pow in Hgt, Hle.
  set (s := Zpos (Pos.size p)) in *.
  assert (Hs : 2 ^ s = 2 * 2 ^ (s - 1)).
  { rewrite <- Z.pow_succ_r by (unfold s; lia). f_equal. lia. }
  change ((2 * 1) ^ s) with (2 ^ s) in Hle.
  change (Z.pos p~0) with (2 * Z.pos p) in Hle. lia.
Qed.

Lemma Zdigits2_unique (p : positive) (d : Z) :
  2 ^ (d - 1) ≤ Zpos p < 2 ^ d → Zdigits2 (Zpos p) = d.
Proof.
  intros [Hlo Hhi]. pose proof (Zdigits2_bounds p) as [Hlo' Hhi'].
  assert (0 < d).
  { destruct (Z.ltb_spec 0 d); [done|]. exfalso.
    assert (2 ^ d ≤ 1); [|lia].
    destruct (Z.eq_dec d 0) as [->|]; [done|]. rewrite Z.pow_neg_r; lia. }
  assert (0 < Zdigits2 (Zpos p)) by (simpl; lia).
  destruct (Z.lt_trichotomy (Zdigits2 (Zpos p)) d) as [Hlt|[Heq|Hgt]]; [|done|].
  - exfalso. assert (2 ^ Zdigits2 (Zpos p) ≤ 2 ^ (d - 1)) by (apply Z.pow_le_mono_r; lia). lia.
  - exfalso. assert (2 ^ d ≤ 2 ^ (Zdigits2 (Zpos p) - 1)) by (apply Z.pow_le_mono_r; lia). lia.
Qed.


Lemma shr_1_m mrs : 0 ≤ shr_m mrs → shr_m (shr_1 mrs) = shr_m mrs / 2.
Proof.
  destruct mrs as [m r s]. cbn [shr_m]. intros Hm.
  destruct m as [|[p|p|]|p]; cbn [shr_1 shr_m].
  - reflexivity.
  - apply (Z.div_unique _ _ _ 1); lia.
  - apply (Z.div_unique _ _ _ 0); lia.
  - reflexivity.
  - lia.
Qed.

Lemma pow2_xO (p : positive) : 2 ^ Zpos p~0 = 2 ^ Zpos p * 2 ^ Zpos p.
Proof. rewrite <- Z.pow_add_r by lia. f_equal. lia. Qed.

Lemma pow2_xI (p : positive) : 2 ^ Zpos p~1 = 2 * (2 ^ Zpos p * 2 ^ Zpos p).
Proof.
  rewrite <- Z.pow_add_r, <- Z.pow_succ_r by lia. f_equal. lia.
Qed.

Lemma pow2_pos (k : Z) : 0 ≤ k → 0 < 2 ^ k.
Proof. intros. apply Z.pow_pos_nonneg; lia. Qed.

Lemma iter_shr_m (p : positive) : ∀ mrs,
  0 ≤ shr_m mrs → shr_m (SpecFloat.iter_pos shr_1 p mrs) = shr_m mrs / 2 ^ Zpos p.
Proof.
  induction p as [p IH|p IH|]; intros mrs Hm; cbn [SpecFloat.iter_pos].
  - pose proof (pow2_pos (Zpos p) ltac:(lia)).
    assert (H1 : 0 ≤ shr_m (shr_1 mrs)).
    { rewrite shr_1_m by done. apply Z.div_pos; lia. }
    assert (H2 : 0 ≤ shr_m (SpecFloat.iter_pos shr_1 p (shr_1 mrs))).
    { rewrite IH by done. apply Z.div_pos; lia. }
    rewrite IH, IH, shr_1_m by done.
    rewrite !Z.div_div by lia. by rewrite pow2_xI, Z.mul_assoc.
  - pose proof (pow2_pos (Zpos p) ltac:(lia)).
    assert (H2 : 0 ≤ shr_m (SpecFloat.iter_pos shr_1 p mrs)).
    { rewrite IH by done. apply Z.div_pos; lia. }
    rewrite IH, IH by done.
    rewrite !Z.div_div by lia. by rewrite pow2_xO.
  - rewrite shr_1_m by done. done.
Qed.

(** A record whose round and sticky bits are clear. *)
Definition clean (mrs : shr_record) : Prop :=
  shr_r mrs = false ∧ shr_s mrs = false.

Lemma shr_1_clean mrs c :
  clean mrs → 0 ≤ c → shr_m mrs = 2 * c → clean (shr_1 mrs) ∧ shr_m (shr_1 mrs) = c.
Proof.
  destruct mrs as [m r s]. intros [Hr Hs] Hc Hm. simpl in *. subst r s m.
  destruct c as [|c|c]; [done | done | lia].
Qed.

Lemma iter_shr_clean (p : positive) : ∀ mrs c,
  clean mrs → 0 ≤ c → shr_m mrs = 2 ^ Zpos p * c →
  clean (SpecFloat.iter_pos shr_1 p mrs) ∧ shr_m (SpecFloat.iter_pos shr_1 p mrs) = c.
Proof.
  induction p as [p IH|p IH|]; intros mrs c Hcl Hc Hm; cbn [SpecFloat.iter_pos].
  - pose proof (pow2_pos (Zpos p) ltac:(lia)).
    rewrite pow2_xI in Hm.
    destruct (shr_1_clean mrs (2 ^ Zpos p * (2 ^ Zpos p * c)) Hcl) as [Hcl1 Hm1];
      [nia | lia |].
    destruct (IH (shr_1 mrs) (2 ^ Zpos p * c) Hcl1) as [Hcl2 Hm2]; [nia | done |].
    by apply IH.
  - pose proof (pow2_pos (Zpos p) ltac:(lia)).
    rewrite pow2_xO in Hm.
    destruct (IH mrs (2 ^ Zpos p * c) Hcl) as [Hcl2 Hm2]; [nia | lia |].
    by apply IH.
  - by apply shr_1_clean.
Qed.

Lemma shr_spec mrs e n :
  0 ≤ n → 0 ≤ shr_m mrs →
  shr_m (fst (shr mrs e n)) = shr_m mrs / 2 ^ n ∧ snd (shr mrs e n) = e + n.
Proof.
  intros Hn Hm. destruct n as [|p|p]; cbn [shr fst snd]; [| |lia].
  - rewrite Z.pow_0_r, Z.div_1_r. lia.
  - by rewrite iter_shr_m.
Qed.

Lemma shr_clean mrs e n c :
  0 ≤ n → clean mrs → 0 ≤ c → shr_m mrs = 2 ^ n * c → clean (fst (shr mrs e n)).
Proof.
  intros Hn Hcl Hc Hm. destruct n as [|p|p]; cbn [shr fst]; [done | | lia].
  by destruct (iter_shr_clean p mrs c).
Qed.

Lemma loc_of_clean mrs : clean mrs → loc_of_shr_record mrs = loc_Exact.
Proof. destruct mrs as [m r s]. intros [Hr Hs]. simpl in Hr, Hs. by subst. Qed.

Lemma shr_record_of_loc_m m l : shr_m (shr_record_of_loc m l) = m.
Proof. by destruct l as [|[]]. Qed.

Lemma shr_record_of_exact m : clean (shr_record_of_loc m loc_Exact).
Proof. done. Qed.

Lemma round_nearest_even_bounds m l :
  m ≤ round_nearest_even m l ≤ m + 1.
Proof.
  destruct l as [|[]]; simpl; try lia. destruct (Z.even m); lia.
Qed.

Lemma fexp_normal e : -1021 ≤ e → fexp prec emax e = e - 53.
Proof. intros. unfold fexp, emin, prec, emax. lia. Qed.

(** The second normalisation of [binary_round_aux]: a mantissa of 53 bits,
    or [2 ^ 53] after rounding up, becomes a canonical float of the same
    value. *)
Lemma renormalise (sx : bool) (m2 e1 : Z) :
  2 ^ 52 ≤ m2 ≤ 2 ^ 53 → -1074 ≤ e1 ≤ 970 →
  ∃ (m3 : positive) (e3 : Z),
    (let '(mrs, e) := shr_fexp prec emax m2 e1 loc_Exact in
     match shr_m mrs with
     | Z0 => S754_zero sx
     | Zpos m => if e <=? emax - prec then S754_finite sx m e else S754_infinity sx
     | Zneg _ => S754_nan
     end) = S754_finite sx m3 e3 ∧
    Zdigits2 (Zpos m3) = 53 ∧ e1 ≤ e3 ∧ Zpos m3 * 2 ^ (e3 - e1) = m2.
Proof.
  intros Hm He. destruct m2 as [|m2|m2]; [lia | | lia].
  unfold shr_fexp.
  destruct (Z.eq_dec (Zpos m2) (2 ^ 53)) as [Heq|Hne].
  - assert (Hd : Zdigits2 (Zpos m2) = 54) by (apply Zdigits2_unique; lia).
    rewrite Hd, fexp_normal by lia.
    replace (54 + e1 - 53 - e1) with 1 by lia.
    pose proof (shr_spec (shr_record_of_loc (Zpos m2) loc_Exact) e1 1
                  ltac:(lia) ltac:(simpl; lia)) as [Hs1 Hs2].
    destruct (shr (shr_record_of_loc (Zpos m2) loc_Exact) e1 1) as [mrs e].
    cbn [fst snd] in Hs1, Hs2. rewrite shr_record_of_loc_m, Heq in Hs1.
    change (2 ^ 53 / 2 ^ 1) with (Zpos 4503599627370496) in Hs1.
    rewrite Hs1, Hs2. unfold prec, emax.
    destruct (Z.leb_spec (e1 + 1) (1024 - 53)); [|lia].
    exists 4503599627370496%positive, (e1 + 1).
    split; [done|]. split; [done|]. split; [lia|].
    replace (e1 + 1 - e1) with 1 by lia. by rewrite Heq.
  - assert (Hd : Zdigits2 (Zpos m2) = 53) by (apply Zdigits2_unique; lia).
    exists m2, e1. rewrite Hd, fexp_normal by lia.
    replace (53 + e1 - 53 - e1) with 0 by lia. cbn [shr shr_record_of_loc shr_m].
    unfold prec, emax. destruct (Z.leb_spec e1 (1024 - 53)); [|lia].
    split; [done|]. split; [done|]. split; [lia|].
    rewrite Z.sub_diag. lia.
Qed.

(** [binary_round_aux] on a positive mantissa of at least 53 bits, away from
    the subnormal and the overflow range: the result is a canonical float;
    its value, in units of the last place kept, is the mantissa shifted right
    or one more, and is the shifted mantissa when nothing is lost. *)
Lemma binary_round_aux_normal (mx : positive) (ex : Z) (lx : location) (d : Z) :
  Zdigits2 (Zpos mx) = d → 53 ≤ d → -1074 ≤ ex + (d - 53) ≤ 970 →
  ∃ (m3 : positive) (e3 m2 : Z),
    binary_round_aux prec emax false (Zpos mx) ex lx = S754_finite false m3 e3 ∧
    Zdigits2 (Zpos m3) = 53 ∧
    ex + (d - 53) ≤ e3 ∧
    Zpos m3 * 2 ^ (e3 - (ex + (d - 53))) = m2 ∧
    Zpos mx / 2 ^ (d - 53) ≤ m2 ≤ Zpos mx / 2 ^ (d - 53) + 1 ∧
    (lx = loc_Exact → ∀ c, 0 ≤ c → Zpos mx = 2 ^ (d - 53) * c → m2 = c).
Proof.
  intros Hd Hd53 He.
  pose proof (pow2_pos (d - 53) ltac:(lia)) as Hpow.
  unfold binary_round_aux. unfold shr_fexp at 1.
  rewrite Hd, fexp_normal by lia.
  replace (d + ex - 53 - ex) with (d - 53) by lia.
  pose proof (shr_spec (shr_record_of_loc (Zpos mx) lx) ex (d - 53)
                ltac:(lia) ltac:(rewrite shr_record_of_loc_m; lia)) as [Hs1 Hs2].
  pose proof (λ c, shr_clean (shr_record_of_loc (Zpos mx) lx) ex (d - 53) c
                     ltac:(lia)) as Hclean.
  destruct (shr (shr_record_of_loc (Zpos mx) lx) ex (d - 53)) as [mrs1 e1].
  cbn [fst snd] in Hs1, Hs2, Hclean. rewrite shr_record_of_loc_m in Hs1, Hclean.
  subst e1.
  assert (Hm1 : 2 ^ 52 ≤ shr_m mrs1 < 2 ^ 53).
  { rewrite Hs1. pose proof (Zdigits2_bounds mx) as Hb. rewrite Hd in Hb.
    assert (H1 : 2 ^ (d - 1) = 2 ^ 52 * 2 ^ (d - 53)).
    { rewrite <- Z.pow_add_r by lia. f_equal. lia. }
    assert (H2 : 2 ^ d = 2 ^ 53 * 2 ^ (d - 53)).
    { rewrite <- Z.pow_add_r by lia. f_equal. lia. }
    split.
    - apply Z.div_le_lower_bound; lia.
    - apply Z.div_lt_upper_bound; lia. }
  pose proof (round_nearest_even_bounds (shr_m mrs1) (loc_of_shr_record mrs1)) as Hr.
  destruct (renormalise false
              (round_nearest_even (shr_m mrs1) (loc_of_shr_record mrs1))
              (ex + (d - 53)) ltac:(lia) ltac:(lia))
    as (m3 & e3 & Heq & Hd3 & He3 & Hv).
  exists m3, e3, (round_nearest_even (shr_m mrs1) (loc_of_shr_record mrs1)).
  split; [exact Heq|]. split; [done|]. split; [done|]. split; [done|].
  split; [lia|].
  intros -> c Hc Hmx.
  rewrite loc_of_clean by (by apply (Hclean c)). cbn [round_nearest_even].
  rewrite Hs1, Hmx, Z.mul_comm, Z.div_mul by lia. done.
Qed.

(** *** Canonical floats of integer value *)

(** [x] is the positive finite float of value [N], with a mantissa of 53
    bits and an exponent that is not positive. *)
Definition represents (x : spec_float) (N : Z) : Prop :=
  ∃ (m : positive) (e : Z),
    x = S754_finite false m e ∧ Zdigits2 (Zpos m) = 53 ∧ e ≤ 0 ∧
    Zpos m = N * 2 ^ (- e).

Lemma mantissa_53 (m : positive) :
  Zdigits2 (Zpos m) = 53 → 2 ^ 52 ≤ Zpos m < 2 ^ 53.
Proof. intros H. pose proof (Zdigits2_bounds m) as Hb. by rewrite H in Hb. Qed.

(** A value of [c] units of [2 ^ e], with [c] of 53 bits, rounds to itself. *)
Lemma binary_round_aux_exact (mx : positive) (ex d c : Z) :
  Zdigits2 (Zpos mx) = d → 53 ≤ d → -1074 ≤ ex + (d - 53) ≤ 970 →
  0 ≤ c → Zpos mx = 2 ^ (d - 53) * c →
  binary_round_aux prec emax false (Zpos mx) ex loc_Exact
  = S754_finite false (Z.to_pos c) (ex + (d - 53)).
Proof.
  intros Hd Hd53 He Hc Hmx.
  destruct (binary_round_aux_normal mx ex loc_Exact d Hd Hd53 He)
    as (m3 & e3 & m2 & -> & Hd3 & He3 & Hv & _ & Hex).
  specialize (Hex eq_refl c Hc Hmx). rewrite Hex in Hv. clear Hex m2.
  pose proof (mantissa_53 m3 Hd3) as Hm3.
  pose proof (pow2_pos (d - 53) ltac:(lia)) as Hpow.
  assert (Hc53 : 2 ^ 52 ≤ c < 2 ^ 53).
  { pose proof (Zdigits2_bounds mx) as Hb. rewrite Hd in Hb.
    assert (H1 : 2 ^ (d - 1) = 2 ^ (d - 53) * 2 ^ 52).
    { rewrite <- Z.pow_add_r by lia. f_equal. lia. }
    assert (H2 : 2 ^ d = 2 ^ (d - 53) * 2 ^ 53).
    { rewrite <- Z.pow_add_r by lia. f_equal. lia. }
    nia. }
  assert (e3 = ex + (d - 53)) as ->.
  { destruct (Z.eq_dec e3 (ex + (d - 53))) as [|Hne]; [done|]. exfalso.
    assert (H2 : 2 ^ (e3 - (ex + (d - 53))) = 2 * 2 ^ (e3 - (ex + (d - 53)) - 1)).
    { rewrite <- Z.pow_succ_r by lia. f_equal. lia. }
    pose proof (pow2_pos (e3 - (ex + (d - 53)) - 1) ltac:(lia)). nia. }
  rewrite Z.sub_diag, Z.pow_0_r, Z.mul_1_r in Hv. subst c. done.
Qed.

Lemma pos_iter_xO (p k : positive) : Zpos (Pos.iter xO p k) = Zpos p * 2 ^ Zpos k.
Proof.
  induction k as [|k IH] using Pos.peano_ind.
  - simpl. lia.
  - rewrite Pos.iter_succ, Pos2Z.inj_xO, IH, Pos2Z.inj_succ, Z.pow_succ_r by lia. lia.
Qed.

(** [float64(n)] for a Go integer. *)
Definition of_int (n : Z) : spec_float := binary_normalize prec emax n 0 false.

Lemma of_int_represents (N : Z) : 0 < N < 2 ^ 53 → represents (of_int N) N.
Proof.
  intros HN. destruct N as [|p|p]; [lia | | lia].
  unfold of_int, binary_normalize, binary_round.
  pose proof (Zdigits2_bounds p) as Hb.
  change (Zdigits2 (Zpos p)) with (Zpos (digits2_pos p)) in Hb.
  set (d := Zpos (digits2_pos p)) in *.
  assert (Hd : 1 ≤ d ≤ 53).
  { split; [unfold d; lia|]. destruct (Z.le_gt_cases d 53); [done|]. exfalso.
    assert (2 ^ 53 ≤ 2 ^ (d - 1)) by (apply Z.pow_le_mono_r; lia). lia. }
  rewrite Z.add_0_r, fexp_normal by lia. unfold shl_align.
  destruct (d - 53 - 0) as [|k|k] eqn:Hk; [| lia |].
  - assert (d = 53) as Hd53 by lia.
    rewrite (binary_round_aux_exact p 0 53 (Zpos p)); [|done|lia|lia|lia|lia].
    exists p, 0. split; [done|]. split; [by rewrite <- Hd53|]. split; [lia|].
    simpl. lia.
  - assert (Hmz : Zpos (Pos.iter xO p k) = Zpos p * 2 ^ (53 - d)).
    { rewrite pos_iter_xO. f_equal. f_equal. lia. }
    assert (Hdz : Zdigits2 (Zpos (Pos.iter xO p k)) = 53).
    { apply Zdigits2_unique. rewrite Hmz.
      assert (H1 : 2 ^ (53 - 1) = 2 ^ (d - 1) * 2 ^ (53 - d)).
      { rewrite <- Z.pow_add_r by lia. f_equal. lia. }
      assert (H2 : 2 ^ 53 = 2 ^ d * 2 ^ (53 - d)).
      { rewrite <- Z.pow_add_r by lia. f_equal. lia. }
      pose proof (pow2_pos (53 - d) ltac:(lia)). rewrite H1, H2. nia. }
    rewrite (binary_round_aux_exact _ (d - 53) 53 (Zpos (Pos.iter xO p k)));
      [|done|lia|lia|lia|lia].
    exists (Pos.iter xO p k), (d - 53). rewrite Z.sub_diag, Z.add_0_r.
    split; [done|]. split; [done|]. split; [lia|].
    rewrite Hmz. f_equal. f_equal. lia.
Qed.

Lemma represents_unique x y N : represents x N → represents y N → x = y.
Proof.
  intros (m & e & -> & Hd & He & Hm) (m' & e' & -> & Hd' & He' & Hm').
  apply mantissa_53 in Hd, Hd'.
  assert (HN : 0 < N).
  { pose proof (pow2_pos (- e) ltac:(lia)). nia. }
  assert (Hmono : ∀ a b, 0 ≤ a → a < b → 2 * 2 ^ a ≤ 2 ^ b).
  { intros a b Ha Hab. rewrite <- Z.pow_succ_r by lia.
    apply Z.pow_le_mono_r; lia. }
  assert (e = e') as <-.
  { destruct (Z.lt_trichotomy e e') as [Hlt|[Heq|Hgt]]; [|done|]; exfalso.
    - pose proof (Hmono (- e') (- e) ltac:(lia) ltac:(lia)).
      pose proof (pow2_pos (- e') ltac:(lia)). nia.
    - pose proof (Hmono (- e) (- e') ltac:(lia) ltac:(lia)).
      pose proof (pow2_pos (- e) ltac:(lia)). nia. }
  assert (m = m') as <- by lia. done.
Qed.

(** *** Multiplying by one or two, dividing by three *)

Definition fmul : spec_float → spec_float → spec_float := SFmul prec emax.
Definition fdiv : spec_float → spec_float → spec_float := SFdiv prec emax.

Lemma represents_negative_exponent m e N :
  Zdigits2 (Zpos m) = 53 → e ≤ 0 → Zpos m = N * 2 ^ (- e) → N < 2 ^ 52 → e < 0.
Proof.
  intros Hd He Hm HN. apply mantissa_53 in Hd.
  destruct (Z.eq_dec e 0) as [->|]; [|lia]. simpl in Hm. lia.
Qed.

Lemma fmul_pow2 (m : positive) (e ec : Z) :
  Zdigits2 (Zpos m) = 53 → -1000 ≤ e + ec ≤ 900 →
  fmul (S754_finite false m e) (S754_finite false 4503599627370496 ec)
  = S754_finite false m (e + ec + 52).
Proof.
  intros Hd He. apply mantissa_53 in Hd. unfold fmul, SFmul. cbn [xorb].
  rewrite (binary_round_aux_exact _ (e + ec) 105 (Zpos m)).
  - f_equal; lia.
  - apply Zdigits2_unique. rewrite Pos2Z.inj_mul.
    change (Zpos 4503599627370496) with (2 ^ 52).
    change (2 ^ (105 - 1)) with (2 ^ 52 * 2 ^ 52).
    change (2 ^ 105) with (2 ^ 53 * 2 ^ 52). nia.
  - lia.
  - lia.
  - lia.
  - rewrite Pos2Z.inj_mul. change (Zpos 4503599627370496) with (2 ^ (105 - 53)). lia.
Qed.

Lemma fmul_two x N :
  represents x N → 0 < N < 2 ^ 52 → represents (fmul x (of_int 2)) (2 * N).
Proof.
  intros (m & e & -> & Hd & He & Hm) HN.
  pose proof (represents_negative_exponent m e N Hd He Hm ltac:(lia)) as Hneg.
  pose proof (mantissa_53 m Hd) as Hm53.
  assert (-53 ≤ e).
  { destruct (Z.le_gt_cases (-53) e); [done|]. exfalso.
    assert (2 ^ 54 ≤ 2 ^ (- e)) by (apply Z.pow_le_mono_r; lia). nia. }
  change (of_int 2) with (S754_finite false 4503599627370496 (-51)).
  rewrite fmul_pow2 by (done || lia).
  exists m, (e + -51 + 52). split; [done|]. split; [done|]. split; [lia|].
  rewrite Hm. replace (- e) with (Z.succ (- (e + -51 + 52))) by lia.
  rewrite Z.pow_succ_r by lia. lia.
Qed.

Lemma fmul_one x N :
  represents x N → 0 < N < 2 ^ 53 → represents (fmul x (of_int 1)) N.
Proof.
  intros (m & e & -> & Hd & He & Hm) HN.
  pose proof (mantissa_53 m Hd) as Hm53.
  assert (-53 ≤ e).
  { destruct (Z.le_gt_cases (-53) e); [done|]. exfalso.
    assert (2 ^ 54 ≤ 2 ^ (- e)) by (apply Z.pow_le_mono_r; lia). nia. }
  change (of_int 1) with (S754_finite false 4503599627370496 (-52)).
  rewrite fmul_pow2 by (done || lia).
  exists m, (e + -52 + 52). split; [done|]. split; [done|]. split; [lia|].
  rewrite Hm. f_equal. f_equal. lia.
Qed.

(** The arithmetic behind the division: the quotient [4NE/3], cut to the
    last place kept and rounded either way, lies in the unit interval that
    ends at the ceiling of [N/3]. *)
Lemma ceil_bracket (N E T P q m2 K : Z) :
  0 < N → 2 ≤ E → T = 1 ∨ T = 2 → P * T = 4 * E →
  3 * q ≤ 4 * (N * E) < 3 * q + 3 →
  q / T ≤ m2 ≤ q / T + 1 →
  (N mod 3 = 0 → m2 = P * K) →
  K = (N + 2) / 3 →
  (K - 1) * P < m2 ≤ K * P.
Proof.
  intros HN HE HT HP Hq Hm2 Hexact HK.
  assert (Hcases : N = 3 * K ∨ N = 3 * K - 1 ∨ N = 3 * K - 2).
  { clear - HN HK. pose proof (Z.div_mod (N + 2) 3 ltac:(lia)).
    pose proof (Z.mod_pos_bound (N + 2) 3 ltac:(lia)). lia. }
  destruct Hcases as [H0|[H1|H2]].
  - rewrite Hexact by (rewrite H0, Z.mul_comm; apply Z.mod_mul; lia). nia.
  - assert (HNE : N * E = 3 * (K * E) - E) by (rewrite H1; ring).
    destruct HT as [-> | ->].
    + rewrite Z.div_1_r in Hm2.
      assert (K * P = 4 * (K * E)) by nia.
      assert ((K - 1) * P = 4 * (K * E) - 4 * E) by nia. lia.
    + pose proof (Z.div_mod q 2 ltac:(lia)).
      pose proof (Z.mod_pos_bound q 2 ltac:(lia)).
      assert (K * P = 2 * (K * E)) by nia.
      assert ((K - 1) * P = 2 * (K * E) - 2 * E) by nia. lia.
  - assert (HNE : N * E = 3 * (K * E) - 2 * E) by (rewrite H2; ring).
    destruct HT as [-> | ->].
    + rewrite Z.div_1_r in Hm2.
      assert (K * P = 4 * (K * E)) by nia.
      assert ((K - 1) * P = 4 * (K * E) - 4 * E) by nia. lia.
    + pose proof (Z.div_mod q 2 ltac:(lia)).
      pose proof (Z.mod_pos_bound q 2 ltac:(lia)).
      assert (K * P = 2 * (K * E)) by nia.
      assert ((K - 1) * P = 2 * (K * E) - 2 * E) by nia. lia.
Qed.

Lemma fdiv_three x N :
  represents x N → 0 < N < 2 ^ 52 →
  ∃ (m3 : positive) (e3 : Z),
    fdiv x (of_int 3) = S754_finite false m3 e3 ∧ -60 ≤ e3 < 0 ∧
    ((N + 2) / 3 - 1) * 2 ^ (- e3) < Zpos m3 ≤ (N + 2) / 3 * 2 ^ (- e3).
Proof.
  intros (m & e & -> & Hd & He & Hm) HN.
  pose proof (represents_negative_exponent m e N Hd He Hm ltac:(lia)) as Hneg.
  pose proof (mantissa_53 m Hd) as Hm53.
  assert (He53 : -53 ≤ e).
  { destruct (Z.le_gt_cases (-53) e); [done|]. exfalso.
    assert (2 ^ 54 ≤ 2 ^ (- e)) by (apply Z.pow_le_mono_r; lia). nia. }
  set (E := 2 ^ (- e)) in *.
  assert (HE : 2 ≤ E).
  { unfold E. change 2 with (2 ^ 1) at 1. apply Z.pow_le_mono_r; lia. }
  set (K := (N + 2) / 3).
  change (of_int 3) with (S754_finite false 6755399441055744 (-51)).
  unfold fdiv, SFdiv. cbn [xorb]. unfold SFdiv_core_binary.
  rewrite Hd. change (Zdigits2 (Zpos 6755399441055744)) with 53.
  replace (53 + e - (53 + -51)) with (e + 51) by lia.
  rewrite fexp_normal by lia.
  replace (Z.min (e + 51 - 53) (e - -51)) with (e - 2) by lia.
  replace (e - -51 - (e - 2)) with 53 by lia.
  cbv iota. rewrite Z.shiftl_mul_pow2 by lia.
  pose proof (Z_div_mod (Zpos m * 2 ^ 53) (Zpos 6755399441055744) ltac:(lia)) as Hdm.
  destruct (Z.div_eucl (Zpos m * 2 ^ 53) (Zpos 6755399441055744)) as [q r].
  destruct Hdm as [Hdm Hr].
  assert (Hq : 3 * q ≤ 4 * (N * E) < 3 * q + 3) by lia.
  assert (Hq53 : 2 ^ 52 ≤ q < 2 ^ 54) by lia.
  destruct q as [|qp|qp]; [lia | | lia].
  set (d := Zdigits2 (Zpos qp)).
  assert (Hdq : d = 53 ∨ d = 54).
  { destruct (Z.lt_ge_cases (Zpos qp) (2 ^ 53)).
    - left. apply Zdigits2_unique. lia.
    - right. apply Zdigits2_unique. lia. }
  destruct (binary_round_aux_normal qp (e - 2)
              (new_location (Zpos 6755399441055744) r) d eq_refl
              ltac:(lia) ltac:(lia))
    as (m3 & e3 & m2 & Heq & Hd3 & He3 & Hv & Hb & Hex).
  pose proof (mantissa_53 m3 Hd3) as Hm3.
  pose proof (Zdigits2_bounds qp) as Hqb. fold d in Hqb.
  set (T := 2 ^ (d - 53)) in *.
  assert (HT : T = 1 ∨ T = 2) by (unfold T; destruct Hdq as [-> | ->]; auto).
  set (J := 2 ^ (e3 - (e - 2 + (d - 53)))) in *.
  assert (HJ : 0 < J) by (apply pow2_pos; lia).
  set (P := 2 ^ (- (e - 2 + (d - 53)))).
  assert (HP : P * T = 4 * E).
  { unfold P, T, E. rewrite <- Z.pow_add_r by lia.
    replace (- (e - 2 + (d - 53)) + (d - 53)) with (2 + - e) by lia.
    rewrite Z.pow_add_r by lia. done. }
  assert (Hm2 : m2 ≤ 2 ^ 53).
  { assert (Zpos qp / T < 2 ^ 53); [|lia].
    apply Z.div_lt_upper_bound; [lia|].
    destruct Hdq as [Hd' | Hd']; rewrite Hd' in Hqb; unfold T; rewrite Hd';
      simpl in *; lia. }
  assert (He3' : e3 < 0).
  { destruct (Z.lt_ge_cases e3 0); [done|]. exfalso.
    assert (4 ≤ J); [|nia].
    unfold J. change 4 with (2 ^ 2). apply Z.pow_le_mono_r; lia. }
  assert (HPJ : P = 2 ^ (- e3) * J).
  { unfold P, J. rewrite <- Z.pow_add_r by lia. f_equal. lia. }
  exists m3, e3. split; [exact Heq|]. split; [lia|].
  assert (Hbr : (K - 1) * P < m2 ≤ K * P).
  { apply (ceil_bracket N E T P (Zpos qp) m2 K); try done; try lia.
    intros Hmod.
    assert (HNK : N = 3 * K).
    { unfold K. pose proof (Z.div_mod N 3 ltac:(lia)) as H1.
      pose proof (Z.div_mod (N + 2) 3 ltac:(lia)) as H2.
      pose proof (Z.mod_pos_bound (N + 2) 3 ltac:(lia)). lia. }
    assert (HNE : N * E = 3 * (K * E)) by (rewrite HNK; ring).
    assert (Hr0 : r = 0) by lia.
    apply Hex.
    - by rewrite Hr0.
    - nia.
    - nia. }
  rewrite HPJ in Hbr. rewrite <- Hv in Hbr. nia.
Qed.

(** *** [math.Ceil] and the conversion to [int] *)

(** The least integer not below a finite float. *)
Definition ceilZ (x : spec_float) : Z :=
  match x with
  | S754_finite s m e =>
      let v := cond_Zopp s (Zpos m) in
      if 0 <=? e then v * 2 ^ e else - (- v / 2 ^ (- e))
  | _ => 0
  end.

(** [math.Ceil]: zeros, infinities and NaN are returned as they are. *)
Definition Ceil (x : spec_float) : spec_float :=
  match x with
  | S754_finite s _ _ => binary_normalize prec emax (ceilZ x) 0 s
  | _ => x
  end.

(** [int(f)]: the fraction is dropped; what does not fit in 64 bits, an
    infinity or a NaN gives the smallest integer, as on amd64. *)
Definition int_of_float (x : spec_float) : Z :=
  match x with
  | S754_zero _ => 0
  | S754_finite s m e =>
      let t := cond_Zopp s (if 0 <=? e then Zpos m * 2 ^ e else Zpos m / 2 ^ (- e)) in
      if (- 2 ^ 63 <=? t) && (t <? 2 ^ 63) then t else - 2 ^ 63
  | _ => - 2 ^ 63
  end.

Lemma int_of_represents x K : represents x K → 0 < K < 2 ^ 63 → int_of_float x = K.
Proof.
  intros (m & e & -> & Hd & He & Hm) HK. unfold int_of_float. cbn [cond_Zopp].
  assert (Ht : (if 0 <=? e then Zpos m * 2 ^ e else Zpos m / 2 ^ (- e)) = K).
  { destruct (Z.leb_spec 0 e).
    - assert (e = 0) as -> by lia. simpl in *. lia.
    - rewrite Hm. apply Z.div_mul. pose proof (pow2_pos (- e) ltac:(lia)). lia. }
  rewrite Ht.
  destruct (Z.leb_spec (- 2 ^ 63) K); [|lia].
  destruct (Z.ltb_spec K (2 ^ 63)); [done | lia].
Qed.

Lemma int_Ceil (m : positive) (e K : Z) :
  e < 0 → 0 < K < 2 ^ 53 →
  (K - 1) * 2 ^ (- e) < Zpos m ≤ K * 2 ^ (- e) →
  int_of_float (Ceil (S754_finite false m e)) = K.
Proof.
  intros He HK Hm. pose proof (pow2_pos (- e) ltac:(lia)) as Hpow.
  assert (Hc : ceilZ (S754_finite false m e) = K).
  { unfold ceilZ. cbn [cond_Zopp]. destruct (Z.leb_spec 0 e); [lia|].
    rewrite <- (Z.div_unique (- Zpos m) (2 ^ (- e)) (- K) (K * 2 ^ (- e) - Zpos m));
      lia. }
  unfold Ceil. rewrite Hc.
  apply int_of_represents; [|lia]. apply of_int_represents. lia.
Qed.

(** [int(math.Ceil(float64(n) * c / 3))] for [c] one or two. *)
Definition ceilThirds (c n : Z) : Z :=
  int_of_float (Ceil (fdiv (fmul (of_int n) (of_int c)) (of_int 3))).

Lemma ceilThirds_two n : 0 ≤ n < 2 ^ 51 → ceilThirds 2 n = (2 * n + 2) / 3.
Proof.
  intros Hn. destruct (Z.eq_dec n 0) as [->|Hne]; [done|].
  unfold ceilThirds.
  pose proof (of_int_represents n ltac:(lia)) as H1.
  pose proof (fmul_two _ _ H1 ltac:(lia)) as H2.
  destruct (fdiv_three _ _ H2 ltac:(lia)) as (m3 & e3 & -> & He3 & Hb).
  apply int_Ceil; [lia | | done].
  pose proof (Z.div_mod (2 * n + 2) 3 ltac:(lia)).
  pose proof (Z.mod_pos_bound (2 * n + 2) 3 ltac:(lia)). lia.
Qed.

Lemma ceilThirds_one n : 0 ≤ n < 2 ^ 51 → ceilThirds 1 n = (n + 2) / 3.
Proof.
  intros Hn. destruct (Z.eq_dec n 0) as [->|Hne]; [done|].
  unfold ceilThirds.
  pose proof (of_int_represents n ltac:(lia)) as H1.
  pose proof (fmul_one _ _ H1 ltac:(lia)) as H2.
  destruct (fdiv_three _ _ H2 ltac:(lia)) as (m3 & e3 & -> & He3 & Hb).
  apply int_Ceil; [lia | | done].
  pose proof (Z.div_mod (n + 2) 3 ltac:(lia)).
  pose proof (Z.mod_pos_bound (n + 2) 3 ltac:(lia)). lia.
Qed.

Example ceilThirds_4 : ceilThirds 2 4 = 3 ∧ ceilThirds 1 4 = 2.
Proof. split; vm_compute; reflexivity. Qed.

End Float64.


(** ** Validator shares, [validator/storage/share.go] and [storage.go] *)

Module ValidatorStorage.

(** [[]byte]. *)
Definition bytes : Type := list byte.

#[export] Instance byte_eq_decision : EqDecision byte := byte_eq_dec.

(** A value or an error with its message. *)
Inductive result (A : Type) : Type :=
| Ok (a : A)
| Err (message : string).

Arguments Ok {A} a.
Arguments Err {A} message.

(** [errors.Wrap]. *)
Definition Wrap {A B : Type} (r : result A) (message : string) (k : A → result B)
  : result B :=
  match r with
  | Ok a => k a
  | Err cause => Err (message +:+ ": " +:+ cause)
  end.

(** [hex.DecodeString]: an even number of hexadecimal digits. *)
Fixpoint DecodeString (s : string) : result bytes :=
  match s with
  | EmptyString => Ok []
  | String _ EmptyString => Err "encoding/hex: odd length hex string"
  | String a (String b rest) =>
      match Eth1.hexDigit a, Eth1.hexDigit b with
      | Some high, Some low =>
          match DecodeString rest with
          | Ok decoded =>
              Ok (byte_of_ascii (ascii_of_N (Z.to_N (16 * high + low))) :: decoded)
          | Err e => Err e
          end
      | _, _ => Err "encoding/hex: invalid byte"
      end
  end.

(** Modelled from the spec: [proto.Node], a committee entry with its three
    fields [{ibft_id, pk_bytes, optional sk_bytes}]; the generated getters
    answer the zero value on a nil node. *)
Record Node : Type := mkNode {
  IbftId : Z;
  Pk : bytes;
  Sk : bytes
}.

Definition GetIbftId (n : option Node) : Z :=
  match n with Some n => IbftId n | None => 0 end.

Definition GetPk (n : option Node) : bytes :=
  match n with Some n => Pk n | None => [] end.

Definition GetSk (n : option Node) : bytes :=
  match n with Some n => Sk n | None => [] end.

(** [basedb.Obj]. *)
Record Obj : Type := mkObj {
  Key : bytes;
  Value : bytes
}.

(** The encodings of the BLS keys, from the library [bls]. [Deserialize]
    fills the receiver when it succeeds; [sk_zero] is [&bls.SecretKey{}]. *)
Class BLS (PublicKey SecretKey : Type) : Type := {
  pk_Serialize : PublicKey → bytes;
  pk_Deserialize : bytes → result PublicKey;
  sk_Serialize : SecretKey → bytes;
  sk_Deserialize : bytes → result SecretKey;
  sk_zero : SecretKey
}.

(** The part of [basedb.IDb] the collection uses. *)
Class IDb (DB : Type) : Type := {
  db_Set : bytes → bytes → bytes → DB → option string * DB;
  db_Get : bytes → bytes → DB → Obj * bool * option string
}.

Section Share.

(** [beacon.ValidatorMetadata] is passed through untouched. *)
Context {blsPublicKey blsSecretKey ValidatorMetadata : Type}.
Context `{BLS blsPublicKey blsSecretKey}.

(** [Share]. The two keys are allocated: the methods of [bls] dereference
    their receiver. A committee entry and the metadata may be nil. *)
Record Share : Type := mkShare {
  NodeID : Z;
  PublicKey : blsPublicKey;
  ShareKey : blsSecretKey;
  Committee : gmap Z (option Node);
  Metadata : option ValidatorMetadata
}.

Record serializedShare : Type := mkSerialized {
  ser_NodeID : Z;
  ser_ShareKey : bytes;
  ser_Committee : gmap Z (option Node);
  ser_Metadata : option ValidatorMetadata
}.

(** [gob] for [serializedShare]: [Encoder.Encode] and [Decoder.Decode]. *)
Class Gob : Type := {
  gob_Encode : serializedShare → result bytes;
  gob_Decode : bytes → result serializedShare
}.

Context `{Gob}.

(** The value [Serialize] hands to the encoder: the committee is copied
    entry by entry through the getters. *)
Definition toSerialized (s : Share) : serializedShare :=
  {| ser_NodeID := NodeID s;
     ser_ShareKey := sk_Serialize (ShareKey s);
     ser_Committee :=
       (λ n, Some {| IbftId := GetIbftId n; Pk := GetPk n; Sk := GetSk n |})
         <$> Committee s;
     ser_Metadata := Metadata s |}.

(** [Share.Serialize]. *)
Definition Serialize (s : Share) : result bytes :=
  Wrap (gob_Encode (toSerialized s)) "Failed to encode serializedValidator" Ok.

(** [Share.Deserialize]. *)
Definition Deserialize (obj : Obj) : result Share :=
  Wrap (gob_Decode (Value obj)) "Failed to get val value" (λ value,
    let secret :=
      match ser_ShareKey value with
      | [] => Ok sk_zero
      | _ :: _ => sk_Deserialize (ser_ShareKey value)
      end in
    Wrap secret "Failed to get key secret" (λ shareSecret,
      Wrap (pk_Deserialize (Key obj)) "Failed to get pubkey" (λ pubKey,
        Ok {| NodeID := ser_NodeID value;
              PublicKey := pubKey;
              ShareKey := shareSecret;
              Committee := ser_Committee value;
              Metadata := ser_Metadata value |}))).

Definition HasMetadata (s : Share) : bool :=
  match Metadata s with Some _ => true | None => false end.

(** [CommitteeSize]: [len(s.Committee)]. *)
Definition CommitteeSize (s : Share) : Z := Z.of_nat (size (Committee s)).

(** [ThresholdSize]: [int(math.Ceil(float64(s.CommitteeSize()) * 2 / 3))]. *)
Definition ThresholdSize (s : Share) : Z :=
  Float64.int_of_float
    (Float64.Ceil
       (Float64.fdiv
          (Float64.fmul (Float64.of_int (CommitteeSize s)) (Float64.of_int 2))
          (Float64.of_int 3))).

(** [PartialThresholdSize]:
    [int(math.Ceil(float64(s.CommitteeSize()) * 1 / 3))]. *)
Definition PartialThresholdSize (s : Share) : Z :=
  Float64.int_of_float
    (Float64.Ceil
       (Float64.fdiv
          (Float64.fmul (Float64.of_int (CommitteeSize s)) (Float64.of_int 1))
          (Float64.of_int 3))).

(** *** The collection *)

Context {DB : Type} `{IDb DB}.

Definition collectionPrefix : bytes := ["s"; "h"; "a"; "r"; "e"; "-"]%byte.

(** [saveUnsafe], and [SaveValidatorShare] which calls it under the lock. *)
Definition saveUnsafe (share : Share) (db : DB) : option string * DB :=
  match Serialize share with
  | Err e => (Some e, db)
  | Ok value => db_Set collectionPrefix (pk_Serialize (PublicKey share)) value db
  end.

Definition SaveValidatorShare (share : Share) (db : DB) : option string * DB :=
  saveUnsafe share db.

(** [getUnsafe], and [GetValidatorShare] which calls it under the lock. *)
Definition getUnsafe (key : bytes) (db : DB) : option Share * bool * option string :=
  let '(obj, found, err) := db_Get collectionPrefix key db in
  if negb found then (None, false, None)
  else
    match err with
    | Some e => (None, found, Some e)
    | None =>
        match Deserialize obj with
        | Ok share => (Some share, found, None)
        | Err e => (None, found, Some e)
        end
    end.

Definition GetValidatorShare (key : bytes) (db : DB)
  : option Share * bool * option string :=
  getUnsafe key db.

(** [UpdateValidatorMetadata]. *)
Definition UpdateValidatorMetadata (pk : string)
    (metadata : option ValidatorMetadata) (db : DB) : option string * DB :=
  match DecodeString pk with
  | Err e => (Some e, db)
  | Ok key =>
      match getUnsafe key db with
      | (_, _, Some e) => (Some e, db)
      | (_, false, None) => (None, db)
      | (None, true, None) => (None, db)   (* never: see [getUnsafe_share] *)
      | (Some share, true, None) =>
          saveUnsafe {| NodeID := NodeID share;
                        PublicKey := PublicKey share;
                        ShareKey := ShareKey share;
                        Committee := Committee share;
                        Metadata := metadata |} db
      end
  end.

(** [getUnsafe] hands out a share whenever it reports a key as found
    without an error. *)
Lemma getUnsafe_share key db share :
  getUnsafe key db = (share, true, None) → is_Some share.
Proof.
  unfold getUnsafe. destruct (db_Get collectionPrefix key db) as [[obj found] err].
  destruct found; simpl; [|done]. destruct err; [done|].
  destruct (Deserialize obj); [|done]. intros [= <-]. by eexists.
Qed.

(** *** Well-formed shares *)

(** No committee entry is nil, and what the libraries encode of the share
    they decode again: the public key, the share key (the empty key being
    the one with the empty encoding) and the serialised form. *)
Definition well_formed (s : Share) : Prop :=
  (∀ k n, Committee s !! k = Some n → is_Some n) ∧
  pk_Deserialize (pk_Serialize (PublicKey s)) = Ok (PublicKey s) ∧
  match sk_Serialize (ShareKey s) with
  | [] => ShareKey s = sk_zero
  | _ :: _ => sk_Deserialize (sk_Serialize (ShareKey s)) = Ok (ShareKey s)
  end ∧
  ∃ value, gob_Encode (toSerialized s) = Ok value ∧
           gob_Decode value = Ok (toSerialized s).

Lemma committee_copy (committee : gmap Z (option Node)) :
  (∀ k n, committee !! k = Some n → is_Some n) →
  (λ n, Some {| IbftId := GetIbftId n; Pk := GetPk n; Sk := GetSk n |})
    <$> committee = committee.
Proof.
  intros Hwf. apply map_eq. intros k. rewrite lookup_fmap.
  destruct (committee !! k) as [n|] eqn:E; [|done]. simpl.
  destruct (Hwf k n E) as [[ibft pk sk] ->]. done.
Qed.

Lemma Deserialize_of_well_formed (s : Share) (value : bytes) :
  well_formed s → gob_Encode (toSerialized s) = Ok value →
  Deserialize {| Key := pk_Serialize (PublicKey s); Value := value |} = Ok s.
Proof.
  intros (Hcom & Hpk & Hsk & value' & Henc & Hdec) Hvalue.
  assert (value' = value) as -> by congruence.
  unfold Deserialize. cbn [Key Value]. rewrite Hdec. cbn [Wrap].
  cbn [toSerialized ser_ShareKey ser_NodeID ser_Committee ser_Metadata].
  rewrite Hpk.
  assert (Hsecret : match sk_Serialize (ShareKey s) with
                    | [] => Ok sk_zero
                    | _ :: _ => sk_Deserialize (sk_Serialize (ShareKey s))
                    end = Ok (ShareKey s)).
  { destruct (sk_Serialize (ShareKey s)); [by rewrite Hsk | done]. }
  rewrite Hsecret. cbn [Wrap]. rewrite committee_copy by done.
  by destruct s.
Qed.

(** *** The properties of shares and of the collection *)

(** C8. The stored pair of a well-formed share, with or without metadata
    and whatever its share key, exists and deserialises to the share
    itself: [Serialize] succeeds, and [Deserialize] of the serialised
    public key with the serialised value yields a share equal in every
    field. *)
Theorem Deserialize_Serialize (s : Share) :
  well_formed s →
  ∃ value,
    Serialize s = Ok value ∧
    Deserialize {| Key := pk_Serialize (PublicKey s); Value := value |} = Ok s.
Proof.
  intros Hwf. pose proof Hwf as (_ & _ & _ & value & Henc & _).
  exists value. split.
  - unfold Serialize. by rewrite Henc.
  - by apply Deserialize_of_well_formed.
Qed.

(** C7. For a committee of [n] members, [n] below [2 ^ 51],
    [ThresholdSize] is the integer ceiling of [2 n / 3] and
    [PartialThresholdSize] the integer ceiling of [n / 3], the floating
    point computation notwithstanding; for [n = 4] they are 3 and 2. *)
Theorem ThresholdSize_ceiling (s : Share) :
  CommitteeSize s < 2 ^ 51 →
  3 * (ThresholdSize s - 1) < 2 * CommitteeSize s ≤ 3 * ThresholdSize s ∧
  3 * (PartialThresholdSize s - 1) < CommitteeSize s ≤ 3 * PartialThresholdSize s ∧
  (CommitteeSize s = 4 → ThresholdSize s = 3 ∧ PartialThresholdSize s = 2).
Proof.
  intros Hn. assert (Hn0 : 0 ≤ CommitteeSize s) by (unfold CommitteeSize; lia).
  pose proof (Float64.ceilThirds_two (CommitteeSize s) ltac:(lia)) as Htwo.
  pose proof (Float64.ceilThirds_one (CommitteeSize s) ltac:(lia)) as Hone.
  unfold Float64.ceilThirds in Hone, Htwo. fold (ThresholdSize s) in Htwo.
  fold (PartialThresholdSize s) in Hone. rewrite Hone, Htwo.
  pose proof (Z.div_mod (2 * CommitteeSize s + 2) 3 ltac:(lia)).
  pose proof (Z.mod_pos_bound (2 * CommitteeSize s + 2) 3 ltac:(lia)).
  pose proof (Z.div_mod (CommitteeSize s + 2) 3 ltac:(lia)).
  pose proof (Z.mod_pos_bound (CommitteeSize s + 2) 3 ltac:(lia)).
  split; [lia|]. split; [lia|]. intros ->. done.
Qed.

(** [share.Metadata = metadata]. *)
Definition withMetadata (share : Share) (metadata : option ValidatorMetadata)
  : Share :=
  {| NodeID := NodeID share;
     PublicKey := PublicKey share;
     ShareKey := ShareKey share;
     Committee := Committee share;
     Metadata := metadata |}.

(** C9, as amended. Let the collection hold a share under the key that the
    hexadecimal string [pk] decodes to, let that key be the encoding of the
    share's public key, let the share with the new metadata be well-formed
    and let the database answer a successful [Set] with the stored pair on
    the next [Get]. After a successful [UpdateValidatorMetadata pk m],
    [GetValidatorShare] returns the share with [Metadata] equal to [m] and
    every other field as before. *)
Theorem UpdateValidatorMetadata_get (pk : string) (key : bytes)
    (metadata : option ValidatorMetadata) (db db' : DB) (share : Share) :
  DecodeString pk = Ok key →
  GetValidatorShare key db = (Some share, true, None) →
  pk_Serialize (PublicKey share) = key →
  well_formed (withMetadata share metadata) →
  (∀ k v d d', db_Set collectionPrefix k v d = (None, d') →
               db_Get collectionPrefix k d' = (mkObj k v, true, None)) →
  UpdateValidatorMetadata pk metadata db = (None, db') →
  ∃ share',
    GetValidatorShare key db' = (Some share', true, None) ∧
    Metadata share' = metadata ∧
    NodeID share' = NodeID share ∧
    PublicKey share' = PublicKey share ∧
    ShareKey share' = ShareKey share ∧
    Committee share' = Committee share.
Proof.
  intros Hhex Hget Hkey Hwf Hdb Hupd.
  unfold UpdateValidatorMetadata in Hupd. unfold GetValidatorShare in *.
  rewrite Hhex, Hget in Hupd. fold (withMetadata share metadata) in Hupd.
  unfold saveUnsafe, Serialize in Hupd.
  destruct (gob_Encode (toSerialized (withMetadata share metadata)))
    as [value|e] eqn:Henc; cbn [Wrap] in Hupd; [|done].
  apply Hdb in Hupd. cbn [withMetadata PublicKey] in Hupd. rewrite Hkey in Hupd.
  exists (withMetadata share metadata).
  split; [|done].
  unfold getUnsafe. rewrite Hupd. cbn [negb].
  pose proof (Deserialize_of_well_formed _ value Hwf Henc) as Hdes.
  cbn [withMetadata PublicKey] in Hdes. rewrite Hkey in Hdes.
  fold (withMetadata share metadata) in Hdes. by rewrite Hdes.
Qed.

End Share.

Arguments Share : clear implicits.
Arguments serializedShare : clear implicits.
Arguments Gob : clear implicits.

(** *** Concrete collaborators *)

(** Keys that are their own encoding; the empty key is the zero key. *)
#[export] Instance plainKeys : BLS bytes bytes := {
  pk_Serialize k := k;
  pk_Deserialize b := Ok b;
  sk_Serialize k := k;
  sk_Deserialize b := Ok b;
  sk_zero := []
}.

(** A database kept as a list of stored triples, newest first. *)
Definition memDb : Type := list (bytes * bytes * bytes).

Fixpoint memGet (prefix key : bytes) (db : memDb) : option bytes :=
  match db with
  | [] => None
  | (p, k, v) :: rest =>
      if decide (p = prefix ∧ k = key) then Some v else memGet prefix key rest
  end.

#[export] Instance memIDb : IDb memDb := {
  db_Set prefix key value db := (None, (prefix, key, value) :: db);
  db_Get prefix key db :=
    match memGet prefix key db with
    | Some v => (mkObj key v, true, None)
    | None => (mkObj [] [], false, None)
    end
}.

Lemma memIDb_get_set prefix k v (d d' : memDb) :
  db_Set prefix k v d = (None, d') → db_Get prefix k d' = (mkObj k v, true, None).
Proof.
  simpl. intros [= <-]. simpl. by rewrite decide_True.
Qed.

(** A byte wise encoding of serialised shares whose numbers and lengths fit
    in a byte; the metadata is a number. *)
Definition putZ (z : Z) : byte := default "000"%byte (Byte.of_N (Z.to_N z)).

Definition getZ (b : byte) : Z := Z.of_N (Byte.to_N b).

Definition putBytes (b : bytes) : bytes := putZ (Z.of_nat (length b)) :: b.

Definition getBytes (input : bytes) : option (bytes * bytes) :=
  match input with
  | [] => None
  | n :: rest =>
      let len := Z.to_nat (getZ n) in
      if decide (len ≤ length rest)%nat then Some (take len rest, drop len rest)
      else None
  end.

Definition putNode (entry : Z * option Node) : bytes :=
  putZ (fst entry)
  :: match snd entry with
     | None => ["000"%byte]
     | Some n => "001"%byte :: putZ (IbftId n) :: putBytes (Pk n) ++ putBytes (Sk n)
     end.

Fixpoint getNodes (count : nat) (input : bytes)
  : option (list (Z * option Node) * bytes) :=
  match count with
  | O => Some ([], input)
  | Datatypes.S count' =>
      match input with
      | k :: "000"%byte :: rest =>
          '(nodes, rest') ← getNodes count' rest;
          Some ((getZ k, None) :: nodes, rest')
      | k :: "001"%byte :: ibft :: rest =>
          '(pk, rest1) ← getBytes rest;
          '(sk, rest2) ← getBytes rest1;
          '(nodes, rest') ← getNodes count' rest2;
          Some ((getZ k, Some (mkNode (getZ ibft) pk sk)) :: nodes, rest')
      | _ => None
      end
  end.

Definition byteEncode (v : serializedShare Z) : bytes :=
  putZ (ser_NodeID v)
  :: putBytes (ser_ShareKey v)
  ++ putZ (Z.of_nat (size (ser_Committee v)))
  :: mjoin (putNode <$> map_to_list (ser_Committee v))
  ++ match ser_Metadata v with
     | None => ["000"%byte]
     | Some m => ["001"%byte; putZ m]
     end.

Definition byteDecode (input : bytes) : option (serializedShare Z) :=
  match input with
  | [] => None
  | nodeID :: rest =>
      '(shareKey, rest1) ← getBytes rest;
      match rest1 with
      | [] => None
      | count :: rest2 =>
          '(nodes, rest3) ← getNodes (Z.to_nat (getZ count)) rest2;
          match rest3 with
          | ["000"%byte] =>
              Some (mkSerialized (getZ nodeID) shareKey (list_to_map nodes) None)
          | ["001"%byte; m] =>
              Some (mkSerialized (getZ nodeID) shareKey (list_to_map nodes)
                                 (Some (getZ m)))
          | _ => None
          end
      end
  end.

#[export] Instance byteGob : Gob Z := {
  gob_Encode v := Ok (byteEncode v);
  gob_Decode input :=
    match byteDecode input with
    | Some v => Ok v
    | None => Err "unexpected EOF"
    end
}.

(** A share of operator 1 in a committee of four, as an observer holds it
    (empty share key), without metadata. *)
Definition validatorKey : bytes := ["170"; "187"]%byte.

Definition committee4 : gmap Z (option Node) :=
  list_to_map
    [(1, Some (mkNode 1 ["017"%byte] []));
     (2, Some (mkNode 2 ["034"%byte] []));
     (3, Some (mkNode 3 ["051"%byte] []));
     (4, Some (mkNode 4 ["068"%byte] []))].

Definition share4 : Share bytes bytes Z :=
  {| NodeID := 1; PublicKey := validatorKey; ShareKey := [];
     Committee := committee4; Metadata := None |}.

Definition dbWithShare4 : memDb := snd (SaveValidatorShare share4 []).

Lemma committee4_entries k n : committee4 !! k = Some n → is_Some n.
Proof.
  assert (H : map_Forall (λ _ n, is_Some n) committee4)
    by (apply (bool_decide_unpack _); vm_compute; exact I).
  apply H.
Qed.

Lemma well_formed_share4 : well_formed share4.
Proof.
  split; [apply committee4_entries|]. split; [done|]. split; [done|].
  eexists. split; [done|]. vm_compute. reflexivity.
Qed.

Lemma well_formed_share4_metadata : well_formed (withMetadata share4 (Some 7)).
Proof.
  split; [apply committee4_entries|]. split; [done|]. split; [done|].
  eexists. split; [done|]. vm_compute. reflexivity.
Qed.

Example get_share4 :
  GetValidatorShare validatorKey dbWithShare4 = (Some share4, true, None).
Proof. vm_compute. reflexivity. Qed.

Example thresholds_of_share4 :
  CommitteeSize share4 = 4 ∧ ThresholdSize share4 = 3 ∧
  PartialThresholdSize share4 = 2.
Proof. repeat split; vm_compute; reflexivity. Qed.

Lemma ThresholdSize_ceiling_witness :
  3 * (ThresholdSize share4 - 1) < 2 * CommitteeSize share4
  ≤ 3 * ThresholdSize share4 ∧
  3 * (PartialThresholdSize share4 - 1) < CommitteeSize share4
  ≤ 3 * PartialThresholdSize share4 ∧
  (CommitteeSize share4 = 4 →
   ThresholdSize share4 = 3 ∧ PartialThresholdSize share4 = 2).
Proof. apply (ThresholdSize_ceiling share4). vm_compute. reflexivity. Defined.

Lemma Deserialize_Serialize_witness :
  ∃ value,
    Serialize share4 = Ok value ∧
    Deserialize {| Key := pk_Serialize (PublicKey share4); Value := value |}
    = Ok share4.
Proof. apply (Deserialize_Serialize share4), well_formed_share4. Defined.

(** C9, as stated, fails: for a key the collection does not hold,
    [UpdateValidatorMetadata] returns no error and changes nothing, and
    [GetValidatorShare] finds no share. *)
Lemma update_of_missing_validator :
  UpdateValidatorMetadata "aabb" (Some 7) ([] : memDb) = (None, []) ∧
  DecodeString "aabb" = Ok validatorKey ∧
  GetValidatorShare (blsPublicKey := bytes) (blsSecretKey := bytes)
    (ValidatorMetadata := Z) validatorKey ([] : memDb)
  = (None, false, None).
Proof. repeat split. Qed.

Lemma UpdateValidatorMetadata_get_witness :
  ∃ share',
    GetValidatorShare validatorKey
      (snd (UpdateValidatorMetadata "aabb" (Some 7) dbWithShare4))
    = (Some share', true, None) ∧
    Metadata share' = Some 7 ∧
    NodeID share' = NodeID share4 ∧
    PublicKey share' = PublicKey share4 ∧
    ShareKey share' = ShareKey share4 ∧
    Committee share' = Committee share4.
Proof.
  apply (UpdateValidatorMetadata_get "aabb" validatorKey (Some 7) dbWithShare4
           (snd (UpdateValidatorMetadata "aabb" (Some 7) dbWithShare4)) share4).
  - reflexivity.
  - apply get_share4.
  - reflexivity.
  - apply well_formed_share4_metadata.
  - apply memIDb_get_set.
  - vm_compute. reflexivity.
Defined.

(** *** The rest of the share and of the collection *)

(** The two methods of [basedb.IDb] that work on a whole collection. *)
Class IDbCollection (DB : Type) : Type := {
  db_GetAllByCollection : bytes → DB → result (list Obj);
  db_RemoveAllByCollection : bytes → DB → option string * DB
}.

Section Collection.

Context {blsPublicKey blsSecretKey ValidatorMetadata : Type}.
Context `{BLS blsPublicKey blsSecretKey} `{Gob ValidatorMetadata}.
Context {DB : Type} `{IDb DB} `{IDbCollection DB}.

#[local] Abbreviation Share := (Share blsPublicKey blsSecretKey ValidatorMetadata).

(** What [PubKeysByID] returns: the slice, [None] for nil, with the error;
    or the run-time panic of [val.Pk] on a nil committee entry. *)
Inductive pubkeys : Type :=
| PubKeys (ret : option (list blsPublicKey)) (err : option string)
| NilNode.

(** The loop of [PubKeysByID], [ret] being the keys collected so far. *)
Fixpoint pubKeysFrom (s : Share) (ret : list blsPublicKey) (ids : list Z)
  : pubkeys :=
  match ids with
  | [] => PubKeys (Some ret) None
  | id :: ids =>
      match Committee s !! id with
      | Some (Some val) =>
          match pk_Deserialize (Pk val) with
          | Err err => PubKeys (Some ret) (Some err)
          | Ok pk => pubKeysFrom s (ret ++ [pk]) ids
          end
      | Some None => NilNode
      | None => PubKeys None (Some ("pk for id (" +:+ pretty id +:+ ") not found"))
      end
  end.

Definition PubKeysByID (s : Share) (ids : list Z) : pubkeys :=
  pubKeysFrom s [] ids.

(** [proto.SignedMessage] is declared outside the sources at hand: the
    share reads its signer ids and calls [VerifyAggregatedSig]. *)
Context {SignedMessage : Type}.
Context (SignerIds : SignedMessage → list Z).
Context (VerifyAggregatedSig : SignedMessage → list blsPublicKey → result bool).

(** [VerifySignedMessage]: nil, an error, or the panic of [PubKeysByID]. *)
Definition VerifySignedMessage (s : Share) (msg : SignedMessage)
  : option (option string) :=
  match PubKeysByID s (SignerIds msg) with
  | NilNode => None
  | PubKeys _ (Some err) => Some (Some err)
  | PubKeys pks None =>
      if decide (length (default [] pks) = 0%nat)
      then Some (Some "could not find public key")
      else
        match VerifyAggregatedSig msg (default [] pks) with
        | Err err => Some (Some err)
        | Ok false => Some (Some "could not verify message signature")
        | Ok true => Some None
        end
  end.

(** [CleanAllShares]. *)
Definition CleanAllShares (db : DB) : option string * DB :=
  db_RemoveAllByCollection collectionPrefix db.

(** The loop of [GetAllValidatorsShare], [res] being the shares so far. *)
Fixpoint deserializeAll (objs : list Obj) (res : list Share)
  : result (list Share) :=
  match objs with
  | [] => Ok res
  | obj :: objs =>
      Wrap (Deserialize obj) "Failed to deserialize validator"
           (λ val, deserializeAll objs (res ++ [val]))
  end.

(** [GetAllValidatorsShare]; the nil slice is the empty list. *)
Definition GetAllValidatorsShare (db : DB) : result (list Share) :=
  Wrap (db_GetAllByCollection collectionPrefix db) "Failed to get val share"
       (λ objs, deserializeAll objs []).

(** The key of committee member [id], decoded. *)
Definition memberKey (s : Share) (id : Z) (key : blsPublicKey) : Prop :=
  ∃ val, Committee s !! id = Some (Some val) ∧ pk_Deserialize (Pk val) = Ok key.

Lemma pubKeysFrom_keys (s : Share) (ids : list Z) : ∀ ret keys,
  pubKeysFrom s ret ids = PubKeys (Some keys) None
  ↔ ∃ more, keys = ret ++ more ∧ Forall2 (memberKey s) ids more.
Proof.
  induction ids as [|id ids IH]; intros ret keys; cbn [pubKeysFrom].
  - split.
    + intros [= <-]. exists []. by rewrite app_nil_r.
    + intros (more & -> & Hall). apply Forall2_nil_inv_l in Hall as ->.
      by rewrite app_nil_r.
  - split.
    + destruct (Committee s !! id) as [[val|]|] eqn:Hid; [|done|done].
      destruct (pk_Deserialize (Pk val)) as [pk|err] eqn:Hpk; [|done].
      intros Hk. apply IH in Hk as (more & -> & Hall).
      exists (pk :: more). rewrite <- app_assoc. split; [done|].
      constructor; [by exists val | done].
    + intros (more & -> & Hall).
      apply Forall2_cons_inv_l in Hall as (pk & more' & (val & Hid & Hpk) & Hall & ->).
      rewrite Hid, Hpk. apply IH. exists more'. by rewrite <- app_assoc.
Qed.

Lemma pubKeysFrom_missing (s : Share) (ids : list Z) : ∀ ret err,
  pubKeysFrom s ret ids = PubKeys None err →
  ∃ id, id ∈ ids ∧ Committee s !! id = None ∧
        err = Some ("pk for id (" +:+ pretty id +:+ ") not found").
Proof.
  induction ids as [|id ids IH]; intros ret err; cbn [pubKeysFrom]; [done|].
  destruct (Committee s !! id) as [[val|]|] eqn:Hid; [|done|].
  - destruct (pk_Deserialize (Pk val)) as [pk|e]; [|done].
    intros Hk. apply IH in Hk as (id' & Hin & Hk). exists id'. split; [by right | done].
  - intros [= <-]. exists id. split; [left | done].
Qed.

Lemma deserializeAll_Ok (objs : list Obj) : ∀ res shares,
  deserializeAll objs res = Ok shares
  ↔ ∃ more, shares = res ++ more ∧
            Forall2 (λ obj share, Deserialize obj = Ok share) objs more.
Proof.
  induction objs as [|obj objs IH]; intros res shares; cbn [deserializeAll].
  - split.
    + intros [= <-]. exists []. by rewrite app_nil_r.
    + intros (more & -> & Hall). apply Forall2_nil_inv_l in Hall as ->.
      by rewrite app_nil_r.
  - split.
    + destruct (Deserialize obj) as [share|e] eqn:Hd; cbn [Wrap]; [|done].
      intros Hk. apply IH in Hk as (more & -> & Hall).
      exists (share :: more). rewrite <- app_assoc. split; [done|].
      by constructor.
    + intros (more & -> & Hall).
      apply Forall2_cons_inv_l in Hall as (share & more' & Hd & Hall & ->).
      rewrite Hd. cbn [Wrap]. apply IH. exists more'. by rewrite <- app_assoc.
Qed.

Lemma PubKeysByID_keys_iff (s : Share) (ids : list Z) keys :
  PubKeysByID s ids = PubKeys (Some keys) None ↔ Forall2 (memberKey s) ids keys.
Proof.
  unfold PubKeysByID. rewrite pubKeysFrom_keys. split.
  - by intros (more & -> & Hall).
  - intros Hall. by exists keys.
Qed.

(** X21. [PubKeysByID] returns keys without an error exactly when every
    id is a committee member whose key decodes; the keys are then those of
    the ids, one for each id and in the order of the ids. When it returns
    the nil slice, one of the ids is not in the committee and the error
    names it. *)
Theorem PubKeysByID_keys (s : Share) (ids : list Z) :
  (∀ keys, PubKeysByID s ids = PubKeys (Some keys) None
           ↔ Forall2 (memberKey s) ids keys) ∧
  (∀ err, PubKeysByID s ids = PubKeys None err →
          ∃ id, id ∈ ids ∧ Committee s !! id = None ∧
                err = Some ("pk for id (" +:+ pretty id +:+ ") not found")).
Proof.
  split; [intros keys; apply PubKeysByID_keys_iff | apply pubKeysFrom_missing].
Qed.

(** X22. [VerifySignedMessage] returns nil exactly when the message has
    at least one signer, every signer id is a committee member whose key
    decodes, and [VerifyAggregatedSig] accepts the message against the
    keys of its signers, taken in the order of the signer ids. *)
Theorem VerifySignedMessage_accepts (s : Share) (msg : SignedMessage) :
  VerifySignedMessage s msg = Some None
  ↔ SignerIds msg ≠ [] ∧
    ∃ keys, Forall2 (memberKey s) (SignerIds msg) keys ∧
            VerifyAggregatedSig msg keys = Ok true.
Proof.
  unfold VerifySignedMessage. split.
  - destruct (PubKeysByID s (SignerIds msg)) as [pks [err|]|] eqn:Hk; [done| |done].
    destruct pks as [keys|]; cbn [from_option id];
      [|by rewrite decide_True by done].
    case_decide as Hlen; [done|].
    destruct (VerifyAggregatedSig msg keys) as [[|]|e] eqn:Hv; [|done|done].
    intros _. apply PubKeysByID_keys_iff in Hk.
    split; [|by exists keys].
    intros E. rewrite E in Hk. apply Forall2_nil_inv_l in Hk as ->. done.
  - intros (Hne & keys & Hall & Hv).
    pose proof (Forall2_length _ _ _ Hall) as Hlen.
    apply PubKeysByID_keys_iff in Hall. rewrite Hall. cbn [from_option id].
    rewrite decide_False, Hv; [done|].
    rewrite <- Hlen. by destruct (SignerIds msg).
Qed.

(** X23. [GetAllValidatorsShare] reads back what was saved: when the
    collection holds the stored pairs of well-formed shares, it returns
    those shares, all of them and in the order of the database. *)
Theorem GetAllValidatorsShare_reads_back (db : DB) (objs : list Obj)
    (shares : list Share) :
  db_GetAllByCollection collectionPrefix db = Ok objs →
  Forall2 (λ share obj, well_formed share ∧
                        Key obj = pk_Serialize (PublicKey share) ∧
                        Serialize share = Ok (Value obj)) shares objs →
  GetAllValidatorsShare db = Ok shares.
Proof.
  intros Hdb Hall. unfold GetAllValidatorsShare. rewrite Hdb. cbn [Wrap].
  apply deserializeAll_Ok. exists shares. split; [done|].
  apply Forall2_flip. eapply Forall2_impl; [exact Hall|].
  intros share [key value] (Hwf & Hkey & Hser). cbn [Key Value] in *. subst key.
  apply Deserialize_of_well_formed; [done|].
  unfold Serialize in Hser.
  by destruct (gob_Encode (toSerialized share)) as [v|e]; cbn [Wrap] in Hser;
    [injection Hser as ->|].
Qed.

(** X24. A share that was saved is the share read back: after
    [SaveValidatorShare] of a well-formed share succeeds, over a database
    that answers a successful [Set] with the stored pair,
    [GetValidatorShare] of the share's serialised public key returns that
    share, whatever the collection held under the key before. *)
Theorem SaveValidatorShare_get (share : Share) (db db' : DB) :
  well_formed share →
  (∀ k v d d', db_Set collectionPrefix k v d = (None, d') →
               db_Get collectionPrefix k d' = (mkObj k v, true, None)) →
  SaveValidatorShare share db = (None, db') →
  GetValidatorShare (pk_Serialize (PublicKey share)) db' = (Some share, true, None).
Proof.
  intros Hwf Hdb Hsave. unfold SaveValidatorShare, saveUnsafe, Serialize in Hsave.
  destruct (gob_Encode (toSerialized share)) as [value|e] eqn:Henc;
    cbn [Wrap] in Hsave; [|done].
  apply Hdb in Hsave. unfold GetValidatorShare, getUnsafe. rewrite Hsave.
  cbn [negb]. by rewrite (Deserialize_of_well_formed _ value Hwf Henc).
Qed.

(** X25. [UpdateValidatorMetadata] touches one validator only. Over a
    database whose [Set] leaves the other keys alone and whose [Get]
    answers with the key asked for, and with key encodings that encode
    what they decoded, the share read under any other key is the same
    before and after the call, whether the call succeeds or not; and a
    string that is not hexadecimal is refused with the database
    untouched. *)
Theorem UpdateValidatorMetadata_other_keys (pk : string)
    (metadata : option ValidatorMetadata) (db : DB) :
  (∀ k v d k', k' ≠ k →
     db_Get collectionPrefix k' (db_Set collectionPrefix k v d).2
     = db_Get collectionPrefix k' d) →
  (∀ k d obj err, db_Get collectionPrefix k d = (obj, true, err) → Key obj = k) →
  (∀ k p, pk_Deserialize k = Ok p → pk_Serialize p = k) →
  (∀ key other, DecodeString pk = Ok key → other ≠ key →
     GetValidatorShare other (UpdateValidatorMetadata pk metadata db).2
     = GetValidatorShare other db) ∧
  (∀ e, DecodeString pk = Err e →
     UpdateValidatorMetadata pk metadata db = (Some e, db)).
Proof.
  intros Hframe Hkey Hbls. unfold UpdateValidatorMetadata. split.
  - intros key other -> Hne.
    destruct (getUnsafe key db) as [[share found] err] eqn:Hget.
    destruct err as [e|], found, share as [share|]; try done. cbn [snd].
    assert (Hpk : pk_Serialize (PublicKey share) = key).
    { unfold getUnsafe in Hget. pose proof (Hkey key db) as Hk.
      destruct (db_Get collectionPrefix key db) as [[obj found] err].
      destruct found; cbn [negb] in Hget; [|done].
      specialize (Hk obj err eq_refl).
      destruct err; [done|]. unfold Deserialize in Hget.
      destruct (gob_Decode (Value obj)) as [value|]; cbn [Wrap] in Hget; [|done].
      destruct (match ser_ShareKey value with
                | [] => Ok sk_zero
                | _ :: _ => sk_Deserialize (ser_ShareKey value)
                end) as [secret|]; cbn [Wrap] in Hget; [|done].
      destruct (pk_Deserialize (Key obj)) as [pubKey|] eqn:Hp;
        cbn [Wrap] in Hget; [|done].
      injection Hget as <-. cbn [PublicKey]. apply Hbls in Hp. congruence. }
    unfold saveUnsafe. cbn [PublicKey]. rewrite Hpk.
    destruct (Serialize _) as [value|e]; [|done].
    unfold GetValidatorShare, getUnsafe. by rewrite Hframe.
  - by intros e ->.
Qed.

(** X26. For a committee of [3 f + 1] members [ThresholdSize] is
    [2 f + 1] and [PartialThresholdSize] is [f + 1], as the comments of
    the two methods say. *)
Theorem thresholds_of_3f_plus_1 (s : Share) (f : Z) :
  0 ≤ f → CommitteeSize s = 3 * f + 1 → CommitteeSize s < 2 ^ 51 →
  ThresholdSize s = 2 * f + 1 ∧ PartialThresholdSize s = f + 1.
Proof.
  intros Hf Hn Hlim.
  pose proof (Float64.ceilThirds_two (CommitteeSize s) ltac:(lia)) as Htwo.
  pose proof (Float64.ceilThirds_one (CommitteeSize s) ltac:(lia)) as Hone.
  unfold Float64.ceilThirds in Hone, Htwo. fold (ThresholdSize s) in Htwo.
  fold (PartialThresholdSize s) in Hone. rewrite Hone, Htwo, Hn. split.
  - symmetry. apply (Z.div_unique _ _ _ 1); lia.
  - symmetry. apply (Z.div_unique _ _ _ 0); lia.
Qed.

(** X27. Quorums overlap: for a committee below [2 ^ 51] members, two
    sets of [ThresholdSize] members have at least [PartialThresholdSize]
    members in common, a quorum fits in the committee and a partial
    quorum in a quorum. *)
Theorem quorums_intersect (s : Share) :
  CommitteeSize s < 2 ^ 51 →
  PartialThresholdSize s ≤ 2 * ThresholdSize s - CommitteeSize s ∧
  PartialThresholdSize s ≤ ThresholdSize s ≤ CommitteeSize s.
Proof.
  intros Hlim. assert (Hn0 : 0 ≤ CommitteeSize s) by (unfold CommitteeSize; lia).
  pose proof (Float64.ceilThirds_two (CommitteeSize s) ltac:(lia)) as Htwo.
  pose proof (Float64.ceilThirds_one (CommitteeSize s) ltac:(lia)) as Hone.
  unfold Float64.ceilThirds in Hone, Htwo. fold (ThresholdSize s) in Htwo.
  fold (PartialThresholdSize s) in Hone. rewrite Hone, Htwo.
  pose proof (Z.div_mod (2 * CommitteeSize s + 2) 3 ltac:(lia)).
  pose proof (Z.mod_pos_bound (2 * CommitteeSize s + 2) 3 ltac:(lia)).
  pose proof (Z.div_mod (CommitteeSize s + 2) 3 ltac:(lia)).
  pose proof (Z.mod_pos_bound (CommitteeSize s + 2) 3 ltac:(lia)).
  lia.
Qed.

End Collection.

(** *** The collection over the list database *)

(** The objects of a collection, one for each key, newest first. *)
Fixpoint memAll (prefix : bytes) (db : memDb) : list Obj :=
  match db with
  | [] => []
  | (p, k, v) :: rest =>
      if decide (p = prefix)
      then mkObj k v :: filter (λ obj, Key obj ≠ k) (memAll prefix rest)
      else memAll prefix rest
  end.

#[export] Instance memIDbCollection : IDbCollection memDb := {
  db_GetAllByCollection prefix db := Ok (memAll prefix db);
  db_RemoveAllByCollection prefix db := (None, filter (λ entry, entry.1.1 ≠ prefix) db)
}.

(** A message that names its signers; its signature holds when the keys
    offered are the keys [signedBy]. *)
Record signed : Type := mkSigned {
  signers : list Z;
  signedBy : list bytes
}.

Definition verifySigned (msg : signed) (pks : list bytes) : result bool :=
  Ok (bool_decide (pks = signedBy msg)).

Example verify_by_members_1_and_3 :
  VerifySignedMessage signers verifySigned share4
    (mkSigned [1; 3] [["017"%byte]; ["051"%byte]]) = Some None.
Proof. vm_compute. reflexivity. Qed.

Example verify_by_stranger :
  VerifySignedMessage signers verifySigned share4
    (mkSigned [1; 7] [["017"%byte]; ["051"%byte]])
  = Some (Some "pk for id (7) not found").
Proof. vm_compute. reflexivity. Qed.

Lemma GetAllValidatorsShare_reads_back_witness :
  GetAllValidatorsShare dbWithShare4 = Ok [share4].
Proof.
  apply (GetAllValidatorsShare_reads_back dbWithShare4
           [mkObj validatorKey (byteEncode (toSerialized share4))] [share4]).
  - vm_compute. reflexivity.
  - constructor; [|constructor].
    split; [apply well_formed_share4|]. split; vm_compute; reflexivity.
Defined.

Lemma SaveValidatorShare_get_witness :
  GetValidatorShare (pk_Serialize (PublicKey share4)) dbWithShare4
  = (Some share4, true, None).
Proof.
  apply (SaveValidatorShare_get share4 [] dbWithShare4).
  - apply well_formed_share4.
  - apply memIDb_get_set.
  - vm_compute. reflexivity.
Defined.

Lemma memIDb_get_other prefix k v (d : memDb) k' :
  k' ≠ k →
  db_Get prefix k' (db_Set prefix k v d).2 = db_Get prefix k' d.
Proof.
  intros Hne. cbn. by rewrite decide_False by (intros [_ ?]; congruence).
Qed.

Lemma memIDb_get_key prefix k (d : memDb) obj err :
  db_Get prefix k d = (obj, true, err) → Key obj = k.
Proof.
  cbn. destruct (memGet prefix k d); [|done]. by intros [= <- _].
Qed.

Lemma UpdateValidatorMetadata_other_keys_witness :
  (∀ key other, DecodeString "aabb" = Ok key → other ≠ key →
     GetValidatorShare (blsPublicKey := bytes) (blsSecretKey := bytes) other
       (UpdateValidatorMetadata "aabb" (Some 7) dbWithShare4).2
     = GetValidatorShare other dbWithShare4) ∧
  (∀ e, DecodeString "aabb" = Err e →
     UpdateValidatorMetadata (blsPublicKey := bytes) (blsSecretKey := bytes)
       "aabb" (Some 7) dbWithShare4 = (Some e, dbWithShare4)).
Proof.
  apply (UpdateValidatorMetadata_other_keys "aabb" (Some 7) dbWithShare4).
  - intros k v d k'. apply memIDb_get_other.
  - apply memIDb_get_key.
  - intros k p. cbn. by intros [= ->].
Defined.

Lemma thresholds_of_3f_plus_1_witness :
  ThresholdSize share4 = 2 * 1 + 1 ∧ PartialThresholdSize share4 = 1 + 1.
Proof.
  apply (thresholds_of_3f_plus_1 share4 1).
  - lia.
  - vm_compute. reflexivity.
  - vm_compute. reflexivity.
Defined.

Lemma quorums_intersect_witness :
  PartialThresholdSize share4 ≤ 2 * ThresholdSize share4 - CommitteeSize share4 ∧
  PartialThresholdSize share4 ≤ ThresholdSize share4 ≤ CommitteeSize share4.
Proof. apply (quorums_intersect share4). vm_compute. reflexivity. Defined.

End ValidatorStorage.
